(** * Minijail: the policy object, its wire format, jail entry, the
      supervisor's exit codes and the path resolver of [libminijail.c].

    The development follows the C source function by function.  Machine
    integers are [Z] with their wrap-around written out (signed overflow,
    which C leaves undefined, wraps as on the two's complement machines
    the library runs on), byte buffers are [list byte], C strings are the
    bytes before the terminating NUL, and the effects of the library
    (allocation, system calls, the file system) are explicit: an
    allocation oracle threaded through the builder, a trace of system
    calls for jail entry, and a file-system function for the resolver.
    The object representation is that of LP64 little-endian Linux. *)

From Stdlib Require Import ZArith List Lia Bool.
From Stdlib Require Import Strings.Byte Strings.String.
Import ListNotations.
Local Open Scope Z_scope.

(** ** Bytes and machine integers *)

Definition byte_of_Z (z : Z) : byte :=
  match Byte.of_N (Z.to_N (z mod 256)) with
  | Some b => b
  | None => x00
  end.

Definition Z_of_byte (b : byte) : Z := Z.of_N (Byte.to_N b).

(** Little-endian object representation of an [n]-byte integer. *)
Fixpoint le_bytes (n : nat) (x : Z) : list byte :=
  match n with
  | O => []
  | S n' => byte_of_Z x :: le_bytes n' (x / 256)
  end.

Fixpoint le_value (bs : list byte) : Z :=
  match bs with
  | [] => 0
  | b :: rest => Z_of_byte b + 256 * le_value rest
  end.

(** Unsigned [bits]-bit wrap-around and the two's complement reading. *)
Definition wrap (bits x : Z) : Z := x mod 2 ^ bits.

Definition signed (bits x : Z) : Z :=
  let u := wrap bits x in
  if u <? 2 ^ (bits - 1) then u else u - 2 ^ bits.

Definition INT_MAX : Z := 2147483647.
Definition INT_MIN : Z := -2147483648.
Definition USHRT_MAX : Z := 65535.
Definition SIZE_MAX : Z := 2 ^ 64 - 1.
Definition PATH_MAX : Z := 4096.

Definition int_range (x : Z) : Prop := INT_MIN <= x <= INT_MAX.
Definition u32_range (x : Z) : Prop := 0 <= x < 2 ^ 32.
Definition u64_range (x : Z) : Prop := 0 <= x < 2 ^ 64.

(** C division truncates toward zero. *)
Definition c_div (a b : Z) : Z := Z.quot a b.

(** [errno] values of Linux. *)
Definition E2BIG : Z := 7.
Definition ENOMEM : Z := 12.
Definition EFAULT : Z := 14.
Definition EINVAL : Z := 22.

(** A C string: the bytes before the terminator. *)
Definition cstr := list byte.

Definition cs (s : string) : cstr := list_byte_of_string s.

Definition NUL : byte := x00.
Definition SLASH : byte := x2f.

Definition cstr_ok (s : cstr) : Prop := ~ In NUL s.

Definition opt_cstr_ok (o : option cstr) : Prop :=
  match o with
  | None => True
  | Some s => cstr_ok s
  end.

(** ** The policy object *)

(** [struct minijail]'s [flags] member is a run of 21 one-bit bit-fields
    packed from bit 0 of a 32-bit unit; it is kept as that word. *)
Module Flag.
Inductive t :=
| uid | gid | caps | vfs | pids | net | seccomp | readonly | usergroups
| ptrace | no_new_privs | seccomp_filter | log_seccomp_filter | chroot
| mount_tmp | chdir | stack_limit | time_limit | output_limit
| memory_limit | meta_file.

Definition bit (f : t) : Z :=
  match f with
  | uid => 0 | gid => 1 | caps => 2 | vfs => 3 | pids => 4 | net => 5
  | seccomp => 6 | readonly => 7 | usergroups => 8 | ptrace => 9
  | no_new_privs => 10 | seccomp_filter => 11 | log_seccomp_filter => 12
  | chroot => 13 | mount_tmp => 14 | chdir => 15 | stack_limit => 16
  | time_limit => 17 | output_limit => 18 | memory_limit => 19
  | meta_file => 20
  end.
End Flag.

Record binding := {
  src : cstr;
  dest : cstr;
  writeable : Z
}.

(** [struct sock_filter]: code (u16), jt (u8), jf (u8), k (u32). *)
Record sock_filter := {
  code : Z;
  jt : Z;
  jf : Z;
  k : Z
}.

(** [struct sock_fprog]: an [unsigned short] length and the array. *)
Record sock_fprog := {
  len : Z;
  filter : list sock_filter
}.

(** The linked list [bindings_head .. bindings_tail] is the list
    [bindings]; [meta_file] is the stream's handle when one is open. *)
Record minijail := {
  flags : Z;
  uid : Z;
  gid : Z;
  usergid : Z;
  user : option cstr;
  caps : Z;
  initpid : Z;
  filter_len : Z;
  binding_count : Z;
  chrootdir : option cstr;
  chdir : option cstr;
  filter_prog : option sock_fprog;
  bindings : list binding;
  stack_limit : Z;
  time_limit : Z;
  memory_limit : Z;
  output_limit : Z;
  meta_file : option Z
}.

Definition flag (j : minijail) (f : Flag.t) : bool :=
  Z.testbit (flags j) (Flag.bit f).

Definition set_flags (v : Z) (j : minijail) : minijail :=
  Build_minijail v (uid j) (gid j) (usergid j) (user j) (caps j) (initpid j)
    (filter_len j) (binding_count j) (chrootdir j) (chdir j) (filter_prog j)
    (bindings j) (stack_limit j) (time_limit j) (memory_limit j)
    (output_limit j) (meta_file j).

Definition set_uid (v : Z) (j : minijail) : minijail :=
  Build_minijail (flags j) v (gid j) (usergid j) (user j) (caps j) (initpid j)
    (filter_len j) (binding_count j) (chrootdir j) (chdir j) (filter_prog j)
    (bindings j) (stack_limit j) (time_limit j) (memory_limit j)
    (output_limit j) (meta_file j).

Definition set_gid (v : Z) (j : minijail) : minijail :=
  Build_minijail (flags j) (uid j) v (usergid j) (user j) (caps j) (initpid j)
    (filter_len j) (binding_count j) (chrootdir j) (chdir j) (filter_prog j)
    (bindings j) (stack_limit j) (time_limit j) (memory_limit j)
    (output_limit j) (meta_file j).

Definition set_usergid (v : Z) (j : minijail) : minijail :=
  Build_minijail (flags j) (uid j) (gid j) v (user j) (caps j) (initpid j)
    (filter_len j) (binding_count j) (chrootdir j) (chdir j) (filter_prog j)
    (bindings j) (stack_limit j) (time_limit j) (memory_limit j)
    (output_limit j) (meta_file j).

Definition set_user (v : option cstr) (j : minijail) : minijail :=
  Build_minijail (flags j) (uid j) (gid j) (usergid j) v (caps j) (initpid j)
    (filter_len j) (binding_count j) (chrootdir j) (chdir j) (filter_prog j)
    (bindings j) (stack_limit j) (time_limit j) (memory_limit j)
    (output_limit j) (meta_file j).

Definition set_caps (v : Z) (j : minijail) : minijail :=
  Build_minijail (flags j) (uid j) (gid j) (usergid j) (user j) v (initpid j)
    (filter_len j) (binding_count j) (chrootdir j) (chdir j) (filter_prog j)
    (bindings j) (stack_limit j) (time_limit j) (memory_limit j)
    (output_limit j) (meta_file j).

Definition set_initpid (v : Z) (j : minijail) : minijail :=
  Build_minijail (flags j) (uid j) (gid j) (usergid j) (user j) (caps j) v
    (filter_len j) (binding_count j) (chrootdir j) (chdir j) (filter_prog j)
    (bindings j) (stack_limit j) (time_limit j) (memory_limit j)
    (output_limit j) (meta_file j).

Definition set_filter_len (v : Z) (j : minijail) : minijail :=
  Build_minijail (flags j) (uid j) (gid j) (usergid j) (user j) (caps j)
    (initpid j) v (binding_count j) (chrootdir j) (chdir j) (filter_prog j)
    (bindings j) (stack_limit j) (time_limit j) (memory_limit j)
    (output_limit j) (meta_file j).

Definition set_binding_count (v : Z) (j : minijail) : minijail :=
  Build_minijail (flags j) (uid j) (gid j) (usergid j) (user j) (caps j)
    (initpid j) (filter_len j) v (chrootdir j) (chdir j) (filter_prog j)
    (bindings j) (stack_limit j) (time_limit j) (memory_limit j)
    (output_limit j) (meta_file j).

Definition set_chrootdir (v : option cstr) (j : minijail) : minijail :=
  Build_minijail (flags j) (uid j) (gid j) (usergid j) (user j) (caps j)
    (initpid j) (filter_len j) (binding_count j) v (chdir j) (filter_prog j)
    (bindings j) (stack_limit j) (time_limit j) (memory_limit j)
    (output_limit j) (meta_file j).

Definition set_chdir (v : option cstr) (j : minijail) : minijail :=
  Build_minijail (flags j) (uid j) (gid j) (usergid j) (user j) (caps j)
    (initpid j) (filter_len j) (binding_count j) (chrootdir j) v
    (filter_prog j) (bindings j) (stack_limit j) (time_limit j)
    (memory_limit j) (output_limit j) (meta_file j).

Definition set_filter_prog (v : option sock_fprog) (j : minijail) : minijail :=
  Build_minijail (flags j) (uid j) (gid j) (usergid j) (user j) (caps j)
    (initpid j) (filter_len j) (binding_count j) (chrootdir j) (chdir j) v
    (bindings j) (stack_limit j) (time_limit j) (memory_limit j)
    (output_limit j) (meta_file j).

Definition set_bindings (v : list binding) (j : minijail) : minijail :=
  Build_minijail (flags j) (uid j) (gid j) (usergid j) (user j) (caps j)
    (initpid j) (filter_len j) (binding_count j) (chrootdir j) (chdir j)
    (filter_prog j) v (stack_limit j) (time_limit j) (memory_limit j)
    (output_limit j) (meta_file j).

Definition set_stack_limit (v : Z) (j : minijail) : minijail :=
  Build_minijail (flags j) (uid j) (gid j) (usergid j) (user j) (caps j)
    (initpid j) (filter_len j) (binding_count j) (chrootdir j) (chdir j)
    (filter_prog j) (bindings j) v (time_limit j) (memory_limit j)
    (output_limit j) (meta_file j).

Definition set_time_limit (v : Z) (j : minijail) : minijail :=
  Build_minijail (flags j) (uid j) (gid j) (usergid j) (user j) (caps j)
    (initpid j) (filter_len j) (binding_count j) (chrootdir j) (chdir j)
    (filter_prog j) (bindings j) (stack_limit j) v (memory_limit j)
    (output_limit j) (meta_file j).

Definition set_memory_limit (v : Z) (j : minijail) : minijail :=
  Build_minijail (flags j) (uid j) (gid j) (usergid j) (user j) (caps j)
    (initpid j) (filter_len j) (binding_count j) (chrootdir j) (chdir j)
    (filter_prog j) (bindings j) (stack_limit j) (time_limit j) v
    (output_limit j) (meta_file j).

Definition set_output_limit (v : Z) (j : minijail) : minijail :=
  Build_minijail (flags j) (uid j) (gid j) (usergid j) (user j) (caps j)
    (initpid j) (filter_len j) (binding_count j) (chrootdir j) (chdir j)
    (filter_prog j) (bindings j) (stack_limit j) (time_limit j)
    (memory_limit j) v (meta_file j).

Definition set_meta_file (v : option Z) (j : minijail) : minijail :=
  Build_minijail (flags j) (uid j) (gid j) (usergid j) (user j) (caps j)
    (initpid j) (filter_len j) (binding_count j) (chrootdir j) (chdir j)
    (filter_prog j) (bindings j) (stack_limit j) (time_limit j)
    (memory_limit j) (output_limit j) v.

(** [j->flags.f = 1] and [j->flags.f = 0]. *)
Definition flag_on (f : Flag.t) (j : minijail) : minijail :=
  set_flags (Z.setbit (flags j) (Flag.bit f)) j.

Definition flag_off (f : Flag.t) (j : minijail) : minijail :=
  set_flags (Z.clearbit (flags j) (Flag.bit f)) j.

Definition flag_assign (f : Flag.t) (v : bool) (j : minijail) : minijail :=
  if v then flag_on f j else flag_off f j.

(** ** The host: allocation, user database, files

    Allocation requests are answered from an oracle: the list holds the
    outcomes of the coming requests and an exhausted list means success.
    [die]/[pdie] end the process.  Logging ([info], [warn]) has no effect
    on the policy and is left out. *)

Definition heap := list bool.

Inductive outcome (A : Type) : Type :=
| Returns (a : A) (h : heap)
| Dies.
Arguments Returns {A} a h.
Arguments Dies {A}.

Definition M (A : Type) : Type := heap -> outcome A.

Definition ret {A} (a : A) : M A := fun h => Returns a h.

Definition bind {A B} (c : M A) (f : A -> M B) : M B :=
  fun h =>
    match c h with
    | Returns a h' => f a h'
    | Dies => Dies
    end.

Definition die {A} : M A := fun _ => Dies.

Notation "x <- c1 ;; c2" := (bind c1 (fun x => c2))
  (at level 61, c1 at next level, right associativity).

Definition malloc : M bool :=
  fun h =>
    match h with
    | [] => Returns true []
    | ok :: h' => Returns ok h'
    end.

Definition strdup (s : cstr) : M (option cstr) :=
  ok <- malloc ;;
  ret (if ok then Some s else None).

Record passwd := {
  pw_uid : Z;
  pw_gid : Z
}.

Record host := {
  getpwnam_r : cstr -> option passwd;
  getgrnam_r : cstr -> option Z;
  fopen_r : cstr -> option Z;
  compile_filter : Z -> bool -> option sock_fprog;
  fopen_w : cstr -> option Z
}.

(** ** The builder (Minijail API) *)

(** [calloc(1, sizeof(struct minijail))]. *)
Definition zeroed : minijail :=
  Build_minijail 0 0 0 0 None 0 0 0 0 None None None [] 0 0 0 0 None.

Definition minijail_new : M (option minijail) :=
  ok <- malloc ;;
  ret (if ok then Some zeroed else None).

Definition minijail_preenter (j : minijail) : minijail :=
  flag_off Flag.chroot
    (flag_off Flag.pids (flag_off Flag.readonly (flag_off Flag.vfs j))).

Definition minijail_preexec (j : minijail) : minijail :=
  let vfs := flag j Flag.vfs in
  let readonly := flag j Flag.readonly in
  let stack_limit := flag j Flag.stack_limit in
  let time_limit := flag j Flag.time_limit in
  let memory_limit := flag j Flag.memory_limit in
  let output_limit := flag j Flag.output_limit in
  let meta_file := flag j Flag.meta_file in
  let j := set_user None j in
  let j := set_flags 0 j in
  let j := flag_assign Flag.vfs vfs j in
  let j := flag_assign Flag.readonly readonly j in
  let j := flag_assign Flag.stack_limit stack_limit j in
  let j := flag_assign Flag.time_limit time_limit j in
  let j := flag_assign Flag.memory_limit memory_limit j in
  let j := flag_assign Flag.output_limit output_limit j in
  flag_assign Flag.meta_file meta_file j.

Definition minijail_change_uid (j : minijail) (uid : Z) : M minijail :=
  if uid =? 0 then die
  else ret (flag_on Flag.uid (set_uid uid j)).

Definition minijail_change_gid (j : minijail) (gid : Z) : M minijail :=
  if gid =? 0 then die
  else ret (flag_on Flag.gid (set_gid gid j)).

Definition minijail_use_seccomp (j : minijail) : minijail :=
  flag_on Flag.seccomp j.

Definition minijail_no_new_privs (j : minijail) : minijail :=
  flag_on Flag.no_new_privs j.

Definition minijail_use_seccomp_filter (j : minijail) : minijail :=
  flag_on Flag.seccomp_filter j.

Definition minijail_log_seccomp_filter_failures (j : minijail) : minijail :=
  flag_on Flag.log_seccomp_filter j.

Definition minijail_use_caps (j : minijail) (capmask : Z) : minijail :=
  flag_on Flag.caps (set_caps capmask j).

Definition minijail_namespace_vfs (j : minijail) : minijail :=
  flag_on Flag.vfs j.

Definition minijail_namespace_pids (j : minijail) : minijail :=
  flag_on Flag.pids (flag_on Flag.readonly (flag_on Flag.vfs j)).

Definition minijail_namespace_net (j : minijail) : minijail :=
  flag_on Flag.net j.

Definition minijail_remount_readonly (j : minijail) : minijail :=
  flag_on Flag.readonly (flag_on Flag.vfs j).

Definition minijail_inherit_usergroups (j : minijail) : minijail :=
  flag_on Flag.usergroups j.

Definition minijail_disable_ptrace (j : minijail) : minijail :=
  flag_on Flag.ptrace j.

Definition minijail_mount_tmp (j : minijail) : minijail :=
  flag_on Flag.mount_tmp j.

Definition minijail_stack_limit (j : minijail) (stack_limit : Z) : minijail :=
  set_stack_limit stack_limit (flag_on Flag.stack_limit j).

Definition minijail_time_limit (j : minijail) (msec_limit : Z) : minijail :=
  set_time_limit msec_limit (flag_on Flag.time_limit j).

Definition minijail_output_limit (j : minijail) (byte_limit : Z) : minijail :=
  set_output_limit byte_limit (flag_on Flag.output_limit j).

Definition minijail_memory_limit (j : minijail) (byte_limit : Z) : minijail :=
  set_memory_limit byte_limit (flag_on Flag.memory_limit j).

(** The functions that return [int] give the return value with the
    policy as the call left it. *)

Definition minijail_enter_chroot (j : minijail) (dir : cstr)
  : M (Z * minijail) :=
  match chrootdir j with
  | Some _ => ret (- EINVAL, j)
  | None =>
      d <- strdup dir ;;
      let j := set_chrootdir d j in
      match d with
      | None => ret (- ENOMEM, j)
      | Some _ => ret (0, flag_on Flag.chroot j)
      end
  end.

(** [dir] may be a null pointer. *)
Definition minijail_chroot_chdir (j : minijail) (dir : option cstr)
  : M (Z * minijail) :=
  match chrootdir j with
  | None => ret (- EINVAL, j)
  | Some _ =>
      match chdir j with
      | Some _ => ret (- EINVAL, j)
      | None =>
          match dir with
          | Some (c :: rest) =>
              if Byte.eqb c SLASH then
                d <- strdup (c :: rest) ;;
                let j := set_chdir d j in
                match d with
                | None => ret (- ENOMEM, j)
                | Some _ => ret (0, flag_on Flag.chdir j)
                end
              else ret (- EINVAL, j)
          | _ => ret (- EINVAL, j)
          end
      end
  end.

(** [*dest], the first byte of a C string (the terminator if empty). *)
Definition first_byte (s : cstr) : byte := hd NUL s.

Definition minijail_bind (j : minijail) (src dest : cstr) (writeable : Z)
  : M (Z * minijail) :=
  if negb (Byte.eqb (first_byte dest) SLASH) then ret (- EINVAL, j)
  else
    b <- malloc ;;
    if negb b then ret (- ENOMEM, j)
    else
      d <- strdup dest ;;
      match d with
      | None => ret (- ENOMEM, j)
      | Some d =>
          s <- strdup src ;;
          match s with
          | None => ret (- ENOMEM, j)
          | Some s =>
              let b := Build_binding s d writeable in
              let j := minijail_namespace_vfs j in
              let j := set_bindings (bindings j ++ [b]) j in
              ret (0, set_binding_count (binding_count j + 1) j)
          end
      end.

Section Builder.

Variable hst : host.

Definition minijail_change_user (j : minijail) (user : cstr)
  : M (Z * minijail) :=
  buf <- malloc ;;
  if negb buf then ret (- ENOMEM, j)
  else
    match getpwnam_r hst user with
    | None => ret (-1, j)
    | Some pw =>
        j <- minijail_change_uid j (pw_uid pw) ;;
        u <- strdup user ;;
        let j := set_user u j in
        match u with
        | None => ret (- ENOMEM, j)
        | Some _ => ret (0, set_usergid (pw_gid pw) j)
        end
    end.

Definition minijail_change_group (j : minijail) (group : cstr)
  : M (Z * minijail) :=
  buf <- malloc ;;
  if negb buf then ret (- ENOMEM, j)
  else
    match getgrnam_r hst group with
    | None => ret (-1, j)
    | Some gr_gid =>
        j <- minijail_change_gid j gr_gid ;;
        ret (0, j)
    end.

(** The [malloc] of the program header is not checked: the compiler
    writes through the pointer, so a failed allocation is fatal. *)
Definition minijail_parse_seccomp_filters (j : minijail) (path : cstr)
  : M minijail :=
  match fopen_r hst path with
  | None => die
  | Some file =>
      fprog <- malloc ;;
      if negb fprog then die
      else
        match compile_filter hst file (flag j Flag.log_seccomp_filter) with
        | None => die
        | Some fprog =>
            ret (set_filter_prog (Some fprog) (set_filter_len (len fprog) j))
        end
  end.

Definition minijail_meta_file (j : minijail) (meta_path : cstr)
  : M (Z * minijail) :=
  let j := flag_on Flag.meta_file j in
  let j := set_meta_file (fopen_w hst meta_path) j in
  match meta_file j with
  | None => ret (-1, j)
  | Some _ => ret (0, j)
  end.

(** One call of the builder surface. *)
Inductive call :=
| call_change_uid (uid : Z)
| call_change_gid (gid : Z)
| call_change_user (user : cstr)
| call_change_group (group : cstr)
| call_use_seccomp
| call_no_new_privs
| call_use_seccomp_filter
| call_log_seccomp_filter_failures
| call_use_caps (capmask : Z)
| call_namespace_vfs
| call_namespace_pids
| call_namespace_net
| call_remount_readonly
| call_inherit_usergroups
| call_disable_ptrace
| call_enter_chroot (dir : cstr)
| call_mount_tmp
| call_chroot_chdir (dir : option cstr)
| call_bind (src dest : cstr) (writeable : Z)
| call_parse_seccomp_filters (path : cstr)
| call_stack_limit (stack_limit : Z)
| call_time_limit (msec_limit : Z)
| call_output_limit (byte_limit : Z)
| call_memory_limit (byte_limit : Z)
| call_meta_file (meta_path : cstr).

Definition void (j : minijail) : M (Z * minijail) := ret (0, j).

Definition run_call (c : call) (j : minijail) : M (Z * minijail) :=
  match c with
  | call_change_uid uid => j <- minijail_change_uid j uid ;; void j
  | call_change_gid gid => j <- minijail_change_gid j gid ;; void j
  | call_change_user user => minijail_change_user j user
  | call_change_group group => minijail_change_group j group
  | call_use_seccomp => void (minijail_use_seccomp j)
  | call_no_new_privs => void (minijail_no_new_privs j)
  | call_use_seccomp_filter => void (minijail_use_seccomp_filter j)
  | call_log_seccomp_filter_failures =>
      void (minijail_log_seccomp_filter_failures j)
  | call_use_caps capmask => void (minijail_use_caps j capmask)
  | call_namespace_vfs => void (minijail_namespace_vfs j)
  | call_namespace_pids => void (minijail_namespace_pids j)
  | call_namespace_net => void (minijail_namespace_net j)
  | call_remount_readonly => void (minijail_remount_readonly j)
  | call_inherit_usergroups => void (minijail_inherit_usergroups j)
  | call_disable_ptrace => void (minijail_disable_ptrace j)
  | call_enter_chroot dir => minijail_enter_chroot j dir
  | call_mount_tmp => void (minijail_mount_tmp j)
  | call_chroot_chdir dir => minijail_chroot_chdir j dir
  | call_bind src dest writeable => minijail_bind j src dest writeable
  | call_parse_seccomp_filters path =>
      j <- minijail_parse_seccomp_filters j path ;; void j
  | call_stack_limit n => void (minijail_stack_limit j n)
  | call_time_limit n => void (minijail_time_limit j n)
  | call_output_limit n => void (minijail_output_limit j n)
  | call_memory_limit n => void (minijail_memory_limit j n)
  | call_meta_file p => minijail_meta_file j p
  end.

(** A host program that issues the calls in order, whatever they
    return. *)
Fixpoint run_calls (cs : list call) (j : minijail) : M minijail :=
  match cs with
  | [] => ret j
  | c :: rest => r <- run_call c j ;; run_calls rest (snd r)
  end.

End Builder.

(** ** The marshaller *)

(** The numeric values of the seven pointer members of the object.  They
    are not determined by what the policy holds, only their nullness is. *)
Record pointers := {
  user_ptr : Z;
  chrootdir_ptr : Z;
  chdir_ptr : Z;
  filter_prog_ptr : Z;
  bindings_head_ptr : Z;
  bindings_tail_ptr : Z;
  meta_file_ptr : Z
}.

Definition null_iff {A} (p : Z) (o : option A) : Prop :=
  0 <= p < 2 ^ 64 /\ (p = 0 <-> o = None).

Definition represents (p : pointers) (j : minijail) : Prop :=
  null_iff (user_ptr p) (user j) /\
  null_iff (chrootdir_ptr p) (chrootdir j) /\
  null_iff (chdir_ptr p) (chdir j) /\
  null_iff (filter_prog_ptr p) (filter_prog j) /\
  null_iff (bindings_head_ptr p) (hd_error (bindings j)) /\
  null_iff (bindings_tail_ptr p) (hd_error (bindings j)) /\
  null_iff (meta_file_ptr p) (meta_file j).

(** [sizeof(struct minijail)] and the object representation on LP64,
    little-endian: the flag word, three 32-bit ids, [user], [caps],
    three [int]s and four bytes of padding, five pointers, four [int]s
    and [meta_file]. *)
Definition sizeof_minijail : Z := 112.
Definition sizeof_sock_filter : Z := 8.
Definition sizeof_int : Z := 4.
Definition sizeof_size_t : Z := 8.

Definition struct_bytes (j : minijail) (p : pointers) : list byte :=
  le_bytes 4 (flags j) ++ le_bytes 4 (uid j) ++ le_bytes 4 (gid j) ++
  le_bytes 4 (usergid j) ++ le_bytes 8 (user_ptr p) ++ le_bytes 8 (caps j) ++
  le_bytes 4 (initpid j) ++ le_bytes 4 (filter_len j) ++
  le_bytes 4 (binding_count j) ++ le_bytes 4 0 ++
  le_bytes 8 (chrootdir_ptr p) ++ le_bytes 8 (chdir_ptr p) ++
  le_bytes 8 (filter_prog_ptr p) ++ le_bytes 8 (bindings_head_ptr p) ++
  le_bytes 8 (bindings_tail_ptr p) ++ le_bytes 4 (stack_limit j) ++
  le_bytes 4 (time_limit j) ++ le_bytes 4 (memory_limit j) ++
  le_bytes 4 (output_limit j) ++ le_bytes 8 (meta_file_ptr p).

Definition sock_filter_bytes (f : sock_filter) : list byte :=
  le_bytes 2 (code f) ++ le_bytes 1 (jt f) ++ le_bytes 1 (jf f) ++
  le_bytes 4 (k f).

(** The memory of the array [fp->filter]. *)
Definition filter_bytes (fs : list sock_filter) : list byte :=
  flat_map sock_filter_bytes fs.

Definition strlen (s : cstr) : Z := Z.of_nat (List.length s).

(** The memory of a C string, terminator included. *)
Definition str_bytes (s : cstr) : list byte := s ++ [NUL].

Record marshal_state := {
  available : Z;
  total : Z;
  buf : list byte
}.

(** [buf] holds what has been written in front of the moving pointer. *)
Definition marshal_state_init (available : Z) : marshal_state :=
  Build_marshal_state available 0 [].

Definition marshal_append (state : marshal_state) (src : list byte)
    (length : Z) : marshal_state :=
  let copy_len := Z.min (available state) length in
  let state :=
    if copy_len =? 0 then state
    else Build_marshal_state (available state - copy_len) (total state)
           (buf state ++ firstn (Z.to_nat copy_len) src) in
  Build_marshal_state (available state) (wrap 64 (total state + length))
    (buf state).

Definition marshal_binding (state : marshal_state) (b : binding)
  : marshal_state :=
  let state := marshal_append state (str_bytes (src b)) (strlen (src b) + 1) in
  let state :=
    marshal_append state (str_bytes (dest b)) (strlen (dest b) + 1) in
  marshal_append state (le_bytes 4 (writeable b)) sizeof_int.

Definition minijail_marshal_helper (state : marshal_state) (j : minijail)
    (p : pointers) : marshal_state :=
  let state := marshal_append state (struct_bytes j p) sizeof_minijail in
  let state :=
    match user j with
    | Some s => marshal_append state (str_bytes s) (strlen s + 1)
    | None => state
    end in
  let state :=
    match chrootdir j with
    | Some s => marshal_append state (str_bytes s) (strlen s + 1)
    | None => state
    end in
  let state :=
    match chdir j with
    | Some s => marshal_append state (str_bytes s) (strlen s + 1)
    | None => state
    end in
  let state :=
    match filter_prog j with
    | Some fp =>
        if flag j Flag.seccomp_filter then
          marshal_append state (filter_bytes (filter fp))
            (len fp * sizeof_sock_filter)
        else state
    | None => state
    end in
  fold_left marshal_binding (bindings j) state.

Definition minijail_size (j : minijail) (p : pointers) : Z :=
  total (minijail_marshal_helper (marshal_state_init 0) j p).

(** The return value and the bytes stored in the caller's buffer. *)
Definition minijail_marshal (j : minijail) (p : pointers) (available : Z)
  : Z * list byte :=
  let state := minijail_marshal_helper (marshal_state_init available) j p in
  (if total state >? available then 1 else 0, buf state).

(** ** The unmarshaller *)

(** A cursor is the unread rest of the buffer; its length is
    [*buflength]. *)
Definition consumebytes (length : Z) (buf : list byte)
  : option (list byte * list byte) :=
  if length >? Z.of_nat (List.length buf) then None
  else Some (firstn (Z.to_nat length) buf, skipn (Z.to_nat length) buf).

Fixpoint strnlen (buf : list byte) : Z :=
  match buf with
  | [] => 0
  | b :: rest => if Byte.eqb b NUL then 0 else 1 + strnlen rest
  end.

(** The string handed back is what precedes the terminator consumed. *)
Definition consumestr (buf : list byte) : option (cstr * list byte) :=
  let len := strnlen buf in
  if len =? Z.of_nat (List.length buf) then None
  else
    match consumebytes (len + 1) buf with
    | Some (s, rest) => Some (firstn (Z.to_nat len) s, rest)
    | None => None
    end.

Definition take_le (n : nat) (bs : list byte) : Z * list byte :=
  (le_value (firstn n bs), skipn n bs).

(** [memcpy((void * ) j, serialized, sizeof( *j))]: the scalar members and
    the (stale) values of the pointer members.  The members that hold
    pointers are not yet backed by anything of this process. *)
Definition struct_of_bytes (bs : list byte) : minijail * pointers :=
  let '(flags, bs) := take_le 4 bs in
  let '(uid, bs) := take_le 4 bs in
  let '(gid, bs) := take_le 4 bs in
  let '(usergid, bs) := take_le 4 bs in
  let '(user_p, bs) := take_le 8 bs in
  let '(caps, bs) := take_le 8 bs in
  let '(initpid, bs) := take_le 4 bs in
  let '(filter_len, bs) := take_le 4 bs in
  let '(binding_count, bs) := take_le 4 bs in
  let '(_, bs) := take_le 4 bs in
  let '(chrootdir_p, bs) := take_le 8 bs in
  let '(chdir_p, bs) := take_le 8 bs in
  let '(filter_prog_p, bs) := take_le 8 bs in
  let '(head_p, bs) := take_le 8 bs in
  let '(tail_p, bs) := take_le 8 bs in
  let '(stack_limit, bs) := take_le 4 bs in
  let '(time_limit, bs) := take_le 4 bs in
  let '(memory_limit, bs) := take_le 4 bs in
  let '(output_limit, bs) := take_le 4 bs in
  let '(meta_p, bs) := take_le 8 bs in
  (Build_minijail flags uid gid usergid None caps (signed 32 initpid)
     (signed 32 filter_len) (signed 32 binding_count) None None None []
     (signed 32 stack_limit) (signed 32 time_limit) (signed 32 memory_limit)
     (signed 32 output_limit) None,
   Build_pointers user_p chrootdir_p chdir_p filter_prog_p head_p tail_p
     meta_p).

Fixpoint sock_filters_of_bytes (n : nat) (bs : list byte)
  : list sock_filter :=
  match n with
  | O => []
  | S n' =>
      let '(code, r) := take_le 2 bs in
      let '(jt, r) := take_le 1 r in
      let '(jf, r) := take_le 1 r in
      let '(k, r) := take_le 4 r in
      Build_sock_filter code jt jf k :: sock_filters_of_bytes n' r
  end.

(** The exit through [clear_pointers]: the three strings are gone. *)
Definition clear_pointers (j : minijail) : minijail :=
  set_chdir None (set_chrootdir None (set_user None j)).

Definition unmarshal_fail (j : minijail) : M (Z * minijail) :=
  ret (- EINVAL, clear_pointers j).

(** One optional string section, read when the stale pointer is set. *)
Inductive str_section :=
| Got (s : option cstr) (cur : list byte)
| NoString
| NoMemory.

Definition unmarshal_str (stale : Z) (cur : list byte) : M str_section :=
  if stale =? 0 then ret (Got None cur)
  else
    match consumestr cur with
    | None => ret NoString
    | Some (s, cur) =>
        d <- strdup s ;;
        match d with
        | None => ret NoMemory
        | Some d => ret (Got (Some d) cur)
        end
    end.

(** The loop over the announced bindings; [None] is [bad_bindings]. *)
Fixpoint unmarshal_bindings (count : nat) (j : minijail) (cur : list byte)
  : M (option minijail * minijail) :=
  match count with
  | O => ret (Some j, j)
  | S count' =>
      match consumestr cur with
      | None => ret (None, j)
      | Some (src, cur) =>
          match consumestr cur with
          | None => ret (None, j)
          | Some (dest, cur) =>
              match consumebytes sizeof_int cur with
              | None => ret (None, j)
              | Some (w, cur) =>
                  r <- minijail_bind j src dest (signed 32 (le_value w)) ;;
                  if fst r =? 0 then unmarshal_bindings count' (snd r) cur
                  else ret (None, snd r)
              end
          end
      end
  end.

(** [serialized] is the buffer and its length is the [length]
    argument.  The result is the return value and the object [j] as the
    call left it.  When the [chdir] section has no terminator the exit
    through [bad_chdir] passes the stale pointer to [free]; the process
    is taken to end there.  After the exit through [bad_bindings] the
    member [filter_prog] still points at the program that was freed; the
    record keeps it. *)
Definition minijail_unmarshal (j : minijail) (serialized : list byte)
  : M (Z * minijail) :=
  let length := Z.of_nat (List.length serialized) in
  if length <? sizeof_minijail then ret (- EINVAL, j)
  else
    let '(j, p) :=
      struct_of_bytes (firstn (Z.to_nat sizeof_minijail) serialized) in
    let cur := skipn (Z.to_nat sizeof_minijail) serialized in
    u <- unmarshal_str (user_ptr p) cur ;;
    match u with
    | NoString | NoMemory => unmarshal_fail j
    | Got u cur =>
        let j := set_user u j in
        c <- unmarshal_str (chrootdir_ptr p) cur ;;
        match c with
        | NoString | NoMemory => unmarshal_fail j
        | Got c cur =>
            let j := set_chrootdir c j in
            d <- unmarshal_str (chdir_ptr p) cur ;;
            match d with
            | NoString => die
            | NoMemory => unmarshal_fail j
            | Got d cur =>
                let j := set_chdir d j in
                f <-
                  (if flag j Flag.seccomp_filter && (filter_len j >? 0) then
                     let ninstrs := filter_len j in
                     if (ninstrs >? SIZE_MAX / sizeof_sock_filter)
                        || (ninstrs >? USHRT_MAX)
                     then ret None
                     else
                       let program_len := ninstrs * sizeof_sock_filter in
                       match consumebytes program_len cur with
                       | None => ret None
                       | Some (program, cur) =>
                           a <- malloc ;;
                           b <- malloc ;;
                           if a && b then
                             ret (Some
                                    (Some (Build_sock_fprog ninstrs
                                             (sock_filters_of_bytes
                                                (Z.to_nat ninstrs) program)),
                                     cur))
                           else die
                       end
                   else ret (Some (None, cur))) ;;
                match f with
                | None => unmarshal_fail j
                | Some (f, cur) =>
                    let j := set_filter_prog f j in
                    let count := binding_count j in
                    let j := set_binding_count 0 j in
                    r <- unmarshal_bindings (Z.to_nat count) j cur ;;
                    match fst r with
                    | None => unmarshal_fail (snd r)
                    | Some j => ret (0, j)
                    end
                end
            end
        end
    end.

(** ** Sending the policy over the pipe *)

(** [read(fd, dst, count)] on a pipe whose writer has finished: what is
    read and what stays in the pipe. *)
Definition read (pipe : list byte) (count : Z) : list byte * list byte :=
  (firstn (Z.to_nat count) pipe, skipn (Z.to_nat count) pipe).

(** The result is the return value, the object and the unread rest of
    the pipe. *)
Definition minijail_from_fd (pipe : list byte) (j : minijail)
  : M (Z * minijail * list byte) :=
  let '(szb, pipe) := read pipe sizeof_size_t in
  let sz := le_value szb in
  let bytes := Z.of_nat (List.length szb) in
  if negb (sizeof_size_t =? bytes) then ret (- EINVAL, j, pipe)
  else if sz >? USHRT_MAX then ret (- E2BIG, j, pipe)
  else
    buf <- malloc ;;
    if negb buf then ret (- ENOMEM, j, pipe)
    else
      let '(body, pipe) := read pipe sz in
      if negb (Z.of_nat (List.length body) =? sz) then ret (- EINVAL, j, pipe)
      else
        r <- minijail_unmarshal j body ;;
        ret (fst r, snd r, pipe).

(** [written1] and [written2] are what the two [write] calls return; a
    call that returns [n >= 0] has put the first [n] bytes in the pipe.
    The buffer's [malloc] is not checked and [memcpy] stores through it. *)
Definition write (pipe src : list byte) (written : Z) : list byte :=
  pipe ++ firstn (Z.to_nat written) src.

Definition minijail_to_fd (j : minijail) (p : pointers)
    (written1 written2 : Z) (pipe : list byte) : M (Z * list byte) :=
  let sz := minijail_size j p in
  if sz =? 0 then ret (- EINVAL, pipe)
  else
    buf <- malloc ;;
    if negb buf then die
    else
      let '(r, buf) := minijail_marshal j p sz in
      if negb (r =? 0) then ret (r, pipe)
      else
        let pipe := write pipe (le_bytes 8 sz) written1 in
        if negb (written1 =? sizeof_size_t) then ret (- EFAULT, pipe)
        else
          let pipe := write pipe buf written2 in
          if (written2 <? 0) || negb (written2 =? sz) then ret (- EFAULT, pipe)
          else ret (0, pipe).

(** ** Waiting for the jailed process *)

(** Wait statuses as Linux encodes them ([bits/waitstatus.h]). *)
Definition WTERMSIG (st : Z) : Z := Z.land st 127.
Definition WEXITSTATUS (st : Z) : Z := Z.shiftr (Z.land st 65280) 8.
Definition WIFEXITED (st : Z) : bool := WTERMSIG st =? 0.
Definition WIFSIGNALED (st : Z) : bool :=
  Z.shiftr (signed 8 (Z.land st 127 + 1)) 1 >? 0.

(** What [waitpid] stores for a child that called [_exit(n)], and for one
    ended by signal [s]. *)
Definition status_exited (n : Z) : Z := Z.shiftl (Z.land n 255) 8.
Definition status_signaled (s : Z) (core_dumped : bool) : Z :=
  Z.lor s (if core_dumped then 128 else 0).

Definition SIGKILL : Z := 9.
Definition SIGALRM : Z := 14.
Definition SIGTERM : Z := 15.
Definition SIGXCPU : Z := 24.
Definition SIGSYS : Z := 31.

Section Wait.

(** The error codes of [libminijail.h], a header that is not among the
    sources at hand; they are left open. *)
Variable MINIJAIL_ERR_JAIL : Z.

(** [waitpid]'s outcome is either [errno] or the status it stored. *)
Definition minijail_wait (waitpid : Z + Z) : Z :=
  match waitpid with
  | inl errno => - errno
  | inr st =>
      if negb (WIFEXITED st) then
        let error_status := st in
        let error_status :=
          if WIFSIGNALED st then
            let signum := WTERMSIG st in
            if signum =? SIGSYS then MINIJAIL_ERR_JAIL
            else 128 + signum
          else error_status in
        error_status
      else WEXITSTATUS st
  end.

End Wait.

(** ** Entering the jail: system calls in order *)

Definition CLONE_NEWNS : Z := 131072.
Definition CLONE_NEWNET : Z := 1073741824.
Definition MS_RDONLY : Z := 1.
Definition MS_NOSUID : Z := 2.
Definition MS_NODEV : Z := 4.
Definition MS_NOEXEC : Z := 8.
Definition MS_REMOUNT : Z := 32.
Definition MS_BIND : Z := 4096.
Definition PR_SET_KEEPCAPS : Z := 8.
Definition PR_SET_SECCOMP : Z := 22.
Definition PR_CAPBSET_DROP : Z := 24.
Definition PR_SET_SECUREBITS : Z := 28.
Definition PR_SET_NO_NEW_PRIVS : Z := 38.
Definition SECCOMP_MODE_FILTER : Z := 2.
Definition SECURE_ALL_BITS : Z := 21.
Definition SECURE_ALL_LOCKS : Z := Z.shiftl SECURE_ALL_BITS 1.
Definition CAP_SETPCAP : Z := 8.
Definition RLIMIT_CPU : Z := 0.
Definition RLIMIT_FSIZE : Z := 1.
Definition RLIMIT_STACK : Z := 3.
Definition RLIMIT_CORE : Z := 4.
Definition RLIMIT_AS : Z := 9.

Inductive handler := handle_timeout | handle_init_term.

(** The calls the library makes, with their arguments.  [alloc] is the
    allocation inside [asprintf]; [prctl_filter] is
    [prctl(PR_SET_SECCOMP, SECCOMP_MODE_FILTER, prog)]; [sigsys_handler]
    is [install_sigsys_handler()]. *)
Inductive syscall :=
| alloc
| unshare (flags : Z)
| mount (source target : cstr) (fstype : option cstr) (mountflags : Z)
    (data : option cstr)
| umount (target : cstr)
| sys_chroot (path : option cstr)
| sys_chdir (path : cstr)
| prctl (option arg2 : Z)
| prctl_filter (prog : option sock_fprog)
| sigsys_handler
| initgroups (user : option cstr) (group : Z)
| setgroups (size : Z)
| setresgid (r e s : Z)
| setresuid (r e s : Z)
| capget
| capset (effective permitted inheritable : Z)
| setrlimit (resource cur max : Z)
| ualarm (usecs interval : Z)
| alarm (seconds : Z)
| signal (signum : Z) (h : handler)
| clock_gettime.

(** The kernel answers each call from what has happened so far: 0, or a
    negated [errno] as at the system call boundary.  [cap_last_cap] is
    what [/proc/sys/kernel/cap_last_cap] reads as, if it does. *)
Record kernel := {
  answer : list syscall -> syscall -> Z;
  cap_last_cap : option Z
}.

(** A computation sees the kernel and extends the trace; [None] is a
    process that died ([die], [pdie]). *)
Definition Sys (A : Type) : Type :=
  kernel -> list syscall -> option A * list syscall.

Definition sys_ret {A} (a : A) : Sys A := fun _ t => (Some a, t).

Definition sys_bind {A B} (c : Sys A) (f : A -> Sys B) : Sys B :=
  fun kn t =>
    match c kn t with
    | (Some a, t') => f a kn t'
    | (None, t') => (None, t')
    end.

Definition sys_die {A} : Sys A := fun _ t => (None, t).

Definition sys (c : syscall) : Sys Z :=
  fun kn t => (Some (answer kn t c), t ++ [c]).

Definition last_cap : Sys Z :=
  fun kn t =>
    match cap_last_cap kn with
    | Some n => (Some n, t)
    | None => (None, t)
    end.

Declare Scope sys_scope.
Delimit Scope sys_scope with sys.
Notation "x <- c1 ;; c2" := (sys_bind c1 (fun x => c2))
  (at level 61, c1 at next level, right associativity) : sys_scope.
Notation "c1 ;; c2" := (sys_bind c1 (fun _ => c2))
  (at level 61, right associativity) : sys_scope.

(** [if (call) pdie(...)]. *)
Definition must (c : syscall) : Sys unit :=
  (r <- sys c ;; if r =? 0 then sys_ret tt else sys_die)%sys.

Definition when (b : bool) (c : Sys unit) : Sys unit :=
  if b then c else sys_ret tt.

(** [asprintf(&dest, "%s%s", j->chrootdir, b->dest)]; glibc prints a
    null string as "(null)". *)
Definition printed (o : option cstr) : cstr :=
  match o with
  | Some s => s
  | None => cs "(null)"
  end.

Fixpoint bind_one (j : minijail) (b : binding) (next : list binding)
  : Sys Z :=
  (a <- sys alloc ;;
   if negb (a =? 0) then sys_ret (- ENOMEM)
   else
     let dest := printed (chrootdir j) ++ dest b in
     must (mount (src b) dest None MS_BIND None) ;;
     when (writeable b =? 0)
       (must (mount (src b) dest None
                (Z.lor MS_BIND (Z.lor MS_REMOUNT MS_RDONLY)) None)) ;;
     match next with
     | b' :: next' => bind_one j b' next'
     | [] => sys_ret 0
     end)%sys.

Definition enter_chroot (j : minijail) : Sys Z :=
  (ret <-
     match bindings j with
     | b :: next => bind_one j b next
     | [] => sys_ret 0
     end ;;
   if negb (ret =? 0) then sys_ret ret
   else
     r <- sys (sys_chroot (chrootdir j)) ;;
     if negb (r =? 0) then sys_ret r
     else
       r <- sys (sys_chdir
                   match chdir j with
                   | Some d => d
                   | None => cs "/"
                   end) ;;
       if negb (r =? 0) then sys_ret r else sys_ret 0)%sys.

Definition mount_tmp : Sys Z :=
  sys (mount (cs "none") (cs "/tmp") (Some (cs "tmpfs")) 0
         (Some (cs "size=128M,mode=777"))).

Definition remount_readonly (j : minijail) : Sys Z :=
  let kSafeFlags := Z.lor MS_NODEV (Z.lor MS_NOEXEC MS_NOSUID) in
  (a <- sys alloc ;;
   if negb (a =? 0) then sys_ret (- ENOMEM)
   else
     let procPath :=
       match chrootdir j with
       | Some d => d
       | None => []
       end ++ cs "/proc" in
     _ <- sys (umount (cs "/proc/sys/fs/binfmt_misc")) ;;
     r <- sys (umount (cs "/proc")) ;;
     if negb (r =? 0) then sys_ret r
     else
       sys (mount [] procPath (Some (cs "proc"))
              (Z.lor kSafeFlags MS_RDONLY) (Some [])))%sys.

Definition drop_ugid (j : minijail) : Sys unit :=
  ((if flag j Flag.usergroups then
      must (initgroups (user j) (usergid j))
    else
      when (negb (uid j =? 0) || negb (gid j =? 0)) (must (setgroups 0))) ;;
   when (flag j Flag.gid) (must (setresgid (gid j) (gid j) (gid j))) ;;
   when (flag j Flag.uid) (must (setresuid (uid j) (uid j) (uid j))))%sys.

(** The indices [i = 0, 1, ...] for which [i < 64 && run_cap_valid(i)]. *)
Fixpoint valid_caps (bound : nat) (i last : Z) : list Z :=
  match bound with
  | O => []
  | S bound' => if i <=? last then i :: valid_caps bound' (i + 1) last else []
  end.

(** The three flag sets of a [cap_t]. *)
Record cap_t := {
  effective : Z;
  permitted : Z;
  inheritable : Z
}.

Definition cap_set_all (i : Z) (c : cap_t) : cap_t :=
  Build_cap_t (Z.setbit (effective c) i) (Z.setbit (permitted c) i)
    (Z.setbit (inheritable c) i).

Definition cap_clear_all (i : Z) (c : cap_t) : cap_t :=
  Build_cap_t (Z.clearbit (effective c) i) (Z.clearbit (permitted c) i)
    (Z.clearbit (inheritable c) i).

Definition cap_set_proc (c : cap_t) : Sys unit :=
  must (capset (effective c) (permitted c) (inheritable c)).

Fixpoint drop_bounding (j : minijail) (idx : list Z) : Sys unit :=
  match idx with
  | [] => sys_ret tt
  | i :: rest =>
      (when (negb (Z.testbit (caps j) i)) (must (prctl PR_CAPBSET_DROP i)) ;;
       drop_bounding j rest)%sys
  end.

Definition drop_caps (j : minijail) : Sys unit :=
  (must capget ;;
   let caps0 := Build_cap_t 0 0 0 in
   last <- last_cap ;;
   let idx := valid_caps 64 0 last in
   let kept :=
     fold_left
       (fun c i =>
          if negb (i =? CAP_SETPCAP) && negb (Z.testbit (caps j) i) then c
          else cap_set_all i c)
       idx caps0 in
   cap_set_proc kept ;;
   drop_bounding j idx ;;
   let final :=
     if negb (Z.testbit (caps j) CAP_SETPCAP) then cap_clear_all CAP_SETPCAP kept
     else kept in
   cap_set_proc final)%sys.

Definition set_seccomp_filter (j : minijail) : Sys unit :=
  (when (flag j Flag.no_new_privs) (must (prctl PR_SET_NO_NEW_PRIVS 1)) ;;
   when (flag j Flag.seccomp_filter && flag j Flag.log_seccomp_filter)
     (must sigsys_handler) ;;
   when (flag j Flag.seccomp_filter) (must (prctl_filter (filter_prog j))))%sys.

(** [if (cond && call) pdie(...)] for the helpers that return a code. *)
Definition must_succeed (c : Sys Z) : Sys unit :=
  (r <- c ;; if r =? 0 then sys_ret tt else sys_die)%sys.

Definition minijail_enter (j : minijail) : Sys unit :=
  if flag j Flag.pids then sys_die
  else if flag j Flag.usergroups
          && match user j with Some _ => false | None => true end
  then sys_die
  else
    (when (flag j Flag.vfs) (must (unshare CLONE_NEWNS)) ;;
     when (flag j Flag.net) (must (unshare CLONE_NEWNET)) ;;
     when (flag j Flag.chroot) (must_succeed (enter_chroot j)) ;;
     when (flag j Flag.chroot && flag j Flag.mount_tmp)
       (must_succeed mount_tmp) ;;
     when (flag j Flag.readonly) (must_succeed (remount_readonly j)) ;;
     when (flag j Flag.caps)
       (must (prctl PR_SET_KEEPCAPS 1) ;;
        must (prctl PR_SET_SECUREBITS
                (Z.lor SECURE_ALL_BITS SECURE_ALL_LOCKS))) ;;
     (if flag j Flag.no_new_privs then
        drop_ugid j ;;
        when (flag j Flag.caps) (drop_caps j) ;;
        set_seccomp_filter j
      else
        set_seccomp_filter j ;;
        drop_ugid j ;;
        when (flag j Flag.caps) (drop_caps j)) ;;
     when (flag j Flag.seccomp) (must (prctl PR_SET_SECCOMP 1)))%sys.

(** ** Limits and the supervisor's alarm *)

(** [int] arithmetic wraps to 32 bits; [rlim_t] is an unsigned 64-bit
    type and [useconds_t], [unsigned] are unsigned 32-bit types. *)
Definition setup_limits (j : minijail) : Sys Z :=
  let lim (resource v : Z) (k : Sys Z) : Sys Z :=
    (r <- sys (setrlimit resource (wrap 64 v) (wrap 64 v)) ;;
     if negb (r =? 0) then sys_ret (-1) else k)%sys in
  let memory k :=
    if flag j Flag.memory_limit then lim RLIMIT_AS (memory_limit j) k else k in
  let output k :=
    if flag j Flag.output_limit then
      lim RLIMIT_FSIZE (output_limit j) (lim RLIMIT_CORE 0 k)
    else k in
  let stack k :=
    if flag j Flag.stack_limit then lim RLIMIT_STACK (stack_limit j) k
    else k in
  let time k :=
    if flag j Flag.time_limit then
      let rlim_cur := wrap 64 (c_div (signed 32 (999 + time_limit j)) 1000) in
      let rlim_max := wrap 64 (rlim_cur + 1) in
      (r <- sys (setrlimit RLIMIT_CPU rlim_cur rlim_max) ;;
       if negb (r =? 0) then sys_ret (-1)
       else
         _ <- sys (ualarm (wrap 32 (signed 32 (time_limit j * 1000))) 0) ;;
         k)%sys
    else k in
  memory (output (stack (time (sys_ret 0)))).

(** The head of [init], up to the loop that reaps the children: the
    wall-clock sample, the backup alarm and the [SIGTERM] handler.  The
    result is the value stored in the global [child_pid], if any. *)
Definition init_prologue (j : minijail) (rootpid : Z) : Sys (option Z) :=
  (when (flag j Flag.meta_file) (_ <- sys clock_gettime ;; sys_ret tt) ;;
   child_pid <-
     (if flag j Flag.time_limit then
        _ <- sys (signal SIGALRM handle_timeout) ;;
        _ <- sys (alarm (wrap 32 (c_div (signed 32 (time_limit j + 1999))
                                    1000))) ;;
        sys_ret (Some rootpid)
      else sys_ret None) ;;
   _ <- sys (signal SIGTERM handle_init_term) ;;
   sys_ret child_pid)%sys.

(** ** The path resolver *)

(** A [char] array is the list of its bytes; the string it holds ends at
    the first NUL. *)
Fixpoint array_strlen (m : list byte) : nat :=
  match m with
  | [] => O
  | b :: rest => if Byte.eqb b NUL then O else S (array_strlen rest)
  end.

Definition c_string (m : list byte) : cstr := firstn (array_strlen m) m.

(** Store [bs] from offset [off] on; nothing is stored past the end. *)
Fixpoint write_at (m : list byte) (off : nat) (bs : list byte) : list byte :=
  match m with
  | [] => []
  | x :: m' =>
      match off with
      | S off' => x :: write_at m' off' bs
      | O =>
          match bs with
          | [] => m
          | b :: bs' => b :: write_at m' O bs'
          end
      end
  end.

(** What [strncpy(dst, src, n)] stores: [n] bytes, NUL-padded. *)
Definition strncpy_bytes (src : cstr) (n : nat) : list byte :=
  firstn n src ++ repeat NUL (n - List.length src).

(** What [snprintf(dst, size, "/%s", path)] stores. *)
Definition snprintf_bytes (size : nat) (path : cstr) : list byte :=
  match size with
  | O => []
  | S room => firstn room (SLASH :: path) ++ [NUL]
  end.

Definition byte_at (m : list byte) (i : Z) : byte :=
  nth (Z.to_nat i) m NUL.

(** [path] may be a null pointer; the result is the return value and the
    array. *)
Definition concat_path (buffer : list byte) (buffer_len : Z)
    (path : option cstr) : Z * list byte :=
  match path with
  | None => (1, buffer)
  | Some path =>
      let len := Z.of_nat (array_strlen buffer) in
      let pathlen := strlen path in
      let last_is_slash := Byte.eqb (byte_at buffer (len - 1)) SLASH in
      let path_is_abs := Byte.eqb (first_byte path) SLASH in
      if negb (len =? 0) && negb last_is_slash && negb path_is_abs then
        if wrap 64 (len + pathlen + 1) >=? buffer_len then (-1, buffer)
        else
          (0, write_at buffer (Z.to_nat len)
                (snprintf_bytes (Z.to_nat (wrap 64 (buffer_len - len - 1)))
                   path))
      else if negb (len =? 0) && last_is_slash && path_is_abs then
        if wrap 64 (len + pathlen) >=? buffer_len then (-1, buffer)
        else
          (0, write_at buffer (Z.to_nat len)
                (strncpy_bytes (tl path)
                   (Z.to_nat (wrap 64 (buffer_len - len)))))
      else
        if wrap 64 (len + pathlen) >=? buffer_len then (-1, buffer)
        else
          (0, write_at buffer (Z.to_nat len)
                (strncpy_bytes path (Z.to_nat (wrap 64 (buffer_len - len)))))
  end.

Inductive file_kind := S_IFREG | S_IFLNK | S_IFOTHER.

Record filesystem := {
  lstat : cstr -> option file_kind;
  readlink : cstr -> option cstr;
  cwd : cstr
}.

(** [getcwd(buffer, size)]: null when the name and its terminator do not
    fit. *)
Definition getcwd (fsys : filesystem) (buffer : list byte) (size : Z)
  : option (list byte) :=
  if strlen (cwd fsys) + 1 >? size then None
  else Some (write_at buffer 0 (str_bytes (cwd fsys))).

(** [strncmp(a, b, n) == 0] for a string [a] of length [n]. *)
Fixpoint strncmp_eq (a b : cstr) : bool :=
  match a with
  | [] => true
  | x :: a' =>
      match b with
      | [] => false
      | y :: b' => Byte.eqb x y && strncmp_eq a' b'
      end
  end.

(** The walk from [bindings_head] to [bindings_tail]. *)
Fixpoint longest_match (bs : list binding) (buffer : list byte)
    (best : option binding) (best_len : Z) : option binding * Z :=
  match bs with
  | [] => (best, best_len)
  | cur :: rest =>
      let mount_len := strlen (dest cur) in
      if strncmp_eq (dest cur) (c_string buffer) && (mount_len >? best_len)
      then longest_match rest buffer (Some cur) mount_len
      else longest_match rest buffer best best_len
  end.

(** How a call of the resolver ends: with a return value and the array,
    or in an access outside an object (a null [chrootdir], the byte in
    front of an empty [src], a move past the array). *)
Inductive resolved :=
| Resolved (ret : Z) (buffer : list byte)
| Fault.

Inductive step :=
| Stop (r : resolved)
| Follow (buffer : list byte) (linkpath : cstr).

(** "Get the absolute path of the file, including the chdir if this is a
    relative path": what precedes the path in the array, or [None] when
    the function returns 1. *)
Definition anchor (fsys : filesystem) (j : minijail) (buffer : list byte)
    (buffer_len : Z) (path : cstr) : option (list byte) :=
  if negb (Byte.eqb (first_byte path) SLASH) then
    if flag j Flag.chdir then
      let '(r, b) := concat_path buffer buffer_len (chdir j) in
      if negb (r =? 0) then None else Some b
    else if flag j Flag.chroot then
      let '(r, b) := concat_path buffer buffer_len (Some (cs "/")) in
      if negb (r =? 0) then None else Some b
    else getcwd fsys buffer buffer_len
  else Some buffer.

(** "Get the binding with the longest match" and put its source, or the
    root of the jail, in place of the matched prefix. *)
Definition replace_prefix (j : minijail) (buffer : list byte)
    (buffer_len : Z) : resolved :=
  let len := Z.of_nat (array_strlen buffer) in
  let '(best, best_len) := longest_match (bindings j) buffer None 0 in
  let chosen :=
    match best with
    | Some b => Some (src b, best_len)
    | None =>
        if flag j Flag.chroot then
          match chrootdir j with
          | Some d => Some (d, 1)
          | None => None
          end
        else Some (cs "/", 1)
    end in
  match chosen with
  | None => Fault
  | Some (src_path, best_len) =>
      let src_len := strlen src_path in
      if src_len =? 0 then Fault
      else
        let src_len :=
          if Byte.eqb (byte_at src_path (src_len - 1)) SLASH
          then src_len - 1 else src_len in
        if wrap 64 (len - best_len + src_len + 2) >=? buffer_len then
          Resolved 1 buffer
        else
          let count := wrap 64 (len - best_len) in
          if (src_len + 1 + count >? buffer_len)
             || (best_len + count >? buffer_len)
          then Fault
          else
            let moved :=
              firstn (Z.to_nat count) (skipn (Z.to_nat best_len) buffer) in
            let buffer := write_at buffer (Z.to_nat (src_len + 1)) moved in
            let buffer :=
              write_at buffer 0 (firstn (Z.to_nat src_len) src_path) in
            Resolved 0 (write_at buffer (Z.to_nat src_len) [SLASH])
  end.

(** [lstat] the result: a regular file ends the search, a symbolic link
    is read (into [linkpath], of [PATH_MAX + 1] bytes) and followed. *)
Definition classify (fsys : filesystem) (buffer : list byte) : step :=
  match lstat fsys (c_string buffer) with
  | None => Stop (Resolved 1 buffer)
  | Some S_IFREG => Stop (Resolved 0 buffer)
  | Some S_IFOTHER => Stop (Resolved 1 buffer)
  | Some S_IFLNK =>
      match readlink fsys (c_string buffer) with
      | None => Stop (Resolved 1 buffer)
      | Some target =>
          Follow buffer (c_string (firstn (Z.to_nat PATH_MAX) target ++ [NUL]))
      end
  end.

(** The body of [minijail_get_path] up to its recursive call.
    [buffer_len] is the length of [buffer]. *)
Definition get_path_step (fsys : filesystem) (j : minijail)
    (buffer : list byte) (path : cstr) : step :=
  let buffer_len := Z.of_nat (List.length buffer) in
  let buffer := write_at buffer 0 [NUL] in
  match anchor fsys j buffer buffer_len path with
  | None => Stop (Resolved 1 buffer)
  | Some buffer =>
      let len := Z.of_nat (array_strlen buffer) in
      let '(r, buffer) :=
        concat_path buffer (wrap 64 (buffer_len - len)) (Some path) in
      if negb (r =? 0) then Stop (Resolved 1 buffer)
      else
        match replace_prefix j buffer buffer_len with
        | Resolved 0 buffer => classify fsys buffer
        | r => Stop r
        end
  end.

(** The recursion; [None] when [fuel] calls were not enough to reach a
    [return]. *)
Fixpoint minijail_get_path (fuel : nat) (fsys : filesystem) (j : minijail)
    (buffer : list byte) (path : cstr) : option resolved :=
  match fuel with
  | O => None
  | S fuel' =>
      match get_path_step fsys j buffer path with
      | Stop r => Some r
      | Follow buffer linkpath => minijail_get_path fuel' fsys j buffer linkpath
      end
  end.

(** * Properties, descriptions and concrete inputs *)

(** ** Properties of policies and hosts *)

(** A heap on which every coming request succeeds. *)
Definition plentiful (h : heap) : Prop := Forall (fun ok => ok = true) h.

(** What the C types of the builder's parameters guarantee. *)
Definition binding_ok (b : binding) : Prop :=
  cstr_ok (src b) /\ cstr_ok (dest b) /\ first_byte (dest b) = SLASH /\
  int_range (writeable b).

Definition sock_filter_ok (f : sock_filter) : Prop :=
  0 <= code f < 2 ^ 16 /\ 0 <= jt f < 2 ^ 8 /\ 0 <= jf f < 2 ^ 8 /\
  0 <= k f < 2 ^ 32.

Definition sock_fprog_ok (fp : sock_fprog) : Prop :=
  0 <= len fp <= USHRT_MAX /\ len fp = Z.of_nat (List.length (filter fp)) /\
  Forall sock_filter_ok (filter fp).

Definition call_ok (c : call) : Prop :=
  match c with
  | call_change_uid uid => u32_range uid
  | call_change_gid gid => u32_range gid
  | call_change_user user => cstr_ok user
  | call_use_caps capmask => u64_range capmask
  | call_enter_chroot dir => cstr_ok dir
  | call_chroot_chdir dir => opt_cstr_ok dir
  | call_bind src dest writeable =>
      cstr_ok src /\ cstr_ok dest /\ int_range writeable
  | call_stack_limit n | call_time_limit n | call_output_limit n
  | call_memory_limit n => int_range n
  | _ => True
  end.

(** The user database holds 32-bit ids and the filter compiler fills a
    [struct sock_fprog] whose length counts its array. *)
Definition host_ok (hst : host) : Prop :=
  (forall name pw, getpwnam_r hst name = Some pw ->
     u32_range (pw_uid pw) /\ u32_range (pw_gid pw)) /\
  (forall name g, getgrnam_r hst name = Some g -> u32_range g) /\
  (forall file log fp, compile_filter hst file log = Some fp ->
     sock_fprog_ok fp).

(** A policy issued by a host program: the calls [cs] made in order on a
    fresh object. *)
Definition built_by (hst : host) (cs : list call) (h : heap) (j : minijail)
  : Prop :=
  exists h', run_calls hst cs zeroed h = Returns j h'.

(** What holds of every policy the builder hands out. *)
Record well_formed (j : minijail) : Prop := {
  wf_flags : 0 <= flags j < 2 ^ 32;
  wf_uid : u32_range (uid j);
  wf_gid : u32_range (gid j);
  wf_usergid : u32_range (usergid j);
  wf_caps : u64_range (caps j);
  wf_initpid : int_range (initpid j);
  wf_filter_len : int_range (filter_len j);
  wf_stack_limit : int_range (stack_limit j);
  wf_time_limit : int_range (time_limit j);
  wf_memory_limit : int_range (memory_limit j);
  wf_output_limit : int_range (output_limit j);
  wf_user : opt_cstr_ok (user j);
  wf_chrootdir : opt_cstr_ok (chrootdir j);
  wf_chdir : opt_cstr_ok (chdir j);
  wf_bindings : Forall binding_ok (bindings j);
  wf_binding_count : binding_count j = Z.of_nat (List.length (bindings j));
  wf_bindings_vfs : bindings j <> [] -> flag j Flag.vfs = true;
  wf_filter_prog :
    match filter_prog j with
    | Some fp => filter_len j = len fp /\ sock_fprog_ok fp
    | None => filter_len j = 0
    end
}.

(** The builder's flag invariant. *)
Definition flag_invariant (j : minijail) : Prop :=
  (flag j Flag.pids = true ->
   flag j Flag.vfs = true /\ flag j Flag.readonly = true) /\
  (bindings j <> [] -> flag j Flag.vfs = true).

(** ** The wire format, as the interface description lays it out *)

Definition wire_opt_string (o : option cstr) : list byte :=
  match o with
  | Some s => str_bytes s
  | None => []
  end.

Definition wire_binding (b : binding) : list byte :=
  str_bytes (src b) ++ str_bytes (dest b) ++ le_bytes 4 (writeable b).

Definition wire_filter (j : minijail) : list byte :=
  match filter_prog j with
  | Some fp =>
      if flag j Flag.seccomp_filter then filter_bytes (filter fp) else []
  | None => []
  end.

Definition wire_format (j : minijail) (p : pointers) : list byte :=
  struct_bytes j p ++ wire_opt_string (user j) ++
  wire_opt_string (chrootdir j) ++ wire_opt_string (chdir j) ++
  wire_filter j ++ flat_map wire_binding (bindings j).

(** The length passed along with the filter array is the array's. *)
Definition filter_counted (j : minijail) : Prop :=
  match filter_prog j with
  | Some fp => len fp = Z.of_nat (List.length (filter fp))
  | None => True
  end.

(** What the receiver holds after a transfer: the program only when the
    filter is switched on and not empty, and no open stream. *)
Definition received (j : minijail) : minijail :=
  set_meta_file None
    (set_filter_prog
       (if flag j Flag.seccomp_filter && (filter_len j >? 0)
        then filter_prog j else None) j).

(** The object right after the [memcpy] of [minijail_unmarshal]: the
    scalar members, and nothing yet behind the pointer members. *)
Definition stale (j : minijail) : minijail :=
  Build_minijail (flags j) (uid j) (gid j) (usergid j) None (caps j)
    (initpid j) (filter_len j) (binding_count j) None None None []
    (stack_limit j) (time_limit j) (memory_limit j) (output_limit j) None.

Definition pointers_ok (p : pointers) : Prop :=
  u64_range (user_ptr p) /\ u64_range (chrootdir_ptr p) /\
  u64_range (chdir_ptr p) /\ u64_range (filter_prog_ptr p) /\
  u64_range (bindings_head_ptr p) /\ u64_range (bindings_tail_ptr p) /\
  u64_range (meta_file_ptr p).



(** The running total does not depend on the room left. *)
Definition same_total (a b : marshal_state) : Prop := total a = total b.

(** [tracks cap acc st]: after the bytes [acc] were offered to a buffer
    of [cap] bytes, [st] holds their first [cap] bytes. *)
Definition tracks (cap : Z) (acc : list byte) (st : marshal_state) : Prop :=
  buf st = firstn (Z.to_nat cap) acc /\
  available st = cap - Z.of_nat (List.length (buf st)) /\
  total st = wrap 64 (Z.of_nat (List.length acc)).

(** ** Reading a trace of jail entry *)

(** The calls that change identity ([drop_ugid]), the calls that reduce
    capabilities ([drop_caps]) and the installation of the filter. *)
Definition identity_call (c : syscall) : bool :=
  match c with
  | initgroups _ _ | setgroups _ | setresgid _ _ _ | setresuid _ _ _ => true
  | _ => false
  end.

Definition capability_call (c : syscall) : bool :=
  match c with
  | capset _ _ _ => true
  | prctl option _ => option =? PR_CAPBSET_DROP
  | _ => false
  end.

Definition filter_install (c : syscall) : bool :=
  match c with
  | prctl_filter _ => true
  | _ => false
  end.

Definition no_drop (c : syscall) : Prop :=
  identity_call c || capability_call c = false.

Definition no_install (c : syscall) : Prop := filter_install c = false.

(** [c] only makes calls that satisfy [P]. *)
Definition emits {A} (P : syscall -> Prop) (c : Sys A) : Prop :=
  forall kn t, exists tr, snd (c kn t) = t ++ tr /\ Forall P tr.

(** [c] makes calls that satisfy [P], then calls that satisfy [Q]. *)
Definition splits {A} (P Q : syscall -> Prop) (c : Sys A) : Prop :=
  forall kn t,
  exists a b, snd (c kn t) = t ++ a ++ b /\ Forall P a /\ Forall Q b.

(** The trace of a call of [minijail_enter] in a fresh process. *)
Definition enter_trace (j : minijail) (kn : kernel) : list syscall :=
  snd (minijail_enter j kn []).

(** ** The time limit *)

(** The ceiling of [a / b] for a positive [b]. *)
Definition ceil_div (a b : Z) : Z := - ((- a) / b).

(** The alarm the description gives: "ceil((t+1999)/1000)" seconds. *)
Definition described_alarm (t : Z) : Z := ceil_div (t + 1999) 1000.

(** A computation that, when it returns 0, has made the calls [tail]
    last. *)
Definition ends_with (tail : list syscall) (c : Sys Z) : Prop :=
  forall kn t,
    fst (c kn t) = Some 0 -> exists pre, snd (c kn t) = t ++ pre ++ tail.

(** ** Concrete hosts and policies *)

Fixpoint cstr_eqb (a b : cstr) : bool :=
  match a, b with
  | [], [] => true
  | x :: a', y :: b' => Byte.eqb x y && cstr_eqb a' b'
  | _, _ => false
  end.

(** [BPF_RET | BPF_K] with [SECCOMP_RET_ALLOW]. *)
Definition ret_allow : sock_filter := Build_sock_filter 6 0 0 2147418112.

Definition one_instruction : sock_fprog := Build_sock_fprog 1 [ret_allow].

(** A host with one user, one group, one policy file and one writable
    report file. *)
Definition small_host : host :=
  {| getpwnam_r := fun name =>
       if cstr_eqb name (cs "alice") then Some (Build_passwd 1000 1000)
       else None;
     getgrnam_r := fun name =>
       if cstr_eqb name (cs "users") then Some 100 else None;
     fopen_r := fun path =>
       if cstr_eqb path (cs "/etc/policy") then Some 3 else None;
     compile_filter := fun file _ =>
       if file =? 3 then Some one_instruction else None;
     fopen_w := fun path =>
       if cstr_eqb path (cs "/tmp/m") then Some 4 else None |}.

(** A jail with a user, a chroot, two bindings, a filter that is switched
    on, a pid namespace and a time limit. *)
Definition full_calls : list call :=
  [call_change_user (cs "alice");
   call_change_gid 1000;
   call_enter_chroot (cs "/tmp/jail");
   call_chroot_chdir (Some (cs "/home"));
   call_bind (cs "/bin") (cs "/bin") 0;
   call_bind (cs "/lib") (cs "/lib") 1;
   call_parse_seccomp_filters (cs "/etc/policy");
   call_use_seccomp_filter;
   call_no_new_privs;
   call_namespace_pids;
   call_time_limit 1000;
   call_meta_file (cs "/tmp/m")].

Definition full_policy : minijail :=
  match run_calls small_host full_calls zeroed [] with
  | Returns j _ => j
  | Dies => zeroed
  end.

(** Some addresses for the members that are set. *)
Definition full_pointers : pointers :=
  Build_pointers 6299664 6299696 6299728 6299760 6299792 6299856 6300000.

(** A program that was compiled but never switched on. *)
Definition parsed_only_calls : list call :=
  [call_parse_seccomp_filters (cs "/etc/policy")].

Definition parsed_only_policy : minijail :=
  match run_calls small_host parsed_only_calls zeroed [] with
  | Returns j _ => j
  | Dies => zeroed
  end.

Definition parsed_only_pointers : pointers :=
  Build_pointers 0 0 0 6299760 0 0 0.

(** A filter of 8178 instructions, switched on: with the 112 bytes of the
    object that is one byte more than the pipe's receiver takes. *)
Definition long_filter : sock_fprog :=
  Build_sock_fprog 8178 (repeat ret_allow (Z.to_nat 8178)).

Definition long_filter_host : host :=
  {| getpwnam_r := fun _ => None;
     getgrnam_r := fun _ => None;
     fopen_r := fun _ => Some 3;
     compile_filter := fun _ _ => Some long_filter;
     fopen_w := fun _ => None |}.

Definition long_filter_calls : list call :=
  [call_parse_seccomp_filters (cs "/etc/policy"); call_use_seccomp_filter].

Definition long_filter_policy : minijail :=
  match run_calls long_filter_host long_filter_calls zeroed [] with
  | Returns j _ => j
  | Dies => zeroed
  end.

(** A kernel that grants every call, with 38 capabilities. *)
Definition willing_kernel : kernel :=
  {| answer := fun _ _ => 0; cap_last_cap := Some 37 |}.

(** A jail that drops to a user, keeps [CAP_NET_BIND_SERVICE] and filters
    system calls, with and without [no_new_privs]. *)
Definition dropping_calls : list call :=
  [call_change_uid 1000;
   call_change_gid 1000;
   call_use_caps 1024;
   call_parse_seccomp_filters (cs "/etc/policy");
   call_use_seccomp_filter].

Definition dropping_policy : minijail :=
  match run_calls small_host dropping_calls zeroed [] with
  | Returns j _ => j
  | Dies => zeroed
  end.

Definition dropping_policy_nnp : minijail :=
  minijail_no_new_privs dropping_policy.

(** A jail with a time limit of one second. *)
Definition one_second_policy : minijail := minijail_time_limit zeroed 1000.

(** ** Paths *)

(** A file system in which every name is a regular file. *)
Definition all_regular : filesystem :=
  {| lstat := fun _ => Some S_IFREG;
     readlink := fun _ => None;
     cwd := cs "/" |}.

(** The bindings [/x] on [/a] and [/y] on [/a/b]. *)
Definition nested_calls : list call :=
  [call_bind (cs "/x") (cs "/a") 0; call_bind (cs "/y") (cs "/a/b") 0].

Definition nested_policy : minijail :=
  match run_calls small_host nested_calls zeroed [] with
  | Returns j _ => j
  | Dies => zeroed
  end.

(** The caller's array of [PATH_MAX + 1] bytes. *)
Definition path_buffer : list byte := repeat NUL (Z.to_nat (PATH_MAX + 1)).

(** [follows fsys j n buffer path buffer']: starting from [path], the
    resolver meets [n] symbolic links in a row, each time taking up the
    link's target, and then a regular file, whose host path it leaves in
    [buffer']. *)
Inductive follows (fsys : filesystem) (j : minijail)
  : nat -> list byte -> cstr -> list byte -> Prop :=
| follows_file (buffer : list byte) (path : cstr) (buffer' : list byte) :
    get_path_step fsys j buffer path = Stop (Resolved 0 buffer') ->
    follows fsys j O buffer path buffer'
| follows_link (n : nat) (buffer : list byte) (path : cstr)
    (buffer1 : list byte) (target : cstr) (buffer' : list byte) :
    get_path_step fsys j buffer path = Follow buffer1 target ->
    follows fsys j n buffer1 target buffer' ->
    follows fsys j (S n) buffer path buffer'.


(** [/bin/sh] links to [/bin/dash], a link to the regular file
    [/bin/dash.real]. *)
Definition two_links : filesystem :=
  {| lstat := fun p =>
       if cstr_eqb p (cs "/bin/sh") || cstr_eqb p (cs "/bin/dash")
       then Some S_IFLNK
       else if cstr_eqb p (cs "/bin/dash.real") then Some S_IFREG
       else None;
     readlink := fun p =>
       if cstr_eqb p (cs "/bin/sh") then Some (cs "/bin/dash")
       else if cstr_eqb p (cs "/bin/dash") then Some (cs "/bin/dash.real")
       else None;
     cwd := cs "/" |}.


(** The array of [size] bytes holding [s], NUL-padded. *)
Definition padded (size : nat) (s : cstr) : list byte :=
  s ++ repeat NUL (size - List.length s).

(** An absolute path that fits an array of [size] bytes with the room the
    resolver asks for. *)
Definition absolute_in (size : nat) (p : cstr) : Prop :=
  cstr_ok p /\ first_byte p = SLASH /\ (List.length p + 2 <= size)%nat.

(** A policy that neither binds nor changes root. *)
Definition unjailed (j : minijail) : Prop :=
  bindings j = [] /\ flag j Flag.chroot = false.

(** [leads_to fsys size n p last]: in the file system, [p] is the first
    of [n] symbolic links, each holding the name of the next, and [last]
    is the regular file at the end. *)
Inductive leads_to (fsys : filesystem) (size : nat)
  : nat -> cstr -> cstr -> Prop :=
| leads_file (p : cstr) :
    absolute_in size p -> lstat fsys p = Some S_IFREG ->
    leads_to fsys size O p p
| leads_link (n : nat) (p q last : cstr) :
    absolute_in size p -> lstat fsys p = Some S_IFLNK ->
    readlink fsys p = Some q ->
    (List.length q <= Z.to_nat PATH_MAX)%nat ->
    leads_to fsys size n q last ->
    leads_to fsys size (S n) p last.



(** ** Further readings of the code *)

(** The flags that outlive [minijail_preexec] and the flags that
    [minijail_preenter] takes away. *)
Definition survives_exec (f : Flag.t) : bool :=
  match f with
  | Flag.vfs | Flag.readonly | Flag.stack_limit | Flag.time_limit
  | Flag.memory_limit | Flag.output_limit | Flag.meta_file => true
  | _ => false
  end.

Definition parent_only (f : Flag.t) : bool :=
  match f with
  | Flag.vfs | Flag.readonly | Flag.pids | Flag.chroot => true
  | _ => false
  end.

(** The first mount of a binding, as [bind_one] issues it. *)
Definition bind_mount_of (j : minijail) (b : binding) : syscall :=
  mount (src b) (printed (chrootdir j) ++ dest b) None MS_BIND None.

Definition is_bind_mount (c : syscall) : bool :=
  match c with
  | mount _ _ None flags None => flags =? MS_BIND
  | _ => false
  end.

(** The calls whose failure must end the process: those that change
    identity, reduce capabilities or install the filter. *)
Definition critical (c : syscall) : bool :=
  identity_call c || capability_call c || filter_install c.

(** [c], when it returns, had each of its critical calls granted. *)
Definition fails_closed {A} (c : Sys A) : Prop :=
  forall kn t,
  exists tr,
    snd (c kn t) = t ++ tr /\
    (fst (c kn t) <> None ->
     forall i x,
       nth_error tr i = Some x -> critical x = true ->
       answer kn (t ++ firstn i tr) x = 0).

(** A kernel that refuses [setresuid] and grants the rest. *)
Definition no_setresuid_kernel : kernel :=
  {| answer := fun _ c =>
       match c with
       | setresuid _ _ _ => -1
       | _ => 0
       end;
     cap_last_cap := Some 37 |}.

(** * The supervisor, static targets and the command line *)

(** ** The supervisor: reaping the children and exiting *)

Record timespec := {
  tv_sec : Z;
  tv_nsec : Z
}.

(** The members of [struct rusage] that [init] prints. *)
Record rusage := {
  ru_utime_sec : Z;
  ru_utime_usec : Z;
  ru_maxrss : Z
}.

(** One child that [wait3] handed back: its pid, its wait status and the
    resource usage stored along with it. *)
Record reaped := {
  reaped_pid : Z;
  reaped_status : Z;
  reaped_usage : rusage
}.

(** [long] arithmetic wraps to 64 bits. *)
Definition long (x : Z) : Z := signed 64 x.

(** The loop [while ((pid = wait3(&status, 0, &usage)) > 0)]: the
    children handed back before [wait3] returned no pid.  The global
    [init_exitstatus] keeps the status of [rootpid] and [usage] is what
    the last call stored. *)
Definition init_reap (rootpid : Z) (children : list reaped)
    (init_exitstatus : Z) (usage : rusage) : Z * rusage :=
  fold_left
    (fun acc c =>
       (if reaped_pid c =? rootpid then reaped_status c else fst acc,
        reaped_usage c))
    children (init_exitstatus, usage).

(** [t1 - t0], as [init] computes it in place. *)
Definition init_elapsed (t0 t1 : timespec) : timespec :=
  let sec := long (tv_sec t1 - tv_sec t0) in
  if tv_nsec t1 <? tv_nsec t0 then
    Build_timespec (long (sec - 1))
      (long (long (1000000000 + tv_nsec t1) - tv_nsec t0))
  else Build_timespec sec (long (tv_nsec t1 - tv_nsec t0)).

(** The lines of the meta file. *)
Inductive meta_line :=
| meta_time (usecs : Z)
| meta_time_wall (usecs : Z)
| meta_mem (bytes : Z)
| meta_signal (signum : Z)
| meta_status (status : Z).

Section Init.

(** An error code of [libminijail.h], which is not among the sources. *)
Variable MINIJAIL_ERR_INIT : Z.

(** The pair [(exit_signal, exit_status)]. *)
Definition init_exit (signal_override init_exitstatus : Z) : Z * Z :=
  if negb (signal_override =? 0) then (signal_override, MINIJAIL_ERR_INIT)
  else if negb (WIFEXITED init_exitstatus) then
    ((if WIFSIGNALED init_exitstatus then WTERMSIG init_exitstatus else -1),
     MINIJAIL_ERR_INIT)
  else (0, WEXITSTATUS init_exitstatus).

(** What [init] does after the loop: the lines it prints to the meta
    file, if there is one, and the status it passes to [_exit].  [t0] and
    [t1] are the two samples of the clock, [signal_override] is the
    global that the [SIGALRM] handler sets. *)
Definition init_epilogue (j : minijail) (t0 t1 : timespec)
    (signal_override init_exitstatus : Z) (usage : rusage)
  : list meta_line * Z :=
  let usage_lines :=
    if flag j Flag.meta_file then
      let t := init_elapsed t0 t1 in
      [meta_time (long (long (1000000 * ru_utime_sec usage)
                        + ru_utime_usec usage));
       meta_time_wall
         (c_div (long (long (1000000000 * tv_sec t) + tv_nsec t)) 1000);
       meta_mem (long (ru_maxrss usage * 1024))]
    else [] in
  let '(exit_signal, exit_status) :=
    init_exit signal_override init_exitstatus in
  let exit_lines :=
    if flag j Flag.meta_file then
      if negb (exit_signal =? 0) then [meta_signal exit_signal]
      else [meta_status exit_status]
    else [] in
  (usage_lines ++ exit_lines, exit_status).

End Init.

(** ** Running a static target *)

(** How a call of [minijail_run_static] ends in a process: the parent
    returns; the child reaches [execve]; the first process of a pid
    namespace goes on as its supervisor ([init], which never returns) or,
    when its [fork] fails, leaves with [_exit]. *)
Inductive ending :=
| Returned (ret : Z) (j : minijail)
| Executes (filename : cstr) (argv : list cstr)
| Supervises (j : minijail) (rootpid : Z)
| Exited (status : Z).

(** [child_pid] is what [fork] (or [clone], for a pid namespace) returns
    in the process at hand and [child_pid'] what the [fork] inside the
    namespace returns.  The stream of the meta file is closed before
    [execve]; that leaves no trace here. *)
Definition minijail_run_static (j : minijail) (filename : cstr)
    (argv : list cstr) (child_pid child_pid' : Z) : Sys ending :=
  let pid_namespace := flag j Flag.pids in
  if flag j Flag.caps then sys_die
  else if child_pid <? 0 then sys_die
  else if child_pid >? 0 then sys_ret (Returned 0 (set_initpid child_pid j))
  else
    let j := flag_off Flag.pids j in
    (minijail_enter j ;;
     if pid_namespace && (child_pid' <? 0) then sys_ret (Exited child_pid')
     else if pid_namespace && (child_pid' >? 0) then
       sys_ret (Supervises j child_pid')
     else
       when (flag j Flag.chroot) (must_succeed (enter_chroot j)) ;;
       must_succeed (setup_limits j) ;;
       sys_ret (Executes filename argv))%sys.

(** [minijail_kill]: the outcomes of [kill] and of [waitpid] are either
    [errno] or what the call gave. *)
Definition minijail_kill (kill : Z + unit) (waitpid : Z + Z) : Z :=
  match kill with
  | inl errno => - errno
  | inr _ =>
      match waitpid with
      | inl errno => - errno
      | inr st => st
      end
  end.

(** ** The command line of [minijail0] *)

(** [strtok] with a single delimiter: the next token, if there is one,
    and where the scan goes on. *)
Fixpoint skip_delimiters (d : byte) (s : cstr) : cstr :=
  match s with
  | [] => []
  | c :: rest => if Byte.eqb c d then skip_delimiters d rest else s
  end.

Fixpoint take_token (d : byte) (s : cstr) : cstr * cstr :=
  match s with
  | [] => ([], [])
  | c :: rest =>
      if Byte.eqb c d then ([], rest)
      else let '(token, more) := take_token d rest in (c :: token, more)
  end.

Definition strtok (d : byte) (s : cstr) : option (cstr * cstr) :=
  match skip_delimiters d s with
  | [] => None
  | s' => Some (take_token d s')
  end.

Definition COMMA : byte := x2c.

Section Minijail0.

Variable hst : host.

(** [atoi] of the C library. *)
Variable atoi : cstr -> Z.

(** [close(fd)] followed by [open(path, ...)]: whether the descriptor
    that [open] returns is [fd] again. *)
Variable reopen : Z -> cstr -> bool.

(** [None] is [exit(1)]. *)
Definition add_binding (j : minijail) (arg : cstr) : M (option minijail) :=
  match strtok COMMA arg with
  | None => ret None
  | Some (src, more) =>
      match strtok COMMA more with
      | None => ret None
      | Some (dest, more) =>
          let flags :=
            match strtok COMMA more with
            | Some (flags, _) => atoi flags
            | None => 0
            end in
          r <- minijail_bind j src dest flags ;;
          if negb (fst r =? 0) then ret None else ret (Some (snd r))
      end
  end.

(** The [switch] of [parse_args] on an option that [getopt] delivers
    with its argument. *)
Definition parse_args_case (j : minijail) (opt : byte) (optarg : cstr)
  : M (option minijail) :=
  match opt with
  | "s"%byte => ret (Some (minijail_use_seccomp j))
  | "S"%byte =>
      j <- minijail_parse_seccomp_filters hst j optarg ;;
      ret (Some (minijail_use_seccomp_filter j))
  | "L"%byte => ret (Some (minijail_log_seccomp_filter_failures j))
  | "b"%byte => add_binding j optarg
  | "C"%byte =>
      r <- minijail_enter_chroot j optarg ;;
      if negb (0 =? fst r) then ret None else ret (Some (snd r))
  | "d"%byte =>
      r <- minijail_chroot_chdir j (Some optarg) ;;
      if negb (0 =? fst r) then ret None else ret (Some (snd r))
  | "G"%byte => ret (Some (minijail_inherit_usergroups j))
  | "H"%byte => ret None
  | "t"%byte => ret (Some (minijail_time_limit j (atoi optarg)))
  | "O"%byte => ret (Some (minijail_output_limit j (atoi optarg)))
  | "m"%byte => ret (Some (minijail_memory_limit j (atoi optarg)))
  | "M"%byte =>
      r <- minijail_meta_file hst j optarg ;;
      if negb (fst r =? 0) then ret None else ret (Some (snd r))
  | "0"%byte => if negb (reopen 0 optarg) then ret None else ret (Some j)
  | "1"%byte => if negb (reopen 1 optarg) then ret None else ret (Some j)
  | "2"%byte => if negb (reopen 2 optarg) then ret None else ret (Some j)
  | _ => ret None
  end.

(** The loop of [parse_args] over the options that [getopt] delivers, in
    order. *)
Fixpoint parse_args_options (j : minijail) (options : list (byte * cstr))
  : M (option minijail) :=
  match options with
  | [] => ret (Some j)
  | (opt, optarg) :: rest =>
      r <- parse_args_case j opt optarg ;;
      match r with
      | None => ret None
      | Some j => parse_args_options j rest
      end
  end.

(** The policy that [main] holds after [parse_args], for the entry [pw]
    of the invoking user in the user database.  The result of
    [minijail_new] is not checked: without memory the first store
    through it ends the process. *)
Definition main_policy (pw : passwd) (options : list (byte * cstr))
  : M (option minijail) :=
  new <- minijail_new ;;
  match new with
  | None => die
  | Some j =>
      j <- minijail_change_uid j (pw_uid pw) ;;
      j <- minijail_change_gid j (pw_gid pw) ;;
      let j := minijail_use_caps j 0 in
      let j := minijail_namespace_pids j in
      let j := minijail_remount_readonly j in
      let j := minijail_namespace_vfs j in
      let j := minijail_no_new_privs j in
      let j := minijail_namespace_net j in
      parse_args_options j options
  end.

End Minijail0.

(** * Further properties and concrete inputs *)

(** ** What the receiver checks of the bindings *)

(** The binding list as [minijail_bind] leaves it: counted, with
    absolute destinations, and with the mount namespace asked for. *)
Definition binding_invariant (j : minijail) : Prop :=
  binding_count j = Z.of_nat (List.length (bindings j)) /\
  Forall (fun b => first_byte (dest b) = SLASH) (bindings j) /\
  (bindings j <> [] -> flag j Flag.vfs = true).

(** ** What the builder keeps of identity and root directory *)

Definition jail_invariant (j : minijail) : Prop :=
  (flag j Flag.uid = true -> uid j <> 0) /\
  (flag j Flag.gid = true -> gid j <> 0) /\
  (user j <> None -> flag j Flag.uid = true) /\
  (flag j Flag.chroot = true <-> chrootdir j <> None) /\
  (flag j Flag.chdir = true <-> chdir j <> None) /\
  (chdir j <> None -> chrootdir j <> None) /\
  (forall d, chdir j = Some d -> first_byte d = SLASH).

(** ** Mounts and the mount namespace *)

(** The bind mounts, the unmounts and the mount of [/proc]: every change
    of the mount table but the [tmpfs] of [mount_tmp]. *)
Definition protected_mount (c : syscall) : bool :=
  match c with
  | mount _ _ None _ _ => true
  | mount _ _ (Some t) _ _ => negb (cstr_eqb t (cs "tmpfs"))
  | umount _ => true
  | _ => false
  end.

Definition mount_invariant (j : minijail) : Prop :=
  (flag j Flag.readonly = true -> flag j Flag.vfs = true) /\
  (bindings j <> [] -> flag j Flag.vfs = true).

(** A policy with a binding, a read-only [/proc] and a chroot. *)
Definition mounting_calls : list call :=
  [call_change_uid 1000;
   call_enter_chroot (cs "/tmp/jail");
   call_bind (cs "/bin") (cs "/bin") 0;
   call_remount_readonly].

Definition mounting_policy : minijail :=
  match run_calls small_host mounting_calls zeroed [] with
  | Returns j _ => j
  | Dies => zeroed
  end.

(** ** Capabilities *)

(** A list of numbers that increase strictly, all above [lo]. *)
Fixpoint increasing_above (lo : Z) (l : list Z) : Prop :=
  match l with
  | [] => True
  | x :: rest => lo < x /\ increasing_above x rest
  end.

(** ** Supplementary groups *)

Definition group_call (c : syscall) : bool :=
  match c with
  | initgroups _ _ | setgroups _ => true
  | _ => false
  end.

(** ** The wall clock *)

(** A sample of [CLOCK_REALTIME] in nanoseconds. *)
Definition nanoseconds (t : timespec) : Z :=
  1000000000 * tv_sec t + tv_nsec t.

(** A normalised sample, not before the epoch and with seconds that fit
    well into a [long] of nanoseconds. *)
Definition timespec_ok (t : timespec) : Prop :=
  0 <= tv_sec t < 2 ^ 33 /\ 0 <= tv_nsec t < 1000000000.

(** A policy that writes a meta file. *)
Definition meta_policy : minijail :=
  match run_calls small_host [call_meta_file (cs "/tmp/m")] zeroed [] with
  | Returns j _ => j
  | Dies => zeroed
  end.

(** ** Joining two paths *)

Definition last_byte (s : cstr) : byte := List.last s NUL.

(** [concat_path] puts a separator between a non-empty string that does
    not end in one and a path that does not start with one. *)
Definition needs_separator (s p : cstr) : bool :=
  negb (strlen s =? 0) && negb (Byte.eqb (last_byte s) SLASH)
  && negb (Byte.eqb (first_byte p) SLASH).

Definition doubled_separator (s p : cstr) : bool :=
  negb (strlen s =? 0) && Byte.eqb (last_byte s) SLASH
  && Byte.eqb (first_byte p) SLASH.

(** The string that [concat_path] leaves in an array that held [s] when
    it returns 0, for the size [buffer_len] it was given. *)
Definition joined (s p : cstr) (buffer_len : Z) : cstr :=
  if needs_separator s p then
    s ++ firstn (Z.to_nat (buffer_len - strlen s - 2)) (SLASH :: p)
  else if doubled_separator s p then s ++ tl p
  else s ++ p.

(** ** Reasoning about a process's calls *)

(** The two calls whose answer the library does not look at. *)
Definition ignorable (c : syscall) : bool :=
  match c with
  | umount t => cstr_eqb t (cs "/proc/sys/fs/binfmt_misc")
  | ualarm _ _ => true
  | _ => false
  end.

(** Every call of the trace, the ignorable ones apart, was answered 0 by
    the kernel, given what had happened before it. *)
Definition all_granted (kn : kernel) (t : list syscall) : Prop :=
  forall i x,
    nth_error t i = Some x -> ignorable x = false ->
    answer kn (firstn i t) x = 0.

(** From a trace that satisfies [P], a run of [c] that returns [a] gives
    a trace that satisfies [Q a]. *)
Definition hoare {A} (kn : kernel) (P : list syscall -> Prop) (c : Sys A)
    (Q : A -> list syscall -> Prop) : Prop :=
  forall t, P t -> forall a, fst (c kn t) = Some a -> Q a (snd (c kn t)).

Definition is_chroot (c : syscall) : bool :=
  match c with
  | sys_chroot _ => true
  | _ => false
  end.

(** A policy for a static target: a change of user, a chroot with a
    binding and limits. *)
Definition static_calls : list call :=
  [call_change_uid 1000;
   call_enter_chroot (cs "/tmp/jail");
   call_bind (cs "/bin") (cs "/bin") 0;
   call_namespace_pids;
   call_time_limit 1000;
   call_memory_limit 1048576].

Definition static_policy : minijail :=
  match run_calls small_host static_calls zeroed [] with
  | Returns j _ => j
  | Dies => zeroed
  end.

(** ** The command line *)

(** The calls that [main] makes before it reads its options. *)
Definition base_calls (pw : passwd) : list call :=
  [call_change_uid (pw_uid pw);
   call_change_gid (pw_gid pw);
   call_use_caps 0;
   call_namespace_pids;
   call_remount_readonly;
   call_namespace_vfs;
   call_no_new_privs;
   call_namespace_net].

(** What [main] fixes of the policy, whatever the options. *)
Definition cli_invariant (pw : passwd) (j : minijail) : Prop :=
  uid j = pw_uid pw /\ pw_uid pw <> 0 /\
  gid j = pw_gid pw /\ pw_gid pw <> 0 /\
  caps j = 0 /\
  flag j Flag.uid = true /\ flag j Flag.gid = true /\
  flag j Flag.caps = true /\ flag j Flag.pids = true /\
  flag j Flag.vfs = true /\ flag j Flag.readonly = true /\
  flag j Flag.no_new_privs = true /\ flag j Flag.net = true /\
  (filter_prog j <> None -> flag j Flag.seccomp_filter = true).

(** A token of a binding: not empty, without comma. *)
Definition token (s : cstr) : Prop := s <> [] /\ ~ In COMMA s.

(** An [atoi] for the examples: one decimal digit. *)
Definition digit_atoi (s : cstr) : Z :=
  match s with
  | [b] => Z.of_N (Byte.to_N b) - 48
  | _ => 0
  end.

Definition cli_options : list (byte * cstr) :=
  [("C"%byte, cs "/tmp/jail");
   ("b"%byte, cs "/bin,/bin");
   ("b"%byte, cs "/lib,/lib,1");
   ("S"%byte, cs "/etc/policy");
   ("t"%byte, cs "5")].

Definition cli_policy : minijail :=
  match main_policy small_host digit_atoi (fun _ _ => true)
          (Build_passwd 1000 1000) cli_options [] with
  | Returns (Some j) _ => j
  | _ => zeroed
  end.

(** The binding is added, or the program leaves with status 1. *)
Definition bound_or_exit (j : minijail) (src dest : cstr) (w : Z)
  : M (option minijail) :=
  r <- minijail_bind j src dest w ;;
  if negb (fst r =? 0) then ret None else ret (Some (snd r)).

(** ** The resolver *)

(** What the resolver leaves in the caller's array for [/bin/sh]. *)
Definition resolved_sh : list byte :=
  match minijail_get_path 3 two_links zeroed path_buffer (cs "/bin/sh") with
  | Some (Resolved _ b) => b
  | _ => []
  end.

(** ** The size of the image *)

Definition opt_size (o : option cstr) : Z :=
  match o with
  | Some s => strlen s + 1
  | None => 0
  end.

Definition filter_size (j : minijail) : Z :=
  match filter_prog j with
  | Some fp =>
      if flag j Flag.seccomp_filter then len fp * sizeof_sock_filter else 0
  | None => 0
  end.

Definition binding_size (b : binding) : Z :=
  strlen (src b) + 1 + strlen (dest b) + 1 + sizeof_int.

(** The struct, the strings that are held with their terminators, the
    instructions of a filter that is switched on, and for each binding
    its two strings and its flag. *)
Definition described_size (j : minijail) : Z :=
  sizeof_minijail + opt_size (user j) + opt_size (chrootdir j)
  + opt_size (chdir j) + filter_size j
  + fold_right (fun b acc => binding_size b + acc) 0 (bindings j).

(** ** Setting up before dropping *)

(** The calls that arrange namespaces, mounts and the root directory,
    with the allocation of the paths they are given. *)
Definition setup_call (c : syscall) : bool :=
  match c with
  | alloc | unshare _ | mount _ _ _ _ _ | umount _ | sys_chroot _
  | sys_chdir _ => true
  | _ => false
  end.

(** What [minijail_enter] still does after [minijail_preexec]: the mount
    namespace, the mount of [/proc] and the reset of the supplementary
    groups. *)
Definition inherited_call (c : syscall) : bool :=
  match c with
  | alloc | umount _ | setgroups _ => true
  | unshare flags => flags =? CLONE_NEWNS
  | mount _ _ (Some t) _ _ => cstr_eqb t (cs "proc")
  | _ => false
  end.

(** * Proofs *)

(** * Bytes and little-endian integers *)

Lemma Z_of_byte_range (b : byte) : 0 <= Z_of_byte b < 256.
Proof.
  unfold Z_of_byte. pose proof (Byte.to_N_bounded b). lia.
Qed.

Lemma Z_of_byte_of_Z (z : Z) : Z_of_byte (byte_of_Z z) = z mod 256.
Proof.
  unfold Z_of_byte, byte_of_Z.
  assert (Hr : 0 <= z mod 256 < 256) by (apply Z.mod_pos_bound; lia).
  destruct (Byte.of_N (Z.to_N (z mod 256))) as [b|] eqn:E.
  - apply Byte.to_of_N in E. rewrite E. lia.
  - apply Byte.of_N_None_iff in E. lia.
Qed.

Lemma byte_of_Z_of_byte (b : byte) : byte_of_Z (Z_of_byte b) = b.
Proof.
  unfold byte_of_Z. rewrite Z.mod_small by apply Z_of_byte_range.
  unfold Z_of_byte. rewrite N2Z.id, Byte.of_to_N. reflexivity.
Qed.

Lemma length_le_bytes (n : nat) (x : Z) : List.length (le_bytes n x) = n.
Proof.
  revert x. induction n as [|n IH]; intro x; simpl; [reflexivity|].
  now rewrite IH.
Qed.

Lemma le_value_bytes (n : nat) (x : Z) :
  le_value (le_bytes n x) = x mod 256 ^ Z.of_nat n.
Proof.
  revert x. induction n as [|n IH]; intro x.
  - simpl. now rewrite Z.mod_1_r.
  - cbn [le_bytes le_value]. rewrite IH, Z_of_byte_of_Z.
    rewrite Nat2Z.inj_succ, Z.pow_succ_r by lia.
    rewrite Z.rem_mul_r by lia. reflexivity.
Qed.

Lemma le_value_range (bs : list byte) :
  0 <= le_value bs < 256 ^ Z.of_nat (List.length bs).
Proof.
  induction bs as [|b bs IH].
  - simpl. lia.
  - cbn [le_value List.length]. rewrite Nat2Z.inj_succ, Z.pow_succ_r by lia.
    pose proof (Z_of_byte_range b). lia.
Qed.

Lemma le_bytes_value (bs : list byte) :
  le_bytes (List.length bs) (le_value bs) = bs.
Proof.
  induction bs as [|b bs IH]; [reflexivity|].
  cbn [List.length le_bytes le_value].
  pose proof (Z_of_byte_range b) as Hb.
  f_equal.
  - replace (Z_of_byte b + 256 * le_value bs)
      with (Z_of_byte b + le_value bs * 256) by lia.
    unfold byte_of_Z. rewrite Z_mod_plus_full.
    fold (byte_of_Z (Z_of_byte b)). apply byte_of_Z_of_byte.
  - replace ((Z_of_byte b + 256 * le_value bs) / 256) with (le_value bs);
      [exact IH|].
    replace (Z_of_byte b + 256 * le_value bs)
      with (le_value bs * 256 + Z_of_byte b) by lia.
    rewrite Z.div_add_l by lia. rewrite Z.div_small by lia. lia.
Qed.

Lemma take_le_app (n : nat) (x : Z) (rest : list byte) :
  take_le n (le_bytes n x ++ rest) = (x mod 256 ^ Z.of_nat n, rest).
Proof.
  unfold take_le.
  pose proof (length_le_bytes n x) as L.
  rewrite firstn_app, skipn_app, L, Nat.sub_diag. simpl.
  rewrite app_nil_r.
  rewrite <- L at 1. rewrite firstn_all.
  rewrite <- L at 2. rewrite skipn_all. simpl.
  now rewrite le_value_bytes.
Qed.

Lemma signed_32_wrap (x : Z) :
  int_range x -> signed 32 (x mod 256 ^ 4) = x.
Proof.
  unfold int_range, INT_MIN, INT_MAX, signed, wrap. intros H.
  change (256 ^ 4) with 4294967296. change (2 ^ 32) with 4294967296.
  change (2 ^ (32 - 1)) with 2147483648.
  rewrite Z.mod_mod by lia.
  destruct (Z_lt_le_dec x 0).
  - replace (x mod 4294967296) with (x + 4294967296).
    + destruct (Z.ltb_spec (x + 4294967296) 2147483648); lia.
    + apply Z.mod_unique with (q := -1); lia.
  - rewrite Z.mod_small by lia.
    destruct (Z.ltb_spec x 2147483648); lia.
Qed.

Lemma signed_32_range (x : Z) : int_range (signed 32 x).
Proof.
  unfold int_range, INT_MIN, INT_MAX, signed, wrap.
  change (2 ^ 32) with 4294967296. change (2 ^ (32 - 1)) with 2147483648.
  pose proof (Z.mod_pos_bound x 4294967296 ltac:(lia)).
  destruct (Z.ltb_spec (x mod 4294967296) 2147483648); lia.
Qed.

(** * The allocation oracle *)

Lemma malloc_plentiful (h : heap) :
  plentiful h -> exists h', malloc h = Returns true h' /\ plentiful h'.
Proof.
  intros H. destruct h as [|ok h]; simpl.
  - exists []. split; [reflexivity|constructor].
  - inversion H; subst. exists h. split; [reflexivity|assumption].
Qed.

Lemma strdup_plentiful (s : cstr) (h : heap) :
  plentiful h -> exists h', strdup s h = Returns (Some s) h' /\ plentiful h'.
Proof.
  intros H. unfold strdup, bind.
  destruct (malloc_plentiful h H) as (h' & E & P). rewrite E.
  exists h'. split; [reflexivity|assumption].
Qed.

Lemma bind_returns {A B} (c : M A) (f : A -> M B) (h h' : heap) (b : B) :
  bind c f h = Returns b h' ->
  exists a h1, c h = Returns a h1 /\ f a h1 = Returns b h'.
Proof.
  unfold bind. destruct (c h) as [a h1|]; [|discriminate].
  intros E. exists a, h1. split; [reflexivity|exact E].
Qed.

Lemma malloc_cases (h : heap) : exists ok h', malloc h = Returns ok h'.
Proof.
  destruct h as [|ok h]; simpl; eauto.
Qed.

(** * The flag word *)

Lemma bit_range (f : Flag.t) : 0 <= Flag.bit f < 21.
Proof. destruct f; simpl; lia. Qed.

Lemma flag_flag_on (g f : Flag.t) (j : minijail) :
  flag (flag_on g j) f = (Flag.bit g =? Flag.bit f) || flag j f.
Proof.
  unfold flag, flag_on. cbn [flags set_flags].
  apply Z.setbit_eqb. pose proof (bit_range g). lia.
Qed.

Lemma flag_on_keeps (g f : Flag.t) (j : minijail) :
  flag j f = true -> flag (flag_on g j) f = true.
Proof. intros H. rewrite flag_flag_on, H. apply orb_true_r. Qed.

Lemma flag_on_sets (f : Flag.t) (j : minijail) : flag (flag_on f j) f = true.
Proof. rewrite flag_flag_on, Z.eqb_refl. reflexivity. Qed.

Lemma lor_range (a b n : Z) :
  0 <= n -> 0 <= a < 2 ^ n -> 0 <= b < 2 ^ n -> 0 <= Z.lor a b < 2 ^ n.
Proof.
  intros Hn Ha Hb. split.
  - apply Z.lor_nonneg. lia.
  - destruct (Z.eq_dec (Z.lor a b) 0) as [E|E].
    + rewrite E. apply Z.pow_pos_nonneg; lia.
    + assert (0 <= Z.lor a b) by (apply Z.lor_nonneg; lia).
      assert (0 < n).
      { destruct (Z.eq_dec n 0) as [->|]; [|lia].
        change (2 ^ 0) with 1 in *.
        assert (a = 0) by lia. assert (b = 0) by lia. subst.
        now elim E. }
      apply Z.log2_lt_pow2; [lia|].
      rewrite Z.log2_lor by lia.
      apply Z.max_lub_lt.
      * destruct (Z.eq_dec a 0) as [->|]; [simpl; lia|].
        apply Z.log2_lt_pow2; lia.
      * destruct (Z.eq_dec b 0) as [->|]; [simpl; lia|].
        apply Z.log2_lt_pow2; lia.
Qed.

Lemma flags_flag_on_range (f : Flag.t) (j : minijail) :
  0 <= flags j < 2 ^ 32 -> 0 <= flags (flag_on f j) < 2 ^ 32.
Proof.
  intros H. unfold flag_on. cbn [flags set_flags].
  unfold Z.setbit. apply lor_range; [lia|assumption|].
  pose proof (bit_range f). rewrite Z.shiftl_1_l. split.
  - apply Z.pow_nonneg. lia.
  - apply Z.pow_lt_mono_r; lia.
Qed.

(** * Inversion of the builder's calls *)

Ltac invert_step :=
  match goal with
  | H : Returns _ _ = Returns _ _ |- _ => inversion H; subst; clear H
  | H : Dies = Returns _ _ |- _ => discriminate H
  | H : ?lhs = Returns _ _ |- _ =>
      match lhs with
      | context [match ?x with _ => _ end] => destruct x eqn:?
      end
  | H : ?lhs = Returns _ _ |- _ => progress cbv beta in H
  | H : ?lhs = Returns _ _ |- _ =>
      progress unfold bind, ret, die, strdup, malloc in H
  end.


Ltac invert_returns H :=
  unfold bind, ret, die, strdup, malloc in H;
  repeat invert_step.

Ltac unfold_calls H :=
  unfold run_call, void, minijail_change_uid, minijail_change_gid,
    minijail_change_user, minijail_change_group, minijail_enter_chroot,
    minijail_chroot_chdir, minijail_bind, minijail_parse_seccomp_filters,
    minijail_meta_file, minijail_change_uid, minijail_change_gid in H.

Ltac unfold_setters :=
  unfold minijail_use_seccomp, minijail_no_new_privs,
    minijail_use_seccomp_filter, minijail_log_seccomp_filter_failures,
    minijail_use_caps, minijail_namespace_vfs, minijail_namespace_pids,
    minijail_namespace_net, minijail_remount_readonly,
    minijail_inherit_usergroups, minijail_disable_ptrace, minijail_mount_tmp,
    minijail_stack_limit, minijail_time_limit, minijail_output_limit,
    minijail_memory_limit.

(** * Monotonicity: no call clears a flag or removes a binding *)

Lemma flag_set_fields (f : Flag.t) (j : minijail) :
  (forall v, flag (set_uid v j) f = flag j f) /\
  (forall v, flag (set_gid v j) f = flag j f) /\
  (forall v, flag (set_usergid v j) f = flag j f) /\
  (forall v, flag (set_user v j) f = flag j f) /\
  (forall v, flag (set_caps v j) f = flag j f) /\
  (forall v, flag (set_filter_len v j) f = flag j f) /\
  (forall v, flag (set_binding_count v j) f = flag j f) /\
  (forall v, flag (set_chrootdir v j) f = flag j f) /\
  (forall v, flag (set_chdir v j) f = flag j f) /\
  (forall v, flag (set_filter_prog v j) f = flag j f) /\
  (forall v, flag (set_bindings v j) f = flag j f) /\
  (forall v, flag (set_meta_file v j) f = flag j f).
Proof. repeat split. Qed.

Ltac flag_simpl :=
  unfold_setters;
  repeat (rewrite ?flag_flag_on;
          cbn [flag flags set_uid set_gid set_usergid set_user set_caps
                 set_filter_len set_binding_count set_chrootdir set_chdir
                 set_filter_prog set_bindings set_meta_file set_stack_limit
                 set_time_limit set_memory_limit set_output_limit]);
  fold (flag).

Lemma run_call_keeps_flag (hst : host) (c : call) (j j' : minijail)
    (h h' : heap) (r : Z) (f : Flag.t) :
  run_call hst c j h = Returns (r, j') h' ->
  flag j f = true -> flag j' f = true.
Proof.
  intros H Hf.
  destruct c; unfold_calls H; invert_returns H; unfold_setters;
    repeat first [ assumption
                 | apply flag_on_keeps
                 | progress cbn [flag flags set_uid set_gid set_usergid
                      set_user set_caps set_filter_len set_binding_count
                      set_chrootdir set_chdir set_filter_prog set_bindings
                      set_meta_file set_stack_limit set_time_limit
                      set_memory_limit set_output_limit];
                   fold (flag) ].
Qed.

Lemma run_call_extends_bindings (hst : host) (c : call) (j j' : minijail)
    (h h' : heap) (r : Z) :
  run_call hst c j h = Returns (r, j') h' ->
  exists more, bindings j' = bindings j ++ more.
Proof.
  intros H.
  destruct c; unfold_calls H; invert_returns H; unfold_setters;
    cbn [bindings flag_on set_flags set_uid set_gid set_usergid set_user
           set_caps set_filter_len set_binding_count set_chrootdir set_chdir
           set_filter_prog set_bindings set_meta_file set_stack_limit
           set_time_limit set_memory_limit set_output_limit];
    solve [ exists []; now rewrite app_nil_r | eexists; reflexivity ].
Qed.

(** * The flag invariant *)

Lemma flag_invariant_zeroed : flag_invariant zeroed.
Proof.
  split; [discriminate|]. intros H. now elim H.
Qed.

Lemma run_call_flag_invariant (hst : host) (c : call) (j j' : minijail)
    (h h' : heap) (r : Z) :
  run_call hst c j h = Returns (r, j') h' ->
  flag_invariant j -> flag_invariant j'.
Proof.
  intros H [Hp Hb].
  assert (Hvfs : flag j Flag.vfs = true -> flag j' Flag.vfs = true)
    by (eapply run_call_keeps_flag; eassumption).
  assert (Hro : flag j Flag.readonly = true -> flag j' Flag.readonly = true)
    by (eapply run_call_keeps_flag; eassumption).
  assert (Hcases :
            (flag j' Flag.pids = flag j Flag.pids \/
             flag j' Flag.vfs = true /\ flag j' Flag.readonly = true) /\
            (bindings j' = bindings j \/ flag j' Flag.vfs = true)).
  { clear Hp Hb Hvfs Hro.
    destruct c; unfold_calls H; invert_returns H; unfold_setters;
      cbn [bindings set_uid set_gid set_usergid set_user
             set_caps set_filter_len set_binding_count set_chrootdir set_chdir
             set_filter_prog set_bindings set_meta_file set_stack_limit
             set_time_limit set_memory_limit set_output_limit];
      rewrite ?(proj1 (flag_set_fields _ _));
      repeat match goal with
             | |- context [flag (?s ?v ?x) ?f] =>
                 change (flag (s v x) f) with (flag x f)
             end;
      rewrite ?flag_flag_on; cbn [Flag.bit Z.eqb orb];
      try (split; [left; reflexivity | left; reflexivity]);
      try (split; [right; split; reflexivity | left; reflexivity]);
      try (split; [left; reflexivity | right; reflexivity]). }
  destruct Hcases as [[Ep|[V R]] [Eb|V']]; split; intros;
    try rewrite Ep in *; try rewrite Eb in *; tauto.
Qed.

Lemma run_calls_invariant (P : minijail -> Prop) (hst : host) :
  (forall c j j' h h' r,
      run_call hst c j h = Returns (r, j') h' -> P j -> P j') ->
  forall cs j j' h h',
    run_calls hst cs j h = Returns j' h' -> P j -> P j'.
Proof.
  intros Hstep cs. induction cs as [|c cs IH]; intros j j' h h' H Hj.
  - inversion H; subst. assumption.
  - cbn [run_calls] in H. apply bind_returns in H.
    destruct H as ([r j1] & h1 & H1 & H2). cbn [snd] in H2.
    eapply IH; [exact H2|]. eapply Hstep; eassumption.
Qed.

(** * Failure leaves the policy as it was *)




(** * Well-formedness of what the builder hands out *)

Lemma well_formed_zeroed : well_formed zeroed.
Proof.
  constructor; cbn; unfold u32_range, u64_range, int_range, INT_MIN, INT_MAX;
    try lia; try exact I; try constructor; try reflexivity.
  intros H. now elim H.
Qed.

Lemma well_formed_flag_on (f : Flag.t) (j : minijail) :
  well_formed j -> well_formed (flag_on f j).
Proof.
  intros []. constructor; try assumption.
  - now apply flags_flag_on_range.
  - intros H. apply flag_on_keeps. auto.
Qed.

Ltac wf_fields :=
  match goal with
  | Hwf : well_formed _ |- well_formed _ =>
      destruct Hwf; constructor;
      cbn [flags uid gid usergid user caps initpid filter_len binding_count
             chrootdir chdir filter_prog bindings stack_limit time_limit
             memory_limit output_limit meta_file
             set_uid set_gid set_usergid set_user set_caps set_filter_len
             set_binding_count set_chrootdir set_chdir set_filter_prog
             set_bindings set_meta_file set_stack_limit set_time_limit
             set_memory_limit set_output_limit opt_cstr_ok];
      try assumption
  end.

Lemma byte_eqb_eq (a b : byte) : Byte.eqb a b = true -> a = b.
Proof. apply Byte.byte_dec_bl. Qed.

Lemma wf_set_uid v j : u32_range v -> well_formed j -> well_formed (set_uid v j).
Proof. intros Hv Hwf. wf_fields. Qed.

Lemma wf_set_gid v j : u32_range v -> well_formed j -> well_formed (set_gid v j).
Proof. intros Hv Hwf. wf_fields. Qed.

Lemma wf_set_usergid v j :
  u32_range v -> well_formed j -> well_formed (set_usergid v j).
Proof. intros Hv Hwf. wf_fields. Qed.

Lemma wf_set_user v j :
  opt_cstr_ok v -> well_formed j -> well_formed (set_user v j).
Proof. intros Hv Hwf. wf_fields. Qed.

Lemma wf_set_caps v j : u64_range v -> well_formed j -> well_formed (set_caps v j).
Proof. intros Hv Hwf. wf_fields. Qed.

Lemma wf_set_chrootdir v j :
  opt_cstr_ok v -> well_formed j -> well_formed (set_chrootdir v j).
Proof. intros Hv Hwf. wf_fields. Qed.

Lemma wf_set_chdir v j :
  opt_cstr_ok v -> well_formed j -> well_formed (set_chdir v j).
Proof. intros Hv Hwf. wf_fields. Qed.

Lemma wf_set_stack_limit v j :
  int_range v -> well_formed j -> well_formed (set_stack_limit v j).
Proof. intros Hv Hwf. wf_fields. Qed.

Lemma wf_set_time_limit v j :
  int_range v -> well_formed j -> well_formed (set_time_limit v j).
Proof. intros Hv Hwf. wf_fields. Qed.

Lemma wf_set_memory_limit v j :
  int_range v -> well_formed j -> well_formed (set_memory_limit v j).
Proof. intros Hv Hwf. wf_fields. Qed.

Lemma wf_set_output_limit v j :
  int_range v -> well_formed j -> well_formed (set_output_limit v j).
Proof. intros Hv Hwf. wf_fields. Qed.

Lemma wf_set_meta_file v j : well_formed j -> well_formed (set_meta_file v j).
Proof. intros Hwf. wf_fields. Qed.

Lemma wf_set_initpid v j :
  int_range v -> well_formed j -> well_formed (set_initpid v j).
Proof. intros Hv Hwf. wf_fields. Qed.

Lemma wf_parse (fp : sock_fprog) (j : minijail) :
  sock_fprog_ok fp -> well_formed j ->
  well_formed (set_filter_prog (Some fp) (set_filter_len (len fp) j)).
Proof.
  intros Hfp Hwf. wf_fields.
  - destruct Hfp as (Hl & _). unfold int_range, INT_MIN, INT_MAX, USHRT_MAX in *.
    lia.
  - split; [reflexivity|assumption].
Qed.

Lemma wf_bind (s d : cstr) (w : Z) (j : minijail) :
  cstr_ok s -> cstr_ok d -> first_byte d = SLASH -> int_range w ->
  well_formed j ->
  well_formed
    (set_binding_count (binding_count j + 1)
       (set_bindings (bindings j ++ [Build_binding s d w])
          (flag_on Flag.vfs j))).
Proof.
  intros Hs Hd Hf Hw Hwf. apply (well_formed_flag_on Flag.vfs) in Hwf.
  revert Hwf. generalize (flag_on_sets Flag.vfs j).
  replace (bindings j) with (bindings (flag_on Flag.vfs j)) by reflexivity.
  replace (binding_count j) with (binding_count (flag_on Flag.vfs j))
    by reflexivity.
  generalize (flag_on Flag.vfs j). clear j. intros j Hvfs Hwf.
  wf_fields.
  - apply Forall_app. split; [assumption|].
    constructor; [|constructor]. unfold binding_ok.
    cbn [src dest writeable]. tauto.
  - rewrite length_app. cbn [List.length]. lia.
  - intros _. exact Hvfs.
Qed.

Lemma run_call_well_formed (hst : host) (c : call) (j j' : minijail)
    (h h' : heap) (r : Z) :
  host_ok hst -> call_ok c ->
  run_call hst c j h = Returns (r, j') h' ->
  well_formed j -> well_formed j'.
Proof.
  intros (Hpw & Hgr & Hcf) Hc H Hwf.
  destruct c; cbn [call_ok] in Hc; unfold_calls H; invert_returns H;
    unfold_setters;
    repeat match goal with
           | E : (if ?a then _ else _) = _ |- _ => destruct a; try discriminate E
           | E : Some _ = Some _ |- _ => inversion E; subst; clear E
           | E : getpwnam_r _ _ = Some _ |- _ => apply Hpw in E; destruct E
           | E : getgrnam_r _ _ = Some _ |- _ => apply Hgr in E
           | E : compile_filter _ _ _ = Some _ |- _ => apply Hcf in E
           | E : negb (Byte.eqb _ _) = false |- _ =>
               apply negb_false_iff, byte_eqb_eq in E
           | E : _ /\ _ |- _ => destruct E
           end;
    try assumption;
    repeat first [ assumption
                 | apply wf_bind
                 | apply wf_parse
                 | apply well_formed_flag_on
                 | apply wf_set_uid
                 | apply wf_set_gid
                 | apply wf_set_usergid
                 | apply wf_set_user
                 | apply wf_set_caps
                 | apply wf_set_chrootdir
                 | apply wf_set_chdir
                 | apply wf_set_stack_limit
                 | apply wf_set_time_limit
                 | apply wf_set_memory_limit
                 | apply wf_set_output_limit
                 | apply wf_set_meta_file
                 | exact I ].
Qed.

Lemma run_calls_well_formed (hst : host) (cs : list call) :
  host_ok hst -> Forall call_ok cs ->
  forall j j' h h',
    run_calls hst cs j h = Returns j' h' -> well_formed j -> well_formed j'.
Proof.
  intros Hh Hcs. induction Hcs as [|c cs Hc Hcs IH]; intros j j' h h' H Hj.
  - inversion H; subst. assumption.
  - cbn [run_calls] in H. apply bind_returns in H.
    destruct H as ([r j1] & h1 & H1 & H2). cbn [snd] in H2.
    eapply IH; [exact H2|]. eapply run_call_well_formed; eassumption.
Qed.

Lemma built_well_formed (hst : host) (cs : list call) (h : heap)
    (j : minijail) :
  host_ok hst -> Forall call_ok cs -> built_by hst cs h j -> well_formed j.
Proof.
  intros Hh Hcs [h' H].
  eapply run_calls_well_formed; eauto using well_formed_zeroed.
Qed.

(** * The marshaller: accounting and truncation *)

Lemma total_marshal_append (st : marshal_state) (src : list byte) (l : Z) :
  total (marshal_append st src l) = wrap 64 (total st + l).
Proof.
  unfold marshal_append.
  destruct (Z.min (available st) l =? 0); reflexivity.
Qed.

Lemma same_total_append (a b : marshal_state) (s1 s2 : list byte) (l : Z) :
  same_total a b -> same_total (marshal_append a s1 l) (marshal_append b s2 l).
Proof.
  unfold same_total. intros H. now rewrite !total_marshal_append, H.
Qed.

Lemma same_total_bindings (bs : list binding) (a b : marshal_state) :
  same_total a b ->
  same_total (fold_left marshal_binding bs a) (fold_left marshal_binding bs b).
Proof.
  revert a b. induction bs as [|x bs IH]; intros a b H; [exact H|].
  cbn [fold_left]. apply IH. unfold marshal_binding.
  repeat apply same_total_append. exact H.
Qed.

Lemma same_total_helper (j : minijail) (p : pointers) (a b : marshal_state) :
  same_total a b ->
  same_total (minijail_marshal_helper a j p) (minijail_marshal_helper b j p).
Proof.
  intros H. unfold minijail_marshal_helper.
  apply same_total_bindings.
  destruct (filter_prog j) as [fp|]; [destruct (flag j Flag.seccomp_filter)|];
    destruct (chdir j); destruct (chrootdir j); destruct (user j);
    repeat apply same_total_append; exact H.
Qed.

Lemma total_marshal (j : minijail) (p : pointers) (cap : Z) :
  total (minijail_marshal_helper (marshal_state_init cap) j p) =
  minijail_size j p.
Proof.
  unfold minijail_size. apply same_total_helper. reflexivity.
Qed.

Lemma tracks_init (cap : Z) : tracks cap [] (marshal_state_init cap).
Proof.
  unfold tracks, marshal_state_init. cbn. rewrite firstn_nil.
  repeat split. lia.
Qed.

Lemma wrap_add_l (a b : Z) : wrap 64 (wrap 64 a + b) = wrap 64 (a + b).
Proof. unfold wrap. now rewrite Zplus_mod_idemp_l. Qed.

Lemma tracks_append (cap : Z) (acc src : list byte) (st : marshal_state) :
  0 <= cap ->
  tracks cap acc st ->
  tracks cap (acc ++ src)
    (marshal_append st src (Z.of_nat (List.length src))).
Proof.
  intros Hcap (Hb & Ha & Ht).
  assert (Hlen : Z.of_nat (List.length (buf st)) =
                 Z.min cap (Z.of_nat (List.length acc))).
  { rewrite Hb, length_firstn. lia. }
  unfold tracks, marshal_append.
  set (L := Z.of_nat (List.length src)).
  destruct (Z.eqb_spec (Z.min (available st) L) 0) as [E|E];
    cbn [buf available total].
  - repeat split.
    + rewrite Hb, firstn_app.
      assert (Hz : firstn (Z.to_nat cap - List.length acc) src = []).
      { destruct (Z.eq_dec L 0) as [E0|E0].
        - destruct src; [now rewrite firstn_nil|]. cbn in L. lia.
        - replace (Z.to_nat cap - List.length acc)%nat with O by lia.
          reflexivity. }
      now rewrite Hz, app_nil_r.
    + exact Ha.
    + rewrite Ht, length_app, Nat2Z.inj_add. apply wrap_add_l.
  - assert (Hroom : Z.of_nat (List.length acc) < cap) by lia.
    assert (Hall : buf st = acc).
    { rewrite Hb. apply firstn_all2. lia. }
    repeat split.
    + rewrite Hall, firstn_app.
      rewrite (firstn_all2 (n := Z.to_nat cap) acc) by lia.
      f_equal.
      destruct (Z.le_ge_cases (available st) L) as [Hle|Hge].
      * rewrite Z.min_l by lia. f_equal. rewrite Ha, Hall. lia.
      * rewrite Z.min_r by lia. unfold L. rewrite Nat2Z.id.
        rewrite firstn_all. symmetry. apply firstn_all2.
        rewrite Ha, Hall in Hge. lia.
    + rewrite length_app, length_firstn, Nat2Z.inj_add.
      rewrite Ha, Hall in *. lia.
    + rewrite Ht, length_app, Nat2Z.inj_add. apply wrap_add_l.
Qed.

Lemma length_str_bytes (s : cstr) :
  Z.of_nat (List.length (str_bytes s)) = strlen s + 1.
Proof. unfold str_bytes, strlen. rewrite length_app. cbn. lia. Qed.

Lemma tracks_binding (cap : Z) (acc : list byte) (st : marshal_state)
    (b : binding) :
  0 <= cap -> tracks cap acc st ->
  tracks cap (acc ++ wire_binding b) (marshal_binding st b).
Proof.
  intros Hcap H. unfold marshal_binding, wire_binding.
  rewrite !app_assoc.
  rewrite <- !length_str_bytes.
  replace sizeof_int with (Z.of_nat (List.length (le_bytes 4 (writeable b))))
    by (now rewrite length_le_bytes).
  repeat apply tracks_append; assumption.
Qed.

Lemma tracks_bindings (cap : Z) (bs : list binding) (acc : list byte)
    (st : marshal_state) :
  0 <= cap -> tracks cap acc st ->
  tracks cap (acc ++ flat_map wire_binding bs) (fold_left marshal_binding bs st).
Proof.
  intros Hcap. revert acc st.
  induction bs as [|b bs IH]; intros acc st H; cbn [flat_map fold_left].
  - now rewrite app_nil_r.
  - rewrite app_assoc. apply IH. now apply tracks_binding.
Qed.

Lemma length_struct_bytes (j : minijail) (p : pointers) :
  Z.of_nat (List.length (struct_bytes j p)) = sizeof_minijail.
Proof.
  unfold struct_bytes. rewrite !length_app, !length_le_bytes. reflexivity.
Qed.

Lemma length_sock_filter_bytes (f : sock_filter) :
  List.length (sock_filter_bytes f) = 8%nat.
Proof.
  unfold sock_filter_bytes. rewrite !length_app, !length_le_bytes. reflexivity.
Qed.

Lemma length_filter_bytes (fs : list sock_filter) :
  Z.of_nat (List.length (filter_bytes fs)) =
  Z.of_nat (List.length fs) * sizeof_sock_filter.
Proof.
  unfold filter_bytes, sizeof_sock_filter.
  induction fs as [|f fs IH]; [reflexivity|].
  cbn [flat_map List.length]. rewrite length_app, length_sock_filter_bytes.
  lia.
Qed.

Lemma tracks_opt_string (cap : Z) (acc : list byte) (st : marshal_state)
    (o : option cstr) :
  0 <= cap -> tracks cap acc st ->
  tracks cap (acc ++ wire_opt_string o)
    match o with
    | Some s => marshal_append st (str_bytes s) (strlen s + 1)
    | None => st
    end.
Proof.
  intros Hcap H. destruct o as [s|]; cbn [wire_opt_string].
  - rewrite <- length_str_bytes. now apply tracks_append.
  - now rewrite app_nil_r.
Qed.

Lemma tracks_filter (cap : Z) (acc : list byte) (st : marshal_state)
    (j : minijail) :
  0 <= cap -> filter_counted j -> tracks cap acc st ->
  tracks cap (acc ++ wire_filter j)
    match filter_prog j with
    | Some fp =>
        if flag j Flag.seccomp_filter then
          marshal_append st (filter_bytes (filter fp))
            (len fp * sizeof_sock_filter)
        else st
    | None => st
    end.
Proof.
  intros Hcap Hf H. unfold wire_filter. unfold filter_counted in Hf.
  destruct (filter_prog j) as [fp|].
  - destruct (flag j Flag.seccomp_filter).
    + rewrite Hf, <- length_filter_bytes. now apply tracks_append.
    + now rewrite app_nil_r.
  - now rewrite app_nil_r.
Qed.

Lemma tracks_helper (cap : Z) (j : minijail) (p : pointers) :
  0 <= cap -> filter_counted j ->
  tracks cap (wire_format j p)
    (minijail_marshal_helper (marshal_state_init cap) j p).
Proof.
  intros Hcap Hf. unfold minijail_marshal_helper, wire_format.
  rewrite !app_assoc.
  apply tracks_bindings; [assumption|].
  apply tracks_filter; [assumption..|].
  repeat (apply tracks_opt_string; [assumption|]).
  rewrite <- (length_struct_bytes j p).
  apply (tracks_append cap [] (struct_bytes j p)); [assumption|].
  apply tracks_init.
Qed.

(** What [minijail_marshal] leaves in a buffer of [cap] bytes. *)
Lemma marshal_buffer (j : minijail) (p : pointers) (cap : Z) :
  0 <= cap -> filter_counted j ->
  snd (minijail_marshal j p cap) = firstn (Z.to_nat cap) (wire_format j p).
Proof.
  intros Hcap Hf. unfold minijail_marshal. cbn [snd].
  apply (tracks_helper cap j p Hcap Hf).
Qed.

Lemma minijail_size_wire (j : minijail) (p : pointers) :
  filter_counted j ->
  minijail_size j p = wrap 64 (Z.of_nat (List.length (wire_format j p))).
Proof.
  intros Hf. unfold minijail_size.
  apply (tracks_helper 0 j p (Z.le_refl 0) Hf).
Qed.

Lemma minijail_size_range (j : minijail) (p : pointers) :
  0 <= minijail_size j p < 2 ^ 64.
Proof.
  unfold minijail_size, minijail_marshal_helper.
  assert (H : forall bs st, 0 <= total st < 2 ^ 64 ->
                           0 <= total (fold_left marshal_binding bs st) < 2 ^ 64).
  { induction bs as [|b bs IH]; intros st Hst; [exact Hst|].
    cbn [fold_left]. apply IH. unfold marshal_binding.
    rewrite total_marshal_append. apply Z.mod_pos_bound. lia. }
  apply H.
  assert (H0 : forall st src l, 0 <= total (marshal_append st src l) < 2 ^ 64).
  { intros. rewrite total_marshal_append. apply Z.mod_pos_bound. lia. }
  destruct (filter_prog j) as [fp|]; [destruct (flag j Flag.seccomp_filter)|];
    destruct (chdir j); destruct (chrootdir j); destruct (user j);
    apply H0.
Qed.

Lemma marshal_code (j : minijail) (p : pointers) (cap : Z) :
  fst (minijail_marshal j p cap) = 0 <-> minijail_size j p <= cap.
Proof.
  unfold minijail_marshal. cbn [fst]. rewrite total_marshal.
  destruct (Z.gtb_spec (minijail_size j p) cap); split; intros; try lia;
    try discriminate; reflexivity.
Qed.

(** * The unmarshaller reads back what the marshaller wrote *)

Lemma represents_pointers_ok (p : pointers) (j : minijail) :
  represents p j -> pointers_ok p.
Proof.
  unfold represents, null_iff, pointers_ok, u64_range. tauto.
Qed.

Lemma mod_small_u32 (x : Z) : 0 <= x < 2 ^ 32 -> x mod 256 ^ Z.of_nat 4 = x.
Proof. intros H. apply Z.mod_small. exact H. Qed.

Lemma mod_small_u64 (x : Z) : 0 <= x < 2 ^ 64 -> x mod 256 ^ Z.of_nat 8 = x.
Proof. intros H. apply Z.mod_small. exact H. Qed.

Lemma struct_of_bytes_struct_bytes (j : minijail) (p : pointers) :
  well_formed j -> int_range (binding_count j) -> pointers_ok p ->
  struct_of_bytes (struct_bytes j p) = (stale j, p).
Proof.
  intros Hwf Hbc (P1 & P2 & P3 & P4 & P5 & P6 & P7).
  destruct Hwf.
  unfold struct_of_bytes, struct_bytes.
  repeat (rewrite take_le_app; cbv beta iota).
  replace (le_bytes 8 (meta_file_ptr p))
    with (le_bytes 8 (meta_file_ptr p) ++ []) by apply app_nil_r.
  rewrite take_le_app; cbv beta iota.
  unfold u32_range, u64_range in *.
  rewrite !mod_small_u32 by assumption.
  rewrite !mod_small_u64 by assumption.
  change (Z.of_nat 4) with 4.
  rewrite !signed_32_wrap by assumption.
  unfold stale. destruct p; reflexivity.
Qed.

Lemma strnlen_str (s : cstr) (rest : list byte) :
  cstr_ok s -> strnlen (s ++ NUL :: rest) = Z.of_nat (List.length s).
Proof.
  unfold cstr_ok. induction s as [|c s IH]; intros H.
  - reflexivity.
  - cbn [app strnlen List.length].
    destruct (Byte.eqb c NUL) eqn:E.
    + apply Byte.byte_dec_bl in E. subst. elim H. now left.
    + rewrite IH; [lia|]. intros Hin. apply H. now right.
Qed.

Lemma consumebytes_app (bs rest : list byte) :
  consumebytes (Z.of_nat (List.length bs)) (bs ++ rest) = Some (bs, rest).
Proof.
  unfold consumebytes. rewrite length_app.
  destruct (Z.gtb_spec (Z.of_nat (List.length bs))
              (Z.of_nat (List.length bs + List.length rest))); [lia|].
  rewrite Nat2Z.id, firstn_app, skipn_app, Nat.sub_diag, firstn_all,
    skipn_all. cbn. now rewrite app_nil_r.
Qed.

Lemma consumestr_str (s : cstr) (rest : list byte) :
  cstr_ok s -> consumestr (str_bytes s ++ rest) = Some (s, rest).
Proof.
  intros H. unfold consumestr, str_bytes. rewrite <- app_assoc. cbn [app].
  rewrite (strnlen_str s rest H).
  destruct (Z.eqb_spec (Z.of_nat (List.length s))
              (Z.of_nat (List.length (s ++ NUL :: rest)))) as [E|_].
  - rewrite length_app in E. cbn in E. lia.
  - replace (s ++ NUL :: rest) with ((s ++ [NUL]) ++ rest)
      by (now rewrite <- app_assoc).
    replace (Z.of_nat (List.length s) + 1)
      with (Z.of_nat (List.length (s ++ [NUL])))
      by (rewrite length_app; cbn; lia).
    rewrite consumebytes_app. rewrite Nat2Z.id.
    rewrite firstn_app, Nat.sub_diag, firstn_all. cbn. now rewrite app_nil_r.
Qed.

Lemma bind_eq {A B} (c : M A) (f : A -> M B) (h h1 : heap) (a : A) :
  c h = Returns a h1 -> bind c f h = f a h1.
Proof. unfold bind. now intros ->. Qed.

Lemma unmarshal_str_ok (ptr : Z) (o : option cstr) (rest : list byte)
    (h : heap) :
  null_iff ptr o -> opt_cstr_ok o -> plentiful h ->
  exists h',
    unmarshal_str ptr (wire_opt_string o ++ rest) h = Returns (Got o rest) h' /\
    plentiful h'.
Proof.
  intros (_ & Hn) Ho Hh. unfold unmarshal_str.
  destruct o as [s|]; cbn [wire_opt_string opt_cstr_ok] in *.
  - destruct (Z.eqb_spec ptr 0) as [E|_].
    + apply Hn in E. discriminate.
    + rewrite (consumestr_str s rest Ho).
      destruct (strdup_plentiful s h Hh) as (h' & E & P).
      rewrite (bind_eq _ _ _ _ _ E). exists h'. split; [reflexivity|exact P].
  - destruct (Z.eqb_spec ptr 0) as [_|E].
    + exists h. split; [reflexivity|exact Hh].
    + elim E. now apply Hn.
Qed.

Lemma sock_filters_of_bytes_filter_bytes (fs : list sock_filter) :
  Forall sock_filter_ok fs ->
  sock_filters_of_bytes (List.length fs) (filter_bytes fs) = fs.
Proof.
  induction 1 as [|f fs Hf Hfs IH]; [reflexivity|].
  cbn [List.length sock_filters_of_bytes filter_bytes flat_map].
  unfold sock_filter_bytes at 1. rewrite <- !app_assoc.
  repeat (rewrite take_le_app; cbv beta iota).
  fold (filter_bytes fs). rewrite IH.
  destruct Hf as (H1 & H2 & H3 & H4).
  rewrite !Z.mod_small by assumption.
  destruct f; reflexivity.
Qed.

Lemma flag_on_idem (f : Flag.t) (j : minijail) :
  flag j f = true -> flag_on f j = j.
Proof.
  unfold flag, flag_on. intros H.
  assert (E : Z.setbit (flags j) (Flag.bit f) = flags j).
  { apply Z.bits_inj'. intros n Hn.
    rewrite Z.setbit_eqb by (pose proof (bit_range f); lia).
    destruct (Z.eqb_spec (Flag.bit f) n) as [<-|]; [now rewrite H|reflexivity]. }
  rewrite E. destruct j; reflexivity.
Qed.

Lemma minijail_bind_ok (j : minijail) (s d : cstr) (w : Z) (h : heap) :
  first_byte d = SLASH -> flag j Flag.vfs = true -> plentiful h ->
  exists h',
    minijail_bind j s d w h =
    Returns (0, set_binding_count (binding_count j + 1)
                  (set_bindings (bindings j ++ [Build_binding s d w]) j)) h' /\
    plentiful h'.
Proof.
  intros Hd Hv Hh. unfold minijail_bind. rewrite Hd.
  change (negb (Byte.eqb SLASH SLASH)) with false. cbv iota.
  destruct (malloc_plentiful h Hh) as (h1 & E1 & P1).
  rewrite (bind_eq _ _ _ _ _ E1). cbn [negb].
  destruct (strdup_plentiful d h1 P1) as (h2 & E2 & P2).
  rewrite (bind_eq _ _ _ _ _ E2).
  destruct (strdup_plentiful s h2 P2) as (h3 & E3 & P3).
  rewrite (bind_eq _ _ _ _ _ E3).
  exists h3. split; [|exact P3].
  unfold minijail_namespace_vfs. rewrite (flag_on_idem _ _ Hv). reflexivity.
Qed.

Lemma unmarshal_bindings_ok (bs : list binding) :
  Forall binding_ok bs ->
  forall (j : minijail) (rest : list byte) (h : heap),
    (bs <> [] -> flag j Flag.vfs = true) -> plentiful h ->
    exists h',
      let j' :=
        set_binding_count (binding_count j + Z.of_nat (List.length bs))
          (set_bindings (bindings j ++ bs) j) in
      unmarshal_bindings (List.length bs) j
        (flat_map wire_binding bs ++ rest) h = Returns (Some j', j') h' /\
      plentiful h'.
Proof.
  induction 1 as [|b bs Hb Hbs IH]; intros j rest h Hv Hh.
  - exists h. cbn. split; [|exact Hh].
    rewrite app_nil_r, Z.add_0_r. destruct j; reflexivity.
  - destruct Hb as (Hs & Hd & Hf & Hw).
    assert (Hvfs : flag j Flag.vfs = true) by (apply Hv; discriminate).
    cbn [List.length unmarshal_bindings flat_map].
    unfold wire_binding at 1. rewrite <- !app_assoc.
    rewrite (consumestr_str _ _ Hs), (consumestr_str _ _ Hd).
    pose proof (consumebytes_app (le_bytes 4 (writeable b))
                  (flat_map wire_binding bs ++ rest)) as Hcb.
    rewrite length_le_bytes in Hcb. change (Z.of_nat 4) with sizeof_int in Hcb.
    rewrite Hcb.
    rewrite le_value_bytes. change (Z.of_nat 4) with 4.
    rewrite (signed_32_wrap _ Hw).
    destruct (minijail_bind_ok j (src b) (dest b) (writeable b) h Hf Hvfs Hh)
      as (h1 & E1 & P1).
    rewrite (bind_eq _ _ _ _ _ E1). cbn [fst snd Z.eqb].
    match goal with
    | |- context [unmarshal_bindings _ ?jx _] =>
        destruct (IH jx rest h1 (fun _ => Hvfs) P1) as (h2 & E2 & P2)
    end.
    exists h2. split; [|exact P2].
    cbv zeta in E2 |- *. rewrite E2.
    cbn [bindings binding_count set_binding_count set_bindings].
    rewrite <- app_assoc. cbn [app].
    replace (binding_count j + 1 + Z.of_nat (List.length bs))
      with (binding_count j + Z.of_nat (S (List.length bs))) by lia.
    destruct b; reflexivity.
Qed.

Lemma received_eq (j : minijail) (f : option sock_fprog) :
  binding_count j = Z.of_nat (List.length (bindings j)) ->
  f = (if flag j Flag.seccomp_filter && (filter_len j >? 0)
       then filter_prog j else None) ->
  set_binding_count (0 + Z.of_nat (List.length (bindings j)))
    (set_bindings ([] ++ bindings j)
       (set_binding_count 0
          (set_filter_prog f
             (set_chdir (chdir j)
                (set_chrootdir (chrootdir j) (set_user (user j) (stale j)))))))
  = received j.
Proof.
  intros Hc ->. unfold received, stale. destruct j. cbn in *.
  rewrite Hc. reflexivity.
Qed.

Theorem unmarshal_wire (j j0 : minijail) (p : pointers) (h : heap) :
  well_formed j -> int_range (binding_count j) -> represents p j ->
  plentiful h ->
  exists h',
    minijail_unmarshal j0 (wire_format j p) h = Returns (0, received j) h' /\
    plentiful h'.
Proof.
  intros Hwf Hbc Hrep Hh.
  pose proof (represents_pointers_ok p j Hrep) as Hp.
  destruct Hrep as (Ru & Rc & Rd & _).
  unfold minijail_unmarshal.
  assert (Hl : List.length (struct_bytes j p) = Z.to_nat sizeof_minijail).
  { pose proof (length_struct_bytes j p). lia. }
  unfold wire_format at 1.
  rewrite length_app.
  match goal with
  | |- context [Z.ltb ?a ?b] => destruct (Z.ltb_spec a b) as [Hlt|_]; [lia|]
  end.
  unfold wire_format.
  rewrite firstn_app, skipn_app, <- Hl, Nat.sub_diag, firstn_all, skipn_all.
  cbn [firstn skipn app]. rewrite app_nil_r.
  rewrite (struct_of_bytes_struct_bytes j p Hwf Hbc Hp).
  destruct (unmarshal_str_ok _ _
              (wire_opt_string (chrootdir j) ++ wire_opt_string (chdir j) ++
               wire_filter j ++ flat_map wire_binding (bindings j))
              h Ru (wf_user j Hwf) Hh) as (h1 & E1 & P1).
  rewrite (bind_eq _ _ _ _ _ E1).
  destruct (unmarshal_str_ok _ _
              (wire_opt_string (chdir j) ++
               wire_filter j ++ flat_map wire_binding (bindings j))
              h1 Rc (wf_chrootdir j Hwf) P1) as (h2 & E2 & P2).
  rewrite (bind_eq _ _ _ _ _ E2).
  destruct (unmarshal_str_ok _ _
              (wire_filter j ++ flat_map wire_binding (bindings j))
              h2 Rd (wf_chdir j Hwf) P2) as (h3 & E3 & P3).
  rewrite (bind_eq _ _ _ _ _ E3).
  change (flag (set_chdir (chdir j)
                  (set_chrootdir (chrootdir j) (set_user (user j) (stale j))))
            Flag.seccomp_filter) with (flag j Flag.seccomp_filter).
  change (filter_len (set_chdir (chdir j)
                  (set_chrootdir (chrootdir j) (set_user (user j) (stale j)))))
    with (filter_len j).
  (* the filter section *)
  assert (Hfil :
    exists h4,
      (if flag j Flag.seccomp_filter && (filter_len j >? 0)
       then
         if (filter_len j >? SIZE_MAX / sizeof_sock_filter)
            || (filter_len j >? USHRT_MAX)
         then ret None
         else
           match
             consumebytes (filter_len j * sizeof_sock_filter)
               (wire_filter j ++ flat_map wire_binding (bindings j))
           with
           | Some (program, cur) =>
               a <- malloc;;
               b <- malloc;;
               (if a && b
                then
                  ret (Some
                         (Some
                            {| len := filter_len j;
                               filter :=
                                 sock_filters_of_bytes
                                   (Z.to_nat (filter_len j)) program |},
                          cur))
                else die)
           | None => ret None
           end
       else
         ret (Some (None,
                    wire_filter j ++ flat_map wire_binding (bindings j)))) h3
      = Returns
          (Some (if flag j Flag.seccomp_filter && (filter_len j >? 0)
                 then filter_prog j else None,
                 flat_map wire_binding (bindings j))) h4 /\ plentiful h4).
  { pose proof (wf_filter_prog j Hwf) as Hfp. unfold wire_filter.
    destruct (filter_prog j) as [fp|].
    - destruct Hfp as (Hfl & (Hr & Hn & Hok)).
      destruct (flag j Flag.seccomp_filter); cbn [andb].
      + destruct (Z.gtb_spec (filter_len j) 0) as [Hpos|Hz].
        * unfold SIZE_MAX, sizeof_sock_filter.
          destruct (Z.gtb_spec (filter_len j) ((2 ^ 64 - 1) / 8)) as [Hbig|_].
          { change ((2 ^ 64 - 1) / 8) with 2305843009213693951 in Hbig.
            unfold USHRT_MAX in Hr. lia. }
          destruct (Z.gtb_spec (filter_len j) USHRT_MAX) as [Hbig|_]; [lia|].
          cbn [orb].
          pose proof (consumebytes_app (filter_bytes (filter fp))
                        (flat_map wire_binding (bindings j))) as Hcb.
          rewrite length_filter_bytes, <- Hn, <- Hfl in Hcb.
          unfold sizeof_sock_filter in Hcb. rewrite Hcb.
          destruct (malloc_plentiful h3 P3) as (h4 & E4 & P4).
          rewrite (bind_eq _ _ _ _ _ E4).
          destruct (malloc_plentiful h4 P4) as (h5 & E5 & P5).
          rewrite (bind_eq _ _ _ _ _ E5). cbn [andb].
          exists h5. split; [|exact P5]. unfold ret.
          rewrite Hfl, Hn, Nat2Z.id.
          rewrite (sock_filters_of_bytes_filter_bytes _ Hok).
          rewrite <- Hn. destruct fp; reflexivity.
        * assert (Hnil : filter fp = []).
          { destruct (filter fp); [reflexivity|]. cbn in Hn. lia. }
          rewrite Hnil. exists h3. split; [reflexivity|exact P3].
      + exists h3. split; [reflexivity|exact P3].
    - rewrite Hfp. rewrite andb_false_r.
      exists h3. split; [reflexivity|exact P3]. }
  destruct Hfil as (h4 & E4 & P4).
  rewrite (bind_eq _ _ _ _ _ E4).
  cbv beta iota.
  set (f := if flag j Flag.seccomp_filter && (filter_len j >? 0)
            then filter_prog j else None) in *.
  change (binding_count
            (set_filter_prog f
               (set_chdir (chdir j)
                  (set_chrootdir (chrootdir j)
                     (set_user (user j) (stale j))))))
    with (binding_count j).
  rewrite (wf_binding_count j Hwf), Nat2Z.id.
  rewrite <- (app_nil_r (flat_map wire_binding (bindings j))).
  match goal with
  | |- context [unmarshal_bindings _ ?jx _] =>
      destruct (unmarshal_bindings_ok (bindings j) (wf_bindings j Hwf) jx []
                  h4) as (h5 & E5 & P5);
        [ intros Hne; apply (wf_bindings_vfs j Hwf Hne) | exact P4 | ]
  end.
  cbv zeta in E5. rewrite (bind_eq _ _ _ _ _ E5). cbn [fst snd].
  exists h5. split; [|exact P5]. unfold ret. do 2 f_equal.
  cbn [bindings binding_count set_binding_count set_filter_prog set_chdir
         set_chrootdir set_user stale].
  apply (received_eq j f (wf_binding_count j Hwf) eq_refl).
Qed.

Lemma cstr_eqb_eq (a b : cstr) : cstr_eqb a b = true -> a = b.
Proof.
  revert b. induction a as [|x a IH]; intros [|y b] H; try discriminate H.
  - reflexivity.
  - cbn in H. apply andb_prop in H. destruct H as [H1 H2].
    apply Byte.byte_dec_bl in H1. apply IH in H2. congruence.
Qed.

Lemma one_instruction_ok : sock_fprog_ok one_instruction.
Proof.
  unfold sock_fprog_ok, one_instruction, USHRT_MAX. cbn.
  repeat split; try lia. constructor; [|constructor].
  unfold sock_filter_ok. cbn. lia.
Qed.

Lemma small_host_ok : host_ok small_host.
Proof.
  unfold host_ok. split; [|split].
  - intros name pw H. cbn in H.
    destruct (cstr_eqb _ _); inversion H; subst.
    unfold u32_range. cbn [pw_uid pw_gid]. change (2 ^ 32) with 4294967296.
    lia.
  - intros name g H. cbn in H.
    destruct (cstr_eqb _ _); inversion H; subst.
    unfold u32_range. change (2 ^ 32) with 4294967296. lia.
  - intros file log fp H. cbn in H. destruct (file =? 3); inversion H.
    apply one_instruction_ok.
Qed.

Lemma cstr_ok_dec (s : cstr) : forallb (fun b => negb (Byte.eqb b NUL)) s = true -> cstr_ok s.
Proof.
  unfold cstr_ok. induction s as [|c s IH]; intros H; [easy|].
  cbn in H. apply andb_prop in H. destruct H as [H1 H2].
  intros [E|I].
  - subst. discriminate H1.
  - now apply IH.
Qed.

Lemma full_calls_ok : Forall call_ok full_calls.
Proof.
  unfold full_calls.
  repeat constructor; cbn; unfold u32_range, int_range, INT_MIN, INT_MAX;
    change (2 ^ 32) with 4294967296;
    try lia; try (apply cstr_ok_dec; reflexivity).
Qed.

Lemma full_policy_built : built_by small_host full_calls [] full_policy.
Proof. exists []. vm_compute. reflexivity. Qed.

Lemma represents_full : represents full_pointers full_policy.
Proof.
  unfold represents, null_iff.
  repeat match goal with
         | |- _ /\ _ => split
         | |- _ <-> _ => split; intros H; vm_compute in H; discriminate H
         | |- _ <= _ => vm_compute; discriminate
         | |- _ < _ => vm_compute; reflexivity
         end.
Qed.

Lemma represents_parsed_only :
  represents parsed_only_pointers parsed_only_policy.
Proof.
  unfold represents, null_iff.
  repeat match goal with
         | |- _ /\ _ => split
         | |- _ <-> _ =>
             split; intros H; vm_compute in H |- *;
             first [ reflexivity | discriminate H ]
         | |- _ <= _ => vm_compute; discriminate
         | |- _ < _ => vm_compute; reflexivity
         end.
Qed.

Lemma well_formed_filter_counted (j : minijail) :
  well_formed j -> filter_counted j.
Proof.
  intros Hwf. pose proof (wf_filter_prog j Hwf) as H. unfold filter_counted.
  destruct (filter_prog j); [|exact I].
  destruct H as (_ & _ & H & _). exact H.
Qed.

Lemma marshal_exact (j : minijail) (p : pointers) :
  filter_counted j ->
  Z.of_nat (List.length (wire_format j p)) <= SIZE_MAX ->
  minijail_marshal j p (minijail_size j p) = (0, wire_format j p).
Proof.
  intros Hf Hfit.
  assert (Hsz : minijail_size j p = Z.of_nat (List.length (wire_format j p))).
  { rewrite (minijail_size_wire j p Hf). unfold wrap. apply Z.mod_small.
    unfold SIZE_MAX in Hfit. lia. }
  rewrite (surjective_pairing (minijail_marshal j p (minijail_size j p))).
  f_equal.
  - apply marshal_code. lia.
  - rewrite marshal_buffer by (assumption || lia).
    rewrite Hsz, Nat2Z.id. apply firstn_all.
Qed.

(** C1 (as amended): a policy issued by the builder, marshalled into a
    buffer of exactly [minijail_size] bytes and unmarshalled, comes back
    with its flag word, ids, capability mask, limits, the three optional
    strings, the filter length and the binding list in order; the filter
    program comes back only when [flags.seccomp_filter] is set and the
    program is not empty, and [meta_file] comes back null.  This is for a
    binding count that fits an [int], an image that fits a [size_t] and
    allocations that succeed. *)
Theorem marshal_unmarshal_round_trip
    (hst : host) (cs : list call) (h0 : heap) (j : minijail) (p : pointers)
    (j0 : minijail) (h : heap) :
  host_ok hst -> Forall call_ok cs -> built_by hst cs h0 j ->
  binding_count j <= INT_MAX ->
  Z.of_nat (List.length (wire_format j p)) <= SIZE_MAX ->
  represents p j -> plentiful h ->
  exists j' h',
    minijail_unmarshal j0
      (snd (minijail_marshal j p (minijail_size j p))) h = Returns (0, j') h' /\
    flags j' = flags j /\ uid j' = uid j /\ gid j' = gid j /\
    usergid j' = usergid j /\ caps j' = caps j /\ initpid j' = initpid j /\
    stack_limit j' = stack_limit j /\ time_limit j' = time_limit j /\
    memory_limit j' = memory_limit j /\ output_limit j' = output_limit j /\
    user j' = user j /\ chrootdir j' = chrootdir j /\ chdir j' = chdir j /\
    filter_len j' = filter_len j /\
    bindings j' = bindings j /\ binding_count j' = binding_count j /\
    filter_prog j' =
      (if flag j Flag.seccomp_filter && (filter_len j >? 0)
       then filter_prog j else None) /\
    meta_file j' = None.
Proof.
  intros Hh Hcs Hb Hbc Hfit Hrep Hp.
  pose proof (built_well_formed hst cs h0 j Hh Hcs Hb) as Hwf.
  assert (Hint : int_range (binding_count j)).
  { rewrite (wf_binding_count j Hwf) in *. unfold int_range, INT_MIN. lia. }
  rewrite (marshal_exact j p (well_formed_filter_counted j Hwf) Hfit).
  cbn [snd].
  destruct (unmarshal_wire j j0 p h Hwf Hint Hrep Hp) as (h' & E & _).
  exists (received j), h'. split; [exact E|].
  unfold received. cbn. repeat split; reflexivity.
Qed.

Lemma marshal_unmarshal_round_trip_witness :
  exists j' h',
    minijail_unmarshal zeroed
      (snd (minijail_marshal full_policy full_pointers
              (minijail_size full_policy full_pointers))) [] =
    Returns (0, j') h' /\
    flags j' = flags full_policy /\ uid j' = uid full_policy /\
    gid j' = gid full_policy /\ usergid j' = usergid full_policy /\
    caps j' = caps full_policy /\ initpid j' = initpid full_policy /\
    stack_limit j' = stack_limit full_policy /\
    time_limit j' = time_limit full_policy /\
    memory_limit j' = memory_limit full_policy /\
    output_limit j' = output_limit full_policy /\
    user j' = user full_policy /\ chrootdir j' = chrootdir full_policy /\
    chdir j' = chdir full_policy /\
    filter_len j' = filter_len full_policy /\
    bindings j' = bindings full_policy /\
    binding_count j' = binding_count full_policy /\
    filter_prog j' =
      (if flag full_policy Flag.seccomp_filter
          && (filter_len full_policy >? 0)
       then filter_prog full_policy else None) /\
    meta_file j' = None.
Proof.
  apply (marshal_unmarshal_round_trip small_host full_calls [] full_policy
           full_pointers zeroed []).
  - exact small_host_ok.
  - exact full_calls_ok.
  - exact full_policy_built.
  - vm_compute. discriminate.
  - vm_compute. discriminate.
  - exact represents_full.
  - constructor.
Defined.

(** C1, the claim as stated fails: a program that was compiled but not
    switched on is not carried over; the receiver holds the length and no
    instructions. *)
Lemma round_trip_drops_disabled_filter :
  built_by small_host parsed_only_calls [] parsed_only_policy /\
  represents parsed_only_pointers parsed_only_policy /\
  filter_prog parsed_only_policy = Some one_instruction /\
  ~ (exists j' h',
       minijail_unmarshal zeroed
         (snd (minijail_marshal parsed_only_policy parsed_only_pointers
                 (minijail_size parsed_only_policy parsed_only_pointers))) [] =
       Returns (0, j') h' /\
       filter_prog j' = filter_prog parsed_only_policy).
Proof.
  split; [exists []; vm_compute; reflexivity|].
  split; [exact represents_parsed_only|].
  split; [reflexivity|].
  intros (j' & h' & E & F).
  vm_compute in E. inversion E; subst. vm_compute in F. discriminate F.
Qed.

(** C5: for a policy whose serialization fits a [size_t] (and whose
    filter length counts its array), [minijail_size] is the length of the
    serialization, at least the 112 bytes of the struct; whatever the
    capacity, [minijail_marshal] returns 0 exactly when the capacity
    reaches [minijail_size] and 1 otherwise, its running total is the
    full size, and the buffer holds the first [cap] bytes of the
    serialization: all of it when there is room, exactly [cap] bytes when
    there is not.  A buffer of [minijail_size] bytes takes the whole
    serialization and reports no truncation; one of a byte less (in
    [size_t] arithmetic) takes all but the last byte and reports
    truncation. *)
Theorem marshal_size_agreement (j : minijail) (p : pointers) (cap : Z) :
  0 <= cap -> filter_counted j ->
  Z.of_nat (List.length (wire_format j p)) < 2 ^ 64 ->
  minijail_size j p = Z.of_nat (List.length (wire_format j p)) /\
  sizeof_minijail <= minijail_size j p /\
  (fst (minijail_marshal j p cap) = 0 <-> cap >= minijail_size j p) /\
  (cap < minijail_size j p -> fst (minijail_marshal j p cap) = 1) /\
  total (minijail_marshal_helper (marshal_state_init cap) j p) =
    minijail_size j p /\
  snd (minijail_marshal j p cap) = firstn (Z.to_nat cap) (wire_format j p) /\
  (cap < minijail_size j p ->
   Z.of_nat (List.length (snd (minijail_marshal j p cap))) = cap) /\
  (cap >= minijail_size j p ->
   snd (minijail_marshal j p cap) = wire_format j p) /\
  minijail_marshal j p (minijail_size j p) = (0, wire_format j p) /\
  minijail_marshal j p (wrap 64 (minijail_size j p - 1)) =
    (1, removelast (wire_format j p)).
Proof.
  intros Hcap Hf Hfit.
  assert (Hcode : forall c, fst (minijail_marshal j p c) = 0 \/
                            fst (minijail_marshal j p c) = 1).
  { intros c. unfold minijail_marshal. cbn [fst].
    destruct (_ >? _); [right|left]; reflexivity. }
  assert (Hsz : minijail_size j p = Z.of_nat (List.length (wire_format j p))).
  { rewrite (minijail_size_wire j p Hf). unfold wrap.
    apply Z.mod_small. lia. }
  assert (Hmin : sizeof_minijail <= minijail_size j p).
  { rewrite Hsz. unfold wire_format.
    rewrite length_app, Nat2Z.inj_add, length_struct_bytes. lia. }
  assert (Hone : forall c, c < minijail_size j p ->
                           fst (minijail_marshal j p c) = 1).
  { intros c Hc. destruct (Hcode c) as [E|E]; [|exact E].
    apply marshal_code in E. lia. }
  assert (Hless : wrap 64 (minijail_size j p - 1) = minijail_size j p - 1).
  { unfold wrap. apply Z.mod_small. unfold sizeof_minijail in Hmin. lia. }
  split; [exact Hsz|]. split; [exact Hmin|].
  split; [rewrite marshal_code; lia|].
  split; [apply Hone|].
  split; [apply total_marshal|].
  split; [now apply marshal_buffer|].
  split; [|split; [|split]].
  - intros Hlt. rewrite marshal_buffer by assumption.
    rewrite length_firstn. lia.
  - intros Hge. rewrite marshal_buffer by assumption.
    apply firstn_all2. lia.
  - rewrite (surjective_pairing (minijail_marshal j p (minijail_size j p))).
    f_equal.
    + apply marshal_code. lia.
    + rewrite marshal_buffer by (assumption || lia).
      apply firstn_all2. lia.
  - rewrite Hless.
    rewrite (surjective_pairing
               (minijail_marshal j p (minijail_size j p - 1))).
    f_equal.
    + apply Hone. lia.
    + unfold sizeof_minijail in Hmin.
      rewrite marshal_buffer by (assumption || lia).
      rewrite Hsz, removelast_firstn_len. f_equal. lia.
Qed.

Lemma marshal_size_agreement_witness :
  minijail_size full_policy full_pointers =
    Z.of_nat (List.length (wire_format full_policy full_pointers)) /\
  sizeof_minijail <= minijail_size full_policy full_pointers /\
  (fst (minijail_marshal full_policy full_pointers 100) = 0 <->
   100 >= minijail_size full_policy full_pointers) /\
  (100 < minijail_size full_policy full_pointers ->
   fst (minijail_marshal full_policy full_pointers 100) = 1) /\
  total (minijail_marshal_helper (marshal_state_init 100) full_policy
           full_pointers) =
    minijail_size full_policy full_pointers /\
  snd (minijail_marshal full_policy full_pointers 100) =
    firstn (Z.to_nat 100) (wire_format full_policy full_pointers) /\
  (100 < minijail_size full_policy full_pointers ->
   Z.of_nat
     (List.length (snd (minijail_marshal full_policy full_pointers 100))) =
   100) /\
  (100 >= minijail_size full_policy full_pointers ->
   snd (minijail_marshal full_policy full_pointers 100) =
   wire_format full_policy full_pointers) /\
  minijail_marshal full_policy full_pointers
    (minijail_size full_policy full_pointers) =
    (0, wire_format full_policy full_pointers) /\
  minijail_marshal full_policy full_pointers
    (wrap 64 (minijail_size full_policy full_pointers - 1)) =
    (1, removelast (wire_format full_policy full_pointers)).
Proof.
  apply (marshal_size_agreement full_policy full_pointers 100).
  - lia.
  - vm_compute. reflexivity.
  - vm_compute. reflexivity.
Defined.

(** * The pipe *)

Lemma from_fd_rejects_large (pipe : list byte) (j : minijail) (h : heap) :
  (8 <= List.length pipe)%nat ->
  USHRT_MAX < le_value (firstn 8 pipe) ->
  minijail_from_fd pipe j h = Returns (- E2BIG, j, skipn 8 pipe) h.
Proof.
  intros Hlen Hbig. unfold minijail_from_fd, read.
  change (Z.to_nat sizeof_size_t) with 8%nat.
  rewrite length_firstn, Nat.min_l by exact Hlen.
  change (negb (sizeof_size_t =? Z.of_nat 8)) with false. cbv iota.
  destruct (Z.gtb_spec (le_value (firstn 8 pipe)) USHRT_MAX); [reflexivity|lia].
Qed.

(** C10: a policy whose size exceeds [USHRT_MAX] is written to the pipe
    in full by [minijail_to_fd] (both writes complete, allocation
    succeeds), and [minijail_from_fd] turns the image down with [-E2BIG]:
    the object is untouched, nothing is allocated and the body stays
    unread.  Every announced size above [USHRT_MAX] is turned down this
    way. *)
Theorem pipe_size_cap (j : minijail) (p : pointers) (h : heap) :
  filter_counted j -> plentiful h -> USHRT_MAX < minijail_size j p ->
  let sz := minijail_size j p in
  let image := snd (minijail_marshal j p sz) in
  (exists h1,
     minijail_to_fd j p sizeof_size_t sz [] h =
     Returns (0, le_bytes 8 sz ++ image) h1) /\
  (forall j0 h2,
     minijail_from_fd (le_bytes 8 sz ++ image) j0 h2 =
     Returns (- E2BIG, j0, image) h2) /\
  (forall pipe j0 h2,
     (8 <= List.length pipe)%nat ->
     USHRT_MAX < le_value (firstn 8 pipe) ->
     minijail_from_fd pipe j0 h2 = Returns (- E2BIG, j0, skipn 8 pipe) h2).
Proof.
  intros Hf Hp Hbig sz image.
  pose proof (minijail_size_range j p) as Hr. fold sz in Hr.
  assert (Hcode : fst (minijail_marshal j p sz) = 0)
    by (apply marshal_code; unfold sz; lia).
  assert (Hlen : Z.of_nat (List.length image) <= sz).
  { unfold image. rewrite marshal_buffer by (assumption || lia).
    rewrite length_firstn. lia. }
  split; [|split].
  - unfold minijail_to_fd. fold sz.
    destruct (Z.eqb_spec sz 0) as [E|_]; [unfold USHRT_MAX in Hbig; lia|].
    destruct (malloc_plentiful h Hp) as (h1 & E1 & _).
    rewrite (bind_eq _ _ _ _ _ E1). cbn [negb].
    rewrite (surjective_pairing (minijail_marshal j p sz)).
    rewrite Hcode. fold image. cbn [Z.eqb negb].
    rewrite Z.eqb_refl. cbn [negb].
    destruct (Z.ltb_spec sz 0) as [E|_]; [lia|].
    rewrite Z.eqb_refl. cbn [negb orb].
    exists h1. unfold ret, write. do 2 f_equal.
    cbn [app]. change (Z.to_nat sizeof_size_t) with 8%nat.
    rewrite <- (length_le_bytes 8 sz) at 1. rewrite firstn_all.
    f_equal. apply firstn_all2. lia.
  - intros j0 h2.
    rewrite from_fd_rejects_large.
    + rewrite skipn_app, length_le_bytes, Nat.sub_diag.
      rewrite <- (length_le_bytes 8 sz) at 1. rewrite skipn_all. reflexivity.
    + rewrite length_app, length_le_bytes. lia.
    + rewrite firstn_app, length_le_bytes, Nat.sub_diag.
      rewrite <- (length_le_bytes 8 sz) at 1. rewrite firstn_all.
      cbn [firstn]. rewrite app_nil_r, le_value_bytes.
      change (256 ^ Z.of_nat 8) with (2 ^ 64). rewrite Z.mod_small; lia.
  - intros pipe j0 h2. apply from_fd_rejects_large.
Qed.

Lemma pipe_size_cap_witness :
  let sz := minijail_size long_filter_policy parsed_only_pointers in
  let image := snd (minijail_marshal long_filter_policy parsed_only_pointers sz)
  in
  (exists h1,
     minijail_to_fd long_filter_policy parsed_only_pointers sizeof_size_t sz
       [] [] =
     Returns (0, le_bytes 8 sz ++ image) h1) /\
  (forall j0 h2,
     minijail_from_fd (le_bytes 8 sz ++ image) j0 h2 =
     Returns (- E2BIG, j0, image) h2) /\
  (forall pipe j0 h2,
     (8 <= List.length pipe)%nat ->
     USHRT_MAX < le_value (firstn 8 pipe) ->
     minijail_from_fd pipe j0 h2 = Returns (- E2BIG, j0, skipn 8 pipe) h2).
Proof.
  apply (pipe_size_cap long_filter_policy parsed_only_pointers []).
  - vm_compute. reflexivity.
  - constructor.
  - vm_compute. reflexivity.
Defined.

(** The policy of the witness: 8178 instructions make an image of 65536
    bytes, which [minijail_unmarshal] itself reads back in full. *)
Lemma long_filter_unmarshals :
  built_by long_filter_host long_filter_calls [] long_filter_policy /\
  minijail_size long_filter_policy parsed_only_pointers = 65536 /\
  exists j',
    minijail_unmarshal zeroed
      (snd (minijail_marshal long_filter_policy parsed_only_pointers 65536))
      [] = Returns (0, j') [] /\
    filter_prog j' = Some long_filter.
Proof.
  split; [exists []; vm_compute; reflexivity|].
  split; [vm_compute; reflexivity|].
  eexists. split; vm_compute; reflexivity.
Qed.

Lemma namespace_pids_sets (j : minijail) :
  flag (minijail_namespace_pids j) Flag.pids = true /\
  flag (minijail_namespace_pids j) Flag.vfs = true /\
  flag (minijail_namespace_pids j) Flag.readonly = true.
Proof.
  unfold minijail_namespace_pids. repeat split;
    repeat first [ apply flag_on_sets | apply flag_on_keeps ].
Qed.

Lemma pids_after_namespace_pids (hst : host) (cs : list call) :
  forall j0 j h h',
    run_calls hst cs j0 h = Returns j h' ->
    In call_namespace_pids cs -> flag j Flag.pids = true.
Proof.
  induction cs as [|c cs IH]; intros j0 j h h' H Hin; [contradiction|].
  cbn [run_calls] in H. apply bind_returns in H.
  destruct H as ([r j1] & h1 & H1 & H2). cbn [snd] in H2.
  destruct Hin as [E|Hin]; [|now apply (IH j1 j h1 h')].
  subst c. cbn [run_call] in H1. unfold void, ret in H1.
  inversion H1; subst.
  eapply (run_calls_invariant (fun j => flag j Flag.pids = true) hst);
    [|exact H2|apply namespace_pids_sets].
  intros c j2 j3 h2 h3 r0 Hc. eapply run_call_keeps_flag; exact Hc.
Qed.

Lemma bind_appends (hst : host) (j j' : minijail) (src dest : cstr)
    (writeable : Z) (h h' : heap) :
  run_call hst (call_bind src dest writeable) j h = Returns (0, j') h' ->
  first_byte dest = SLASH /\
  bindings j' = bindings j ++ [Build_binding src dest writeable] /\
  flag j' Flag.vfs = true.
Proof.
  intros H. cbn [run_call] in H. unfold minijail_bind in H.
  destruct (Byte.eqb (first_byte dest) SLASH) eqn:Ed; cbn [negb] in H;
    [|unfold ret in H; inversion H].
  apply Byte.byte_dec_bl in Ed.
  invert_returns H;
    repeat match goal with
           | E : (if ?a then _ else _) = _ |- _ =>
               destruct a; try discriminate E; inversion E; subst; clear E
           end.
  all: repeat match goal with
              | E : Some _ = Some _ |- _ => inversion E; subst; clear E
              end.
  all: split; [exact Ed|]; split; [reflexivity|].
  all: unfold minijail_namespace_vfs;
    cbn [flag flags set_binding_count set_bindings];
    apply flag_on_sets.
Qed.

(** C4: after any sequence of builder calls on a fresh policy, [pids]
    set implies [vfs] and [readonly] set, and a non-empty binding list
    implies [vfs] set; a sequence that holds [minijail_namespace_pids]
    leaves all three flags set; no further builder call clears a flag or
    removes a binding; a further [minijail_namespace_pids] returns with
    [pids], [vfs] and [readonly] set; and a further [minijail_bind] that
    returns 0 has an absolute destination, has appended its binding at
    the end of the list and has set [vfs]. *)
Theorem builder_flag_invariant (hst : host) (cs : list call) (h : heap)
    (j : minijail) :
  built_by hst cs h j ->
  (flag j Flag.pids = true ->
   flag j Flag.vfs = true /\ flag j Flag.readonly = true) /\
  (bindings j <> [] -> flag j Flag.vfs = true) /\
  (In call_namespace_pids cs ->
   flag j Flag.pids = true /\ flag j Flag.vfs = true /\
   flag j Flag.readonly = true) /\
  (forall c r j' h1 h2,
     run_call hst c j h1 = Returns (r, j') h2 ->
     (forall f, flag j f = true -> flag j' f = true) /\
     (exists more, bindings j' = bindings j ++ more)) /\
  (forall h1,
     exists j',
       run_call hst call_namespace_pids j h1 = Returns (0, j') h1 /\
       flag j' Flag.pids = true /\ flag j' Flag.vfs = true /\
       flag j' Flag.readonly = true) /\
  (forall src dest writeable j' h1 h2,
     run_call hst (call_bind src dest writeable) j h1 = Returns (0, j') h2 ->
     first_byte dest = SLASH /\
     bindings j' = bindings j ++ [Build_binding src dest writeable] /\
     flag j' Flag.vfs = true).
Proof.
  intros [h' H].
  assert (Hinv : flag_invariant j).
  { eapply (run_calls_invariant flag_invariant hst); [|exact H|].
    - intros c j1 j2 h1 h2 r. apply run_call_flag_invariant.
    - exact flag_invariant_zeroed. }
  destruct Hinv as [Hp Hb].
  split; [exact Hp|]. split; [exact Hb|].
  split; [|split; [|split]].
  - intros Hin.
    assert (Hpids : flag j Flag.pids = true)
      by exact (pids_after_namespace_pids hst cs zeroed j h h' H Hin).
    destruct (Hp Hpids) as [Hv Hr]. now repeat split.
  - intros c r j' h1 h2 Hc. split.
    + intros f. eapply run_call_keeps_flag; eassumption.
    + eapply run_call_extends_bindings; eassumption.
  - intros h1. exists (minijail_namespace_pids j).
    split; [reflexivity|apply namespace_pids_sets].
  - intros src dest writeable j' h1 h2. apply bind_appends.
Qed.

Lemma builder_flag_invariant_witness :
  (flag full_policy Flag.pids = true ->
   flag full_policy Flag.vfs = true /\ flag full_policy Flag.readonly = true) /\
  (bindings full_policy <> [] -> flag full_policy Flag.vfs = true) /\
  (In call_namespace_pids full_calls ->
   flag full_policy Flag.pids = true /\ flag full_policy Flag.vfs = true /\
   flag full_policy Flag.readonly = true) /\
  (forall c r j' h1 h2,
     run_call small_host c full_policy h1 = Returns (r, j') h2 ->
     (forall f, flag full_policy f = true -> flag j' f = true) /\
     (exists more, bindings j' = bindings full_policy ++ more)) /\
  (forall h1,
     exists j',
       run_call small_host call_namespace_pids full_policy h1 =
       Returns (0, j') h1 /\
       flag j' Flag.pids = true /\ flag j' Flag.vfs = true /\
       flag j' Flag.readonly = true) /\
  (forall src dest writeable j' h1 h2,
     run_call small_host (call_bind src dest writeable) full_policy h1 =
     Returns (0, j') h2 ->
     first_byte dest = SLASH /\
     bindings j' = bindings full_policy ++ [Build_binding src dest writeable] /\
     flag j' Flag.vfs = true).
Proof.
  apply (builder_flag_invariant small_host full_calls [] full_policy).
  exact full_policy_built.
Defined.






(** * What a computation adds to the trace *)

Section Emission.

Context {P Q : syscall -> Prop}.

Lemma emits_ret {A} (a : A) : emits P (sys_ret a).
Proof. intros kn t. exists []. cbn. now rewrite app_nil_r. Qed.

Lemma emits_die {A} : emits P (@sys_die A).
Proof. intros kn t. exists []. cbn. now rewrite app_nil_r. Qed.

Lemma emits_last_cap : emits P last_cap.
Proof.
  intros kn t. exists []. unfold last_cap.
  destruct (cap_last_cap kn); cbn; now rewrite app_nil_r.
Qed.

Lemma emits_sys (c : syscall) : P c -> emits P (sys c).
Proof. intros H kn t. exists [c]. cbn. split; [reflexivity|]. now constructor. Qed.

Lemma emits_bind {A B} (c : Sys A) (f : A -> Sys B) :
  emits P c -> (forall a, emits P (f a)) -> emits P (sys_bind c f).
Proof.
  intros Hc Hf kn t. unfold sys_bind.
  destruct (Hc kn t) as (tr & E & F).
  destruct (c kn t) as [[a|] t']; cbn [snd] in E; subst t'.
  - destruct (Hf a kn (t ++ tr)) as (tr' & E' & F').
    exists (tr ++ tr'). rewrite E', app_assoc. split; [reflexivity|].
    apply Forall_app. now split.
  - exists tr. now split.
Qed.

Lemma emits_must (c : syscall) : P c -> emits P (must c).
Proof.
  intros H. unfold must. apply emits_bind; [now apply emits_sys|].
  intros r. destruct (r =? 0); [apply emits_ret|apply emits_die].
Qed.

Lemma emits_when (b : bool) (c : Sys unit) : emits P c -> emits P (when b c).
Proof. intros H. destruct b; [exact H|apply emits_ret]. Qed.

Lemma emits_must_succeed (c : Sys Z) : emits P c -> emits P (must_succeed c).
Proof.
  intros H. unfold must_succeed. apply emits_bind; [exact H|].
  intros r. destruct (r =? 0); [apply emits_ret|apply emits_die].
Qed.

Lemma splits_emits_l {A} (c : Sys A) : emits P c -> splits P Q c.
Proof.
  intros H kn t. destruct (H kn t) as (tr & E & F).
  exists tr, []. rewrite app_nil_r. repeat split; auto.
Qed.

Lemma splits_emits_r {A} (c : Sys A) : emits Q c -> splits P Q c.
Proof.
  intros H kn t. destruct (H kn t) as (tr & E & F).
  exists [], tr. repeat split; auto.
Qed.

Lemma splits_bind_l {A B} (c : Sys A) (f : A -> Sys B) :
  emits P c -> (forall a, splits P Q (f a)) -> splits P Q (sys_bind c f).
Proof.
  intros Hc Hf kn t. unfold sys_bind.
  destruct (Hc kn t) as (tr & E & F).
  destruct (c kn t) as [[a|] t']; cbn [snd] in E; subst t'.
  - destruct (Hf a kn (t ++ tr)) as (x & y & E' & Fx & Fy).
    exists (tr ++ x), y. rewrite E', <- !app_assoc.
    repeat split; auto. apply Forall_app. now split.
  - exists tr, []. rewrite app_nil_r. repeat split; auto.
Qed.

Lemma splits_bind_r {A B} (c : Sys A) (f : A -> Sys B) :
  splits P Q c -> (forall a, emits Q (f a)) -> splits P Q (sys_bind c f).
Proof.
  intros Hc Hf kn t. unfold sys_bind.
  destruct (Hc kn t) as (x & y & E & Fx & Fy).
  destruct (c kn t) as [[a|] t']; cbn [snd] in E; subst t'.
  - destruct (Hf a kn (t ++ x ++ y)) as (tr & E' & F').
    exists x, (y ++ tr). rewrite E', <- !app_assoc.
    repeat split; auto. apply Forall_app. now split.
  - exists x, y. repeat split; auto.
Qed.

End Emission.

Ltac emit_step :=
  match goal with
  | |- emits _ mount_tmp => unfold mount_tmp
  | |- emits _ (sys_ret _) => apply emits_ret
  | |- emits _ sys_die => apply emits_die
  | |- emits _ last_cap => apply emits_last_cap
  | |- emits _ (sys _) => apply emits_sys; try reflexivity
  | |- emits _ (must _) => apply emits_must; try reflexivity
  | |- emits _ (when _ _) => apply emits_when
  | |- emits _ (must_succeed _) => apply emits_must_succeed
  | |- emits _ (sys_bind _ _) => apply emits_bind; [|intros]
  | |- emits _ (if ?b then _ else _) => destruct b
  | |- emits _ (match ?x with _ => _ end) => destruct x
  end.

Ltac emit := repeat emit_step.

(** * The helpers of [minijail_enter] *)

Lemma emits_bind_one (P : syscall -> Prop) (j : minijail) (next : list binding)
    (b : binding) :
  (forall c, identity_call c || capability_call c || filter_install c = false ->
             P c) ->
  emits P (bind_one j b next).
Proof.
  intros HP. revert b. induction next as [|b' next IH]; intros b;
    cbn [bind_one]; emit; try (apply HP; reflexivity); try apply IH.
Qed.

Lemma emits_enter_chroot (P : syscall -> Prop) (j : minijail) :
  (forall c, identity_call c || capability_call c || filter_install c = false ->
             P c) ->
  emits P (enter_chroot j).
Proof.
  intros HP. unfold enter_chroot.
  apply emits_bind.
  - destruct (bindings j); [apply emits_ret|now apply emits_bind_one].
  - intros r. emit; apply HP; reflexivity.
Qed.

Lemma emits_remount_readonly (P : syscall -> Prop) (j : minijail) :
  (forall c, identity_call c || capability_call c || filter_install c = false ->
             P c) ->
  emits P (remount_readonly j).
Proof.
  intros HP. unfold remount_readonly. emit; apply HP; reflexivity.
Qed.

Lemma emits_drop_ugid (j : minijail) : emits no_install (drop_ugid j).
Proof. unfold drop_ugid. emit. Qed.

Lemma emits_drop_bounding (j : minijail) (idx : list Z) :
  emits no_install (drop_bounding j idx).
Proof.
  induction idx as [|i idx IH]; cbn [drop_bounding]; emit. exact IH.
Qed.

Lemma emits_drop_caps (j : minijail) : emits no_install (drop_caps j).
Proof.
  unfold drop_caps, cap_set_proc. emit. apply emits_drop_bounding.
Qed.

Lemma emits_set_seccomp_filter (j : minijail) :
  emits no_drop (set_seccomp_filter j).
Proof. unfold set_seccomp_filter. emit. Qed.

Lemma neither_no_install (c : syscall) :
  identity_call c || capability_call c || filter_install c = false ->
  no_install c.
Proof. unfold no_install. intros H. now apply orb_false_iff in H. Qed.

Lemma neither_no_drop (c : syscall) :
  identity_call c || capability_call c || filter_install c = false ->
  no_drop c.
Proof. unfold no_drop. intros H. now apply orb_false_iff in H. Qed.

(** With [no_new_privs] the trace is calls that install no filter, then
    calls that drop nothing. *)
Lemma enter_splits_nnp (j : minijail) :
  flag j Flag.no_new_privs = true ->
  splits no_install no_drop (minijail_enter j).
Proof.
  intros Hn. unfold minijail_enter. rewrite Hn.
  destruct (flag j Flag.pids); [apply splits_emits_l, emits_die|].
  destruct (_ && _); [apply splits_emits_l, emits_die|].
  repeat (apply splits_bind_l;
          [solve [emit;
                  first [ apply emits_enter_chroot, neither_no_install
                        | apply emits_remount_readonly, neither_no_install ]]
          |intros _]).
  apply splits_bind_r; [|intros _; emit].
  apply splits_bind_l; [apply emits_drop_ugid|intros _].
  apply splits_bind_l; [apply emits_when, emits_drop_caps|intros _].
  apply splits_emits_r, emits_set_seccomp_filter.
Qed.

(** Without it the trace is calls that drop nothing, then calls that
    install no filter. *)
Lemma enter_splits_plain (j : minijail) :
  flag j Flag.no_new_privs = false ->
  splits no_drop no_install (minijail_enter j).
Proof.
  intros Hn. unfold minijail_enter. rewrite Hn.
  destruct (flag j Flag.pids); [apply splits_emits_l, emits_die|].
  destruct (_ && _); [apply splits_emits_l, emits_die|].
  repeat (apply splits_bind_l;
          [solve [emit;
                  first [ apply emits_enter_chroot, neither_no_drop
                        | apply emits_remount_readonly, neither_no_drop ]]
          |intros _]).
  apply splits_bind_r; [|intros _; emit].
  apply splits_bind_l; [apply emits_set_seccomp_filter|intros _].
  apply splits_emits_r.
  apply emits_bind; [apply emits_drop_ugid|intros _].
  apply emits_when, emits_drop_caps.
Qed.

Lemma split_order (P Q : syscall -> Prop) (a b : list syscall)
    (x y : syscall) (i k : nat) :
  Forall P a -> Forall Q b ->
  nth_error (a ++ b) i = Some x -> nth_error (a ++ b) k = Some y ->
  ~ Q x -> ~ P y -> (i < k)%nat.
Proof.
  intros Fa Fb Hi Hk Hx Hy.
  destruct (Nat.lt_ge_cases i (List.length a)) as [Hia|Hia].
  - destruct (Nat.lt_ge_cases k (List.length a)) as [Hka|Hka]; [|lia].
    rewrite nth_error_app1 in Hk by assumption.
    apply nth_error_In in Hk. rewrite Forall_forall in Fa.
    elim Hy. now apply Fa.
  - rewrite nth_error_app2 in Hi by assumption.
    apply nth_error_In in Hi. rewrite Forall_forall in Fb.
    elim Hx. now apply Fb.
Qed.

(** C3: in the trace of [minijail_enter], when [flags.no_new_privs] is
    set every identity-changing call and every capability-reducing call
    comes strictly before the installation of the filter, and when it is
    clear the installation comes strictly before them. *)
Theorem no_new_privs_ordering (j : minijail) (kn : kernel) (i k : nat)
    (a b : syscall) :
  nth_error (enter_trace j kn) i = Some a ->
  nth_error (enter_trace j kn) k = Some b ->
  identity_call a || capability_call a = true ->
  filter_install b = true ->
  if flag j Flag.no_new_privs then (i < k)%nat else (k < i)%nat.
Proof.
  unfold enter_trace. intros Hi Hk Ha Hb.
  destruct (flag j Flag.no_new_privs) eqn:Hn.
  - destruct (enter_splits_nnp j Hn kn []) as (x & y & E & Fx & Fy).
    rewrite E in Hi, Hk. cbn [app] in Hi, Hk.
    apply (split_order no_install no_drop x y a b i k Fx Fy Hi Hk).
    + unfold no_drop. rewrite Ha. discriminate.
    + unfold no_install. rewrite Hb. discriminate.
  - destruct (enter_splits_plain j Hn kn []) as (x & y & E & Fx & Fy).
    rewrite E in Hi, Hk. cbn [app] in Hi, Hk.
    apply (split_order no_drop no_install x y b a k i Fx Fy Hk Hi).
    + unfold no_install. rewrite Hb. discriminate.
    + unfold no_drop. rewrite Ha. discriminate.
Qed.

Lemma no_new_privs_ordering_witness :
  (if flag dropping_policy_nnp Flag.no_new_privs then (4 < 46)%nat
   else (46 < 4)%nat) /\
  (if flag dropping_policy Flag.no_new_privs then (45 < 2)%nat
   else (2 < 45)%nat).
Proof.
  split.
  - apply (no_new_privs_ordering dropping_policy_nnp willing_kernel 4 46
             (setresuid 1000 1000 1000)
             (prctl_filter (Some one_instruction)));
      vm_compute; reflexivity.
  - apply (no_new_privs_ordering dropping_policy willing_kernel 45 2
             (capset 1024 1024 1024)
             (prctl_filter (Some one_instruction)));
      vm_compute; reflexivity.
Defined.

(** * Wait statuses *)

Lemma forall_range (P : Z -> bool) (lo : Z) (n : nat) :
  forallb P (map (fun i => lo + Z.of_nat i) (seq 0 n)) = true ->
  forall z, lo <= z < lo + Z.of_nat n -> P z = true.
Proof.
  intros H z Hz. rewrite forallb_forall in H. apply H.
  apply in_map_iff. exists (Z.to_nat (z - lo)). split; [lia|].
  apply in_seq. lia.
Qed.

(** C2: [minijail_wait] returns [n] for a child that exited with status
    [n], [128 + s] for one ended by a signal [s] other than [SIGSYS], and
    [MINIJAIL_ERR_JAIL] for one ended by [SIGSYS]. *)
Theorem wait_exit_code_mapping (MINIJAIL_ERR_JAIL : Z) :
  (forall n, 0 <= n <= 255 ->
     minijail_wait MINIJAIL_ERR_JAIL (inr (status_exited n)) = n) /\
  (forall s core, 1 <= s <= 126 -> s <> SIGSYS ->
     minijail_wait MINIJAIL_ERR_JAIL (inr (status_signaled s core)) =
     128 + s) /\
  (forall core,
     minijail_wait MINIJAIL_ERR_JAIL (inr (status_signaled SIGSYS core)) =
     MINIJAIL_ERR_JAIL).
Proof.
  split; [|split].
  - intros n Hn. apply Z.eqb_eq.
    apply (forall_range
             (fun n => minijail_wait MINIJAIL_ERR_JAIL (inr (status_exited n))
                       =? n) 0 256); [vm_compute; reflexivity|lia].
  - intros s core Hs Hsys.
    assert (H : (s =? SIGSYS)
                || (minijail_wait MINIJAIL_ERR_JAIL
                      (inr (status_signaled s core)) =? 128 + s) = true).
    { apply (forall_range
               (fun s => (s =? SIGSYS)
                         || (minijail_wait MINIJAIL_ERR_JAIL
                               (inr (status_signaled s core)) =? 128 + s))
               1 126); [destruct core; vm_compute; reflexivity|lia]. }
    apply orb_true_iff in H. destruct H as [H|H]; apply Z.eqb_eq in H;
      [contradiction|exact H].
  - intros [|]; reflexivity.
Qed.

Lemma wait_exit_code_mapping_witness :
  minijail_wait 253 (inr (status_exited 3)) = 3 /\
  minijail_wait 253 (inr (status_signaled 9 false)) = 128 + 9 /\
  minijail_wait 253 (inr (status_signaled SIGSYS true)) = 253.
Proof.
  destruct (wait_exit_code_mapping 253) as (He & Hs & Hj).
  split; [|split].
  - apply He. lia.
  - apply Hs; [lia|discriminate].
  - apply Hj.
Defined.

(** * The arithmetic of the time limit *)

Lemma ceil_div_1000 (t : Z) : ceil_div t 1000 = (t + 999) / 1000.
Proof.
  unfold ceil_div.
  pose proof (Z.div_mod (- t) 1000 ltac:(lia)) as H1.
  pose proof (Z.mod_pos_bound (- t) 1000 ltac:(lia)) as H2.
  pose proof (Z.div_mod (t + 999) 1000 ltac:(lia)) as H3.
  pose proof (Z.mod_pos_bound (t + 999) 1000 ltac:(lia)) as H4.
  lia.
Qed.

Lemma c_div_nonneg (a : Z) : 0 <= a -> c_div a 1000 = a / 1000.
Proof. intros H. unfold c_div. apply Z.quot_div_nonneg; lia. Qed.

Lemma signed_32_small (x : Z) : 0 <= x <= INT_MAX -> signed 32 x = x.
Proof.
  unfold INT_MAX, signed, wrap. intros H.
  change (2 ^ 32) with 4294967296. change (2 ^ (32 - 1)) with 2147483648.
  rewrite Z.mod_small by lia.
  destruct (Z.ltb_spec x 2147483648); lia.
Qed.

Lemma wrap_small (bits x : Z) : 0 <= x < 2 ^ bits -> wrap bits x = x.
Proof. intros H. unfold wrap. now apply Z.mod_small. Qed.

Lemma alarm_seconds (t : Z) :
  0 <= t <= INT_MAX - 1999 ->
  wrap 32 (c_div (signed 32 (t + 1999)) 1000) = ceil_div t 1000 + 1.
Proof.
  unfold INT_MAX. intros H.
  rewrite signed_32_small by (unfold INT_MAX; lia).
  rewrite c_div_nonneg by lia. rewrite ceil_div_1000.
  replace (t + 1999) with (t + 999 + 1 * 1000) by lia.
  rewrite Z.div_add by lia.
  apply wrap_small.
  pose proof (Z.div_le_upper_bound (t + 999) 1000 2147483647 ltac:(lia)
                ltac:(lia)).
  pose proof (Z.div_pos (t + 999) 1000 ltac:(lia) ltac:(lia)).
  change (2 ^ 32) with 4294967296. lia.
Qed.

Lemma rlimit_seconds (t : Z) :
  0 <= t <= INT_MAX - 999 ->
  wrap 64 (c_div (signed 32 (999 + t)) 1000) = ceil_div t 1000 /\
  wrap 64 (ceil_div t 1000 + 1) = ceil_div t 1000 + 1.
Proof.
  unfold INT_MAX. intros H.
  rewrite signed_32_small by (unfold INT_MAX; lia).
  rewrite c_div_nonneg by lia. rewrite ceil_div_1000.
  replace (999 + t) with (t + 999) by lia.
  pose proof (Z.div_le_upper_bound (t + 999) 1000 2147483647 ltac:(lia)
                ltac:(lia)).
  pose proof (Z.div_pos (t + 999) 1000 ltac:(lia) ltac:(lia)).
  split; apply wrap_small; change (2 ^ 64) with 18446744073709551616; lia.
Qed.

Lemma ualarm_usecs (t : Z) :
  0 <= t <= 2147483 -> wrap 32 (signed 32 (t * 1000)) = t * 1000.
Proof.
  intros H. rewrite signed_32_small by (unfold INT_MAX; lia).
  apply wrap_small. change (2 ^ 32) with 4294967296. lia.
Qed.

(** * The trace of [setup_limits] *)

Lemma ends_with_limit (tail : list syscall) (c : syscall) (k : Sys Z) :
  ends_with tail k ->
  ends_with tail
    (r <- sys c ;; if negb (r =? 0) then sys_ret (-1) else k)%sys.
Proof.
  intros Hk kn t. unfold sys_bind, sys. cbn [fst snd].
  destruct (answer kn t c =? 0); cbn [negb].
  - intros H. destruct (Hk kn (t ++ [c]) H) as (pre & E).
    exists (c :: pre). rewrite E, <- app_assoc. reflexivity.
  - cbn. discriminate.
Qed.

Lemma ends_with_time (j : minijail) :
  flag j Flag.time_limit = true ->
  ends_with
    [setrlimit RLIMIT_CPU
       (wrap 64 (c_div (signed 32 (999 + time_limit j)) 1000))
       (wrap 64 (wrap 64 (c_div (signed 32 (999 + time_limit j)) 1000) + 1));
     ualarm (wrap 32 (signed 32 (time_limit j * 1000))) 0]
    (setup_limits j).
Proof.
  intros Ht. unfold setup_limits. cbv beta zeta. rewrite Ht.
  destruct (flag j Flag.memory_limit); [apply ends_with_limit|];
    (destruct (flag j Flag.output_limit); [do 2 apply ends_with_limit|]);
    (destruct (flag j Flag.stack_limit); [apply ends_with_limit|]).
  all: intros kn t; unfold sys_bind, sys, sys_ret; cbn [fst snd];
    (destruct (answer kn t _ =? 0); cbn [negb fst snd];
     [intros _; exists []; rewrite <- app_assoc; reflexivity|discriminate]).
Qed.

Lemma init_prologue_trace (j : minijail) (rootpid : Z) (kn : kernel) :
  flag j Flag.time_limit = true ->
  exists pre,
    snd (init_prologue j rootpid kn []) =
    pre ++ [signal SIGALRM handle_timeout;
            alarm (wrap 32 (c_div (signed 32 (time_limit j + 1999)) 1000));
            signal SIGTERM handle_init_term].
Proof.
  intros Ht. unfold init_prologue. rewrite Ht.
  destruct (flag j Flag.meta_file).
  - exists [clock_gettime]. reflexivity.
  - exists []. reflexivity.
Qed.

(** C8 (as amended): with [flags.time_limit] set and a limit of [t]
    milliseconds, [0 <= t], the supervisor arms [alarm] for
    [ceil(t/1000) + 1] seconds, which is the integer quotient
    [(t + 1999) / 1000] (for [t <= INT_MAX - 1999]); a [setup_limits]
    that returns 0 has last set [RLIMIT_CPU] to a soft limit of
    [ceil(t/1000)] seconds and a hard limit one second above (for
    [t <= INT_MAX - 999]) and then armed [ualarm] with interval 0, for
    [t * 1000] microseconds when [t <= 2147483]. *)
Theorem time_limit_arming (j : minijail) (rootpid : Z) (kn : kernel) :
  flag j Flag.time_limit = true -> 0 <= time_limit j ->
  let t := time_limit j in
  let soft := ceil_div t 1000 in
  (t <= INT_MAX - 1999 ->
   soft + 1 = (t + 1999) / 1000 /\
   exists pre,
     snd (init_prologue j rootpid kn []) =
     pre ++ [signal SIGALRM handle_timeout; alarm (soft + 1);
             signal SIGTERM handle_init_term]) /\
  (t <= INT_MAX - 999 -> fst (setup_limits j kn []) = Some 0 ->
   exists pre usecs,
     snd (setup_limits j kn []) =
     pre ++ [setrlimit RLIMIT_CPU soft (soft + 1); ualarm usecs 0] /\
     (t <= 2147483 -> usecs = t * 1000)).
Proof.
  intros Ht H0 t soft. split.
  - intros Hmax. split.
    + unfold soft. rewrite ceil_div_1000.
      replace (t + 1999) with (t + 999 + 1 * 1000) by lia.
      rewrite Z.div_add by lia. reflexivity.
    + destruct (init_prologue_trace j rootpid kn Ht) as (pre & E).
      exists pre. rewrite E. fold t.
      rewrite (alarm_seconds t) by lia. reflexivity.
  - intros Hmax Hret.
    destruct (ends_with_time j Ht kn [] Hret) as (pre & E).
    exists pre, (wrap 32 (signed 32 (t * 1000))). split.
    + rewrite E. cbn [app]. fold t.
      destruct (rlimit_seconds t ltac:(lia)) as (E1 & E2).
      rewrite E1, E2. reflexivity.
    + intros Hu. apply ualarm_usecs. lia.
Qed.

Lemma time_limit_arming_witness :
  (1000 <= INT_MAX - 1999 ->
   ceil_div 1000 1000 + 1 = (1000 + 1999) / 1000 /\
   exists pre,
     snd (init_prologue one_second_policy 2 willing_kernel []) =
     pre ++ [signal SIGALRM handle_timeout; alarm (ceil_div 1000 1000 + 1);
             signal SIGTERM handle_init_term]) /\
  (1000 <= INT_MAX - 999 ->
   fst (setup_limits one_second_policy willing_kernel []) = Some 0 ->
   exists pre usecs,
     snd (setup_limits one_second_policy willing_kernel []) =
     pre ++ [setrlimit RLIMIT_CPU (ceil_div 1000 1000)
               (ceil_div 1000 1000 + 1);
             ualarm usecs 0] /\
     (1000 <= 2147483 -> usecs = 1000 * 1000)).
Proof.
  apply (time_limit_arming one_second_policy 2 willing_kernel).
  - reflexivity.
  - vm_compute. discriminate.
Defined.

(** C8, the claim as stated fails: for a limit of 1000 ms the alarm is
    armed for 2 seconds, and the ceiling of 2999/1000 is 3. *)
Lemma alarm_is_not_the_described_ceiling :
  flag one_second_policy Flag.time_limit = true /\
  time_limit one_second_policy = 1000 /\
  snd (init_prologue one_second_policy 2 willing_kernel []) =
    [signal SIGALRM handle_timeout; alarm 2; signal SIGTERM handle_init_term] /\
  described_alarm 1000 = 3 /\
  ~ In (alarm (described_alarm (time_limit one_second_policy)))
       (snd (init_prologue one_second_policy 2 willing_kernel [])).
Proof.
  repeat split; try reflexivity.
  vm_compute. intros [H|[H|[H|[]]]]; discriminate H.
Qed.

(** * The resolver's recursion *)

Lemma get_path_more_fuel (fsys : filesystem) (j : minijail) (fuel : nat) :
  forall buffer path r,
    minijail_get_path fuel fsys j buffer path = Some r ->
    forall extra,
      minijail_get_path (fuel + extra) fsys j buffer path = Some r.
Proof.
  induction fuel as [|fuel IH]; intros buffer path r H extra.
  - discriminate H.
  - cbn [minijail_get_path Nat.add] in *.
    destruct (get_path_step fsys j buffer path) as [r'|b l].
    + exact H.
    + now apply IH.
Qed.

Lemma get_path_follows (fsys : filesystem) (j : minijail) (n : nat)
    (buffer : list byte) (path : cstr) (buffer' : list byte) :
  follows fsys j n buffer path buffer' ->
  minijail_get_path (S n) fsys j buffer path = Some (Resolved 0 buffer').
Proof.
  induction 1 as [buffer path buffer' H|n buffer path b1 target buffer' H _ IH].
  - cbn [minijail_get_path]. now rewrite H.
  - cbn [minijail_get_path] in *. now rewrite H.
Qed.

Lemma get_path_fuel_irrelevant (fsys : filesystem) (j : minijail)
    (f1 f2 : nat) (buffer : list byte) (path : cstr) (r1 r2 : resolved) :
  minijail_get_path f1 fsys j buffer path = Some r1 ->
  minijail_get_path f2 fsys j buffer path = Some r2 -> r1 = r2.
Proof.
  intros H1 H2.
  apply (get_path_more_fuel _ _ _ _ _ _) with (extra := f2) in H1.
  apply (get_path_more_fuel _ _ _ _ _ _) with (extra := f1) in H2.
  rewrite Nat.add_comm in H2. congruence.
Qed.


Lemma get_path_deep (fsys : filesystem) (j : minijail) (n : nat)
    (buffer : list byte) (path : cstr) (buffer' : list byte) :
  follows fsys j n buffer path buffer' ->
  forall fuel, (n < fuel)%nat ->
    minijail_get_path fuel fsys j buffer path = Some (Resolved 0 buffer').
Proof.
  intros H fuel Hf. replace fuel with (S n + (fuel - S n))%nat by lia.
  apply get_path_more_fuel. now apply get_path_follows.
Qed.


(** C6, the code at the claim's input: with [/x] bound on [/a] and [/y]
    on [/a/b], the longest destination is chosen, but the buffer ends up
    holding "/y//cc" for "/a/b/c" (a doubled separator and a stale last
    byte) and "/x//d" for "/a/d". *)
Lemma get_path_nested_bindings :
  built_by small_host nested_calls [] nested_policy /\
  (exists buffer,
     minijail_get_path 1 all_regular nested_policy path_buffer
       (cs "/a/b/c") = Some (Resolved 0 buffer) /\
     c_string buffer = cs "/y//cc") /\
  (exists buffer,
     minijail_get_path 1 all_regular nested_policy path_buffer
       (cs "/a/d") = Some (Resolved 0 buffer) /\
     c_string buffer = cs "/x//d").
Proof.
  split; [exists []; vm_compute; reflexivity|].
  split; eexists; split; vm_compute; reflexivity.
Qed.

(** * Arrays *)

Lemma write_at_nothing (m : list byte) : write_at m 0 [] = m.
Proof. destruct m; reflexivity. Qed.

Lemma write_at_whole (m bs : list byte) :
  List.length bs = List.length m -> write_at m 0 bs = bs.
Proof.
  revert bs. induction m as [|x m IH]; intros [|b bs] H; try discriminate H.
  - reflexivity.
  - cbn [write_at]. f_equal. apply IH. now inversion H.
Qed.

Lemma write_at_same_prefix (m : list byte) (c : nat) :
  write_at m 0 (firstn c m) = m.
Proof.
  revert c. induction m as [|x m IH]; intros c; [reflexivity|].
  destruct c as [|c]; [reflexivity|].
  cbn [firstn write_at]. f_equal. apply IH.
Qed.

Lemma write_at_same (m : list byte) (off c : nat) :
  write_at m off (firstn c (skipn off m)) = m.
Proof.
  revert m. induction off as [|off IH]; intros m.
  - cbn [skipn]. apply write_at_same_prefix.
  - destruct m as [|x m]; [reflexivity|].
    cbn [skipn write_at]. f_equal. apply IH.
Qed.

Lemma array_strlen_padded (s : cstr) (rest : list byte) :
  cstr_ok s -> array_strlen (s ++ NUL :: rest) = List.length s.
Proof.
  unfold cstr_ok. induction s as [|c s IH]; intros H; [reflexivity|].
  cbn [app array_strlen List.length].
  destruct (Byte.eqb c NUL) eqn:E.
  - apply Byte.byte_dec_bl in E. subst. elim H. now left.
  - f_equal. apply IH. intros Hin. apply H. now right.
Qed.

Lemma c_string_padded (s : cstr) (rest : list byte) :
  cstr_ok s -> c_string (s ++ NUL :: rest) = s.
Proof.
  intros H. unfold c_string. rewrite (array_strlen_padded s rest H).
  rewrite firstn_app, Nat.sub_diag, firstn_all. cbn. apply app_nil_r.
Qed.

Lemma padded_shape (size : nat) (s : cstr) :
  (List.length s < size)%nat ->
  padded size s = s ++ NUL :: repeat NUL (size - List.length s - 1).
Proof.
  intros H. unfold padded.
  destruct (size - List.length s)%nat as [|n] eqn:E; [lia|].
  replace (S n - 1)%nat with n by lia. reflexivity.
Qed.

Lemma wrap_small_64 (x : Z) : 0 <= x < 2 ^ 64 -> wrap 64 x = x.
Proof. intros H. unfold wrap. now apply Z.mod_small. Qed.

Lemma length_padded (size : nat) (s : cstr) :
  (List.length s <= size)%nat -> List.length (padded size s) = size.
Proof.
  intros H. unfold padded. rewrite length_app, repeat_length. lia.
Qed.

(** * One pass of the resolver outside any jail *)

Lemma concat_path_empty (rest : list byte) (size : nat) (p : cstr) :
  List.length (NUL :: rest) = size -> Z.of_nat size < 2 ^ 64 ->
  (List.length p < size)%nat ->
  concat_path (NUL :: rest) (Z.of_nat size) (Some p) = (0, padded size p).
Proof.
  intros Hlen Hsize Hfit. unfold concat_path.
  change (array_strlen (NUL :: rest)) with O.
  change (Z.of_nat 0 =? 0) with true. cbn [negb andb].
  unfold strlen. change (Z.of_nat 0) with 0.
  rewrite Z.add_0_l, Z.sub_0_r.
  rewrite (wrap_small_64 (Z.of_nat (List.length p))) by lia.
  rewrite (wrap_small_64 (Z.of_nat size)) by lia.
  destruct (Z.geb_spec (Z.of_nat (List.length p)) (Z.of_nat size)); [lia|].
  rewrite Nat2Z.id. change (Z.to_nat 0) with O.
  unfold strncpy_bytes. rewrite firstn_all2 by lia.
  fold (padded size p). f_equal.
  apply write_at_whole. rewrite length_padded by lia. symmetry. exact Hlen.
Qed.

Lemma replace_prefix_unjailed (j : minijail) (size : nat) (p : cstr) :
  unjailed j -> Z.of_nat size < 2 ^ 64 -> absolute_in size p ->
  replace_prefix j (padded size p) (Z.of_nat size) =
  Resolved 0 (padded size p).
Proof.
  intros (Hb & Hc) Hsize (Hok & Habs & Hfit).
  unfold replace_prefix. rewrite Hb. cbn [longest_match]. rewrite Hc.
  change (strlen (cs "/")) with 1.
  change (1 =? 0) with false. cbv iota.
  change (Byte.eqb (byte_at (cs "/") (1 - 1)) SLASH) with true. cbv iota.
  change (1 - 1) with 0.
  assert (Hs : array_strlen (padded size p) = List.length p).
  { rewrite padded_shape by lia. now apply array_strlen_padded. }
  rewrite Hs.
  set (len := Z.of_nat (List.length p)).
  assert (Hl : 1 <= len).
  { unfold len. destruct p; [discriminate Habs|]. cbn [List.length]. lia. }
  assert (Hl2 : len + 2 <= Z.of_nat size) by (unfold len; lia).
  rewrite (wrap_small_64 (len - 1 + 0 + 2)) by lia.
  destruct (Z.geb_spec (len - 1 + 0 + 2) (Z.of_nat size)); [lia|].
  rewrite (wrap_small_64 (len - 1)) by lia.
  destruct (Z.gtb_spec (0 + 1 + (len - 1)) (Z.of_nat size)); [lia|].
  destruct (Z.gtb_spec (1 + (len - 1)) (Z.of_nat size)); [lia|].
  cbn [orb].
  change (Z.to_nat (0 + 1)) with 1%nat. change (Z.to_nat 1) with 1%nat.
  rewrite write_at_same.
  change (Z.to_nat 0) with O. cbn [firstn]. rewrite write_at_nothing.
  f_equal. destruct p as [|c p]; [discriminate Habs|].
  cbn [first_byte hd] in Habs. subst c.
  unfold padded. cbn [app write_at]. now rewrite write_at_nothing.
Qed.

Lemma get_path_step_unjailed (fsys : filesystem) (j : minijail) (size : nat)
    (buffer : list byte) (p : cstr) :
  unjailed j -> Z.of_nat size < 2 ^ 64 ->
  List.length buffer = size -> absolute_in size p ->
  get_path_step fsys j buffer p = classify fsys (padded size p).
Proof.
  intros Hj Hsize Hlen Hp.
  pose proof Hp as (Hok & Habs & Hfit).
  destruct buffer as [|b0 buffer]; [cbn in Hlen; lia|].
  unfold get_path_step. rewrite Hlen.
  change (write_at (b0 :: buffer) 0 [NUL])
    with (NUL :: write_at buffer 0 []).
  rewrite write_at_nothing.
  unfold anchor. rewrite Habs.
  change (negb (Byte.eqb SLASH SLASH)) with false. cbv iota.
  change (array_strlen (NUL :: buffer)) with O.
  change (Z.of_nat 0) with 0. rewrite Z.sub_0_r.
  rewrite (wrap_small_64 (Z.of_nat size)) by lia.
  rewrite (concat_path_empty buffer size p) by (assumption || lia).
  change (negb (0 =? 0)) with false. cbv iota.
  rewrite (replace_prefix_unjailed j size p Hj Hsize Hp).
  reflexivity.
Qed.

Lemma classify_padded (fsys : filesystem) (size : nat) (p : cstr) :
  cstr_ok p -> (List.length p < size)%nat ->
  classify fsys (padded size p) =
  match lstat fsys p with
  | None => Stop (Resolved 1 (padded size p))
  | Some S_IFREG => Stop (Resolved 0 (padded size p))
  | Some S_IFOTHER => Stop (Resolved 1 (padded size p))
  | Some S_IFLNK =>
      match readlink fsys p with
      | None => Stop (Resolved 1 (padded size p))
      | Some target =>
          Follow (padded size p)
            (c_string (firstn (Z.to_nat PATH_MAX) target ++ [NUL]))
      end
  end.
Proof.
  intros Hok Hfit. unfold classify.
  assert (Hstr : c_string (padded size p) = p).
  { rewrite padded_shape by lia. now apply c_string_padded. }
  rewrite Hstr. reflexivity.
Qed.

(** Outside any jail the resolver walks the links of the file system. *)
Lemma follows_leads_to (fsys : filesystem) (j : minijail) (size n : nat)
    (p last : cstr) :
  unjailed j -> Z.of_nat size < 2 ^ 64 ->
  leads_to fsys size n p last ->
  forall buffer,
    List.length buffer = size ->
    follows fsys j n buffer p (padded size last).
Proof.
  intros Hj Hsize H.
  induction H as [p Hp Hreg|n p q last Hp Hlnk Hread Hq Hsub IH];
    intros buffer Hlen.
  - apply follows_file.
    rewrite (get_path_step_unjailed fsys j size buffer p Hj Hsize Hlen Hp).
    destruct Hp as (Hok & _ & Hfit).
    rewrite classify_padded by (assumption || lia). now rewrite Hreg.
  - assert (Hqok : cstr_ok q).
    { inversion Hsub; subst;
        match goal with A : absolute_in _ _ |- _ => apply A end. }
    apply (follows_link fsys j n buffer p (padded size p) q).
    + rewrite (get_path_step_unjailed fsys j size buffer p Hj Hsize Hlen Hp).
      destruct Hp as (Hok & _ & Hfit).
      rewrite classify_padded by (assumption || lia).
      rewrite Hlnk, Hread. f_equal.
      rewrite firstn_all2 by exact Hq.
      apply (c_string_padded q [] Hqok).
    + apply IH. apply length_padded. destruct Hp as (_ & _ & Hfit). lia.
Qed.

(** * Chains and cycles of links *)









(** Outside any jail, a chain of [n] links of the file system that ends
    in the regular file [last] is resolved to [last] by [n + 1] nested
    calls, whatever the array held before. *)
Theorem resolver_walks_link_chain (fsys : filesystem) (j : minijail)
    (size n : nat) (p last : cstr) (buffer : list byte) :
  unjailed j -> Z.of_nat size < 2 ^ 64 -> List.length buffer = size ->
  leads_to fsys size n p last ->
  exists buffer',
    c_string buffer' = last /\
    forall fuel, (n < fuel)%nat ->
      minijail_get_path fuel fsys j buffer p = Some (Resolved 0 buffer').
Proof.
  intros Hj Hsize Hlen H.
  exists (padded size last). split.
  - assert (Hl : absolute_in size last)
      by (induction H; assumption).
    destruct Hl as (Hok & _ & Hfit).
    rewrite padded_shape by lia. now apply c_string_padded.
  - apply get_path_deep.
    now apply (follows_leads_to fsys j size n p last Hj Hsize H).
Qed.

Lemma absolute_in_dec (size : nat) (p : cstr) :
  forallb (fun b => negb (Byte.eqb b NUL)) p = true ->
  first_byte p = SLASH -> (List.length p + 2 <= size)%nat ->
  absolute_in size p.
Proof.
  intros H1 H2 H3. split; [|split; assumption]. now apply cstr_ok_dec.
Qed.

Lemma two_links_lead_to_file :
  leads_to two_links (Z.to_nat (PATH_MAX + 1)) 2 (cs "/bin/sh")
    (cs "/bin/dash.real").
Proof.
  apply (leads_link _ _ 1 _ (cs "/bin/dash")).
  - apply absolute_in_dec; [reflexivity|reflexivity|].
    apply Nat.leb_le. vm_compute. reflexivity.
  - reflexivity.
  - reflexivity.
  - apply Nat.leb_le. vm_compute. reflexivity.
  - apply (leads_link _ _ 0 _ (cs "/bin/dash.real")).
    + apply absolute_in_dec; [reflexivity|reflexivity|].
      apply Nat.leb_le. vm_compute. reflexivity.
    + reflexivity.
    + reflexivity.
    + apply Nat.leb_le. vm_compute. reflexivity.
    + apply leads_file; [|reflexivity].
      apply absolute_in_dec; [reflexivity|reflexivity|].
      apply Nat.leb_le. vm_compute. reflexivity.
Qed.

Lemma resolver_walks_link_chain_witness :
  exists buffer',
    c_string buffer' = cs "/bin/dash.real" /\
    forall fuel, (2 < fuel)%nat ->
      minijail_get_path fuel two_links zeroed path_buffer (cs "/bin/sh") =
      Some (Resolved 0 buffer').
Proof.
  apply (resolver_walks_link_chain two_links zeroed (Z.to_nat (PATH_MAX + 1))
           2 (cs "/bin/sh") (cs "/bin/dash.real") path_buffer).
  - split; reflexivity.
  - vm_compute. reflexivity.
  - apply repeat_length.
  - exact two_links_lead_to_file.
Defined.



(** * The longest match *)

Lemma strncmp_eq_prefix (a b : cstr) :
  strncmp_eq a b = true <-> exists rest, b = a ++ rest.
Proof.
  revert b. induction a as [|x a IH]; intros b.
  - split; [intros _; now exists b|reflexivity].
  - destruct b as [|y b]; cbn [strncmp_eq].
    + split; [discriminate|]. intros [rest H]. discriminate H.
    + rewrite andb_true_iff, IH. split.
      * intros [E [rest ->]]. apply Byte.byte_dec_bl in E. subst.
        now exists rest.
      * intros [rest H]. inversion H; subst. split.
        -- apply Byte.byte_dec_lb. reflexivity.
        -- now exists rest.
Qed.

Lemma longest_match_acc (bs : list binding) (buffer : list byte)
    (best : option binding) (best_len : Z) :
  let matches b := strncmp_eq (dest b) (c_string buffer) = true in
  match best with
  | Some b => matches b /\ best_len = strlen (dest b)
  | None => best_len = 0
  end ->
  let '(found, len) := longest_match bs buffer best best_len in
  best_len <= len /\
  match found with
  | Some b =>
      (best = Some b \/ In b bs) /\ matches b /\ len = strlen (dest b)
  | None => best = None /\ len = 0
  end /\
  (forall b, In b bs -> matches b -> strlen (dest b) <= len).
Proof.
  intros matches. revert best best_len.
  induction bs as [|cur bs IH]; intros best best_len Hacc.
  - cbn [longest_match]. split; [lia|]. split.
    + destruct best as [b|]; [|now split].
      destruct Hacc. repeat split; auto.
    + intros b [].
  - cbn [longest_match].
    destruct (strncmp_eq (dest cur) (c_string buffer)) eqn:Em; cbn [andb].
    + destruct (Z.gtb_spec (strlen (dest cur)) best_len) as [Hgt|Hle].
      * specialize (IH (Some cur) (strlen (dest cur)) (conj Em eq_refl)).
        destruct (longest_match bs buffer (Some cur) (strlen (dest cur)))
          as [found len].
        destruct IH as (Hlen & Hfound & Hmax).
        split; [lia|]. split.
        -- destruct found as [b|]; [|destruct Hfound; discriminate].
           destruct Hfound as ([E|I] & Hm & Hl).
           ++ inversion E; subst. repeat split; auto. right. now left.
           ++ repeat split; auto. right. now right.
        -- intros b [<-|I] Hm; [lia|]. now apply Hmax.
      * specialize (IH best best_len Hacc).
        destruct (longest_match bs buffer best best_len) as [found len].
        destruct IH as (Hlen & Hfound & Hmax).
        split; [lia|]. split.
        -- destruct found as [b|]; [|exact Hfound].
           destruct Hfound as ([E|I] & Hm & Hl); repeat split; auto.
           right. now right.
        -- intros b [<-|I] Hm; [lia|]. now apply Hmax.
    + specialize (IH best best_len Hacc).
      destruct (longest_match bs buffer best best_len) as [found len].
      destruct IH as (Hlen & Hfound & Hmax).
      split; [lia|]. split.
      * destruct found as [b|]; [|exact Hfound].
        destruct Hfound as ([E|I] & Hm & Hl); repeat split; auto.
        right. now right.
      * intros b [<-|I] Hm; [unfold matches in Hm; congruence|].
        now apply Hmax.
Qed.

(** The walk over the bindings picks a binding whose destination is a
    prefix of the path in the buffer and no shorter than any other such
    destination; it picks none only when no non-empty destination is a
    prefix. *)
Theorem longest_match_is_longest_prefix (bs : list binding)
    (buffer : list byte) :
  match longest_match bs buffer None 0 with
  | (Some b, len) =>
      In b bs /\ (exists rest, c_string buffer = dest b ++ rest) /\
      len = strlen (dest b) /\
      (forall b', In b' bs ->
                  (exists rest, c_string buffer = dest b' ++ rest) ->
                  strlen (dest b') <= strlen (dest b))
  | (None, len) =>
      len = 0 /\
      (forall b', In b' bs ->
                  (exists rest, c_string buffer = dest b' ++ rest) ->
                  dest b' = [])
  end.
Proof.
  pose proof (longest_match_acc bs buffer None 0 eq_refl) as H.
  cbv zeta in H.
  destruct (longest_match bs buffer None 0) as [[b|] len].
  - destruct H as (_ & ([E|I] & Hm & Hl) & Hmax); [discriminate|].
    split; [exact I|]. split; [now apply strncmp_eq_prefix|].
    split; [exact Hl|].
    intros b' I' Hp. rewrite <- Hl. apply Hmax; [exact I'|].
    now apply strncmp_eq_prefix.
  - destruct H as (_ & (_ & Hl) & Hmax). split; [exact Hl|].
    intros b' I' Hp. apply strncmp_eq_prefix in Hp.
    specialize (Hmax b' I' Hp). unfold strlen in Hmax.
    destruct (dest b'); [reflexivity|]. cbn [List.length] in Hmax. lia.
Qed.

(** * The order of the bind mounts *)

Ltac order_done :=
  split;
  [ rewrite ?filter_app; cbn; rewrite ?app_nil_r, <- ?app_assoc;
    try reflexivity
  | try discriminate; auto ].

Lemma bind_one_in_order (j : minijail) (kn : kernel) (next : list binding) :
  forall (b : binding) (t : list syscall),
  exists n,
    List.filter is_bind_mount (snd (bind_one j b next kn t)) =
    List.filter is_bind_mount t ++
    map (bind_mount_of j) (firstn n (b :: next)) /\
    (fst (bind_one j b next kn t) = Some 0 -> n = S (List.length next)).
Proof.
  induction next as [|b' next IH]; intros b t.
  - cbn [bind_one]. unfold sys_bind, sys, must, when, sys_ret, sys_die.
    cbn [fst snd].
    destruct (answer kn t alloc =? 0); cbn [negb fst snd];
      [|exists O; order_done].
    unfold sys_bind, sys. cbn [fst snd].
    destruct (answer kn (t ++ [alloc]) _ =? 0); cbn [fst snd];
      [|exists 1%nat; order_done].
    destruct (writeable b =? 0); cbn [fst snd].
    + destruct (answer kn _ _ =? 0); cbn [fst snd]; exists 1%nat; order_done.
    + exists 1%nat. order_done.
  - cbn [bind_one]. unfold sys_bind, sys, must, when, sys_ret, sys_die.
    cbn [fst snd].
    destruct (answer kn t alloc =? 0); cbn [negb fst snd];
      [|exists O; order_done].
    unfold sys_bind, sys. cbn [fst snd].
    destruct (answer kn (t ++ [alloc]) _ =? 0); cbn [fst snd];
      [|exists 1%nat; order_done].
    destruct (writeable b =? 0); cbn [fst snd].
    + destruct (answer kn _ _ =? 0); cbn [fst snd];
        [|exists 1%nat; order_done].
      match goal with
      | |- context [bind_one j b' next kn ?t'] =>
          destruct (IH b' t') as (n & E & Hn)
      end.
      exists (S n). rewrite E. order_done.
    + match goal with
      | |- context [bind_one j b' next kn ?t'] =>
          destruct (IH b' t') as (n & E & Hn)
      end.
      exists (S n). rewrite E. order_done.
Qed.

(** The bind mounts of [enter_chroot] are those of the bindings, in the
    order in which they were added, up to the first failure; a call that
    returns 0 has mounted them all. *)
Theorem bindings_mounted_in_order (j : minijail) (kn : kernel) :
  exists n,
    List.filter is_bind_mount (snd (enter_chroot j kn [])) =
    map (bind_mount_of j) (firstn n (bindings j)) /\
    (fst (enter_chroot j kn []) = Some 0 -> n = List.length (bindings j)).
Proof.
  unfold enter_chroot.
  destruct (bindings j) as [|b next].
  - exists O. unfold sys_bind, sys_ret, sys. cbn [fst snd negb Z.eqb].
    destruct (answer kn [] _ =? 0); cbn [negb fst snd].
    + destruct (answer kn _ _ =? 0); cbn [negb fst snd]; split; reflexivity.
    + split; reflexivity.
  - destruct (bind_one_in_order j kn next b []) as (n & E & Hn).
    exists n. cbn [List.filter app] in E. unfold sys_bind, sys, sys_ret.
    destruct (bind_one j b next kn []) as [[r|] t] eqn:Eb; cbn [fst snd] in *;
      [|split; [exact E|discriminate]].
    destruct (Z.eqb_spec r 0) as [->|Hr]; cbn [negb fst snd].
    + destruct (answer kn t _ =? 0); cbn [negb fst snd];
        [destruct (answer kn _ _ =? 0); cbn [negb fst snd]|];
        rewrite ?filter_app; cbn; rewrite ?app_nil_r;
        (split; [exact E|intros _; now apply Hn]).
    + split; [exact E|]. intros H. exfalso. apply Hr. congruence.
Qed.

(** * Failing closed *)

Lemma fails_closed_silent {A} (c : Sys A) :
  emits (fun x => critical x = false) c -> fails_closed c.
Proof.
  intros H kn t. destruct (H kn t) as (tr & E & F).
  exists tr. split; [exact E|].
  intros _ i x Hx Hc. apply nth_error_In in Hx.
  rewrite Forall_forall in F. rewrite (F x Hx) in Hc. discriminate.
Qed.

Lemma fails_closed_bind {A B} (c : Sys A) (f : A -> Sys B) :
  fails_closed c -> (forall a, fails_closed (f a)) ->
  fails_closed (sys_bind c f).
Proof.
  intros Hc Hf kn t. unfold sys_bind.
  destruct (Hc kn t) as (tr & E & F).
  destruct (c kn t) as [[a|] t']; cbn [fst snd] in E, F; subst t'.
  - destruct (Hf a kn (t ++ tr)) as (tr' & E' & F').
    exists (tr ++ tr'). rewrite E', app_assoc. split; [reflexivity|].
    intros Hr i x Hx Hcr.
    destruct (Nat.lt_ge_cases i (List.length tr)) as [Hi|Hi].
    + rewrite nth_error_app1 in Hx by exact Hi.
      rewrite firstn_app.
      replace (i - List.length tr)%nat with O by lia.
      cbn [firstn]. rewrite app_nil_r.
      apply (F ltac:(discriminate) i x Hx Hcr).
    + rewrite nth_error_app2 in Hx by exact Hi.
      rewrite firstn_app, firstn_all2 by exact Hi.
      rewrite app_assoc.
      apply (F' Hr _ x Hx Hcr).
  - exists tr. split; [reflexivity|]. intros Hr. now contradiction Hr.
Qed.

Lemma fails_closed_must (c : syscall) : fails_closed (must c).
Proof.
  intros kn t. exists [c]. unfold must, sys_bind, sys.
  destruct (Z.eqb_spec (answer kn t c) 0) as [E|E]; cbn [fst snd sys_ret sys_die].
  - split; [reflexivity|]. intros _ i x Hx _.
    destruct i as [|i]; cbn in Hx.
    + inversion Hx; subst x. cbn [firstn]. now rewrite app_nil_r.
    + now destruct i.
  - split; [reflexivity|]. intros Hr. now contradiction Hr.
Qed.

Lemma fails_closed_when (b : bool) (c : Sys unit) :
  fails_closed c -> fails_closed (when b c).
Proof.
  intros H. destruct b; [exact H|].
  apply fails_closed_silent, emits_ret.
Qed.

Lemma fails_closed_must_succeed (c : Sys Z) :
  fails_closed c -> fails_closed (must_succeed c).
Proof.
  intros H. unfold must_succeed. apply fails_closed_bind; [exact H|].
  intros r. apply fails_closed_silent.
  destruct (r =? 0); [apply emits_ret|apply emits_die].
Qed.

Ltac closed_step :=
  match goal with
  | |- fails_closed (sys_ret _) => apply fails_closed_silent, emits_ret
  | |- fails_closed sys_die => apply fails_closed_silent, emits_die
  | |- fails_closed last_cap => apply fails_closed_silent, emits_last_cap
  | |- fails_closed (must _) => apply fails_closed_must
  | |- fails_closed (when _ _) => apply fails_closed_when
  | |- fails_closed (must_succeed _) => apply fails_closed_must_succeed
  | |- fails_closed (sys_bind _ _) => apply fails_closed_bind; [|intros]
  | |- fails_closed (if ?b then _ else _) => destruct b
  end.

Ltac closed := repeat closed_step.

Lemma fails_closed_drop_bounding (j : minijail) (idx : list Z) :
  fails_closed (drop_bounding j idx).
Proof.
  induction idx as [|i idx IH]; cbn [drop_bounding]; closed. exact IH.
Qed.

Lemma fails_closed_drop_ugid (j : minijail) : fails_closed (drop_ugid j).
Proof. unfold drop_ugid. closed. Qed.

Lemma fails_closed_drop_caps (j : minijail) : fails_closed (drop_caps j).
Proof.
  unfold drop_caps, cap_set_proc. closed. apply fails_closed_drop_bounding.
Qed.

Lemma fails_closed_set_seccomp_filter (j : minijail) :
  fails_closed (set_seccomp_filter j).
Proof. unfold set_seccomp_filter. closed. Qed.

(** A call of [minijail_enter] that returns had every change of identity,
    every reduction of capabilities and the installation of the filter
    granted by the kernel: a refusal of one of them ends the process. *)
Theorem enter_fails_closed (j : minijail) : fails_closed (minijail_enter j).
Proof.
  unfold minijail_enter.
  destruct (flag j Flag.pids); [closed|].
  destruct (_ && _); [closed|].
  closed;
    try apply fails_closed_drop_ugid;
    try apply fails_closed_drop_caps;
    try apply fails_closed_set_seccomp_filter;
    apply fails_closed_silent.
  - now apply emits_enter_chroot.
  - unfold mount_tmp. now apply emits_sys.
  - now apply emits_remount_readonly.
Qed.

(** With a kernel that refuses [setresuid], [minijail_enter] of a policy
    that changes the user id does not return. *)
Lemma enter_dies_without_setresuid :
  fst (minijail_enter dropping_policy no_setresuid_kernel []) = None /\
  last (snd (minijail_enter dropping_policy no_setresuid_kernel [])) alloc =
  setresuid 1000 1000 1000.
Proof. vm_compute. split; reflexivity. Qed.

(** * The flags across [fork] and [execve] *)

Lemma flag_flag_off (g f : Flag.t) (j : minijail) :
  flag (flag_off g j) f = negb (Flag.bit g =? Flag.bit f) && flag j f.
Proof.
  unfold flag, flag_off. cbn [flags set_flags].
  pose proof (bit_range g). pose proof (bit_range f).
  destruct (Z.eqb_spec (Flag.bit g) (Flag.bit f)) as [E|E]; cbn [negb andb].
  - rewrite E. apply Z.clearbit_eq.
  - now apply Z.clearbit_neq.
Qed.

Lemma flag_flag_assign (g f : Flag.t) (v : bool) (j : minijail) :
  flag (flag_assign g v j) f =
  if Flag.bit g =? Flag.bit f then v else flag j f.
Proof.
  unfold flag_assign. destruct v.
  - rewrite flag_flag_on. now destruct (_ =? _).
  - rewrite flag_flag_off. now destruct (_ =? _).
Qed.

Lemma user_flag_assign (g : Flag.t) (v : bool) (j : minijail) :
  user (flag_assign g v j) = user j.
Proof. now destruct v. Qed.

(** [minijail_preexec] keeps the flags that are inherited across
    [execve] as they were, clears every other flag and forgets the user
    name; [minijail_preenter] clears the four flags that the parent has
    already acted upon and keeps the others. *)
Theorem flags_across_exec (j : minijail) (f : Flag.t) :
  flag (minijail_preexec j) f = survives_exec f && flag j f /\
  user (minijail_preexec j) = None /\
  flag (minijail_preenter j) f = negb (parent_only f) && flag j f.
Proof.
  split; [|split].
  - unfold minijail_preexec. cbv zeta. rewrite !flag_flag_assign.
    destruct f; cbn [Flag.bit Z.eqb Pos.eqb survives_exec andb];
      reflexivity.
  - unfold minijail_preexec. cbv zeta. now rewrite !user_flag_assign.
  - unfold minijail_preenter. rewrite !flag_flag_off.
    destruct f; cbn [Flag.bit Z.eqb Pos.eqb parent_only negb andb];
      reflexivity.
Qed.

(** * The policy through the pipe *)

Lemma length_flat_map_wire_binding (bs : list binding) :
  (List.length bs <= List.length (flat_map wire_binding bs))%nat.
Proof.
  induction bs as [|b bs IH]; [reflexivity|].
  cbn [flat_map List.length]. rewrite length_app.
  unfold wire_binding at 1, str_bytes. rewrite !length_app. cbn [List.length].
  lia.
Qed.

Lemma length_wire_format (j : minijail) (p : pointers) :
  sizeof_minijail + Z.of_nat (List.length (bindings j)) <=
  Z.of_nat (List.length (wire_format j p)).
Proof.
  unfold wire_format. rewrite !length_app.
  pose proof (length_struct_bytes j p).
  pose proof (length_flat_map_wire_binding (bindings j)). lia.
Qed.

Lemma from_fd_body (body : list byte) (j0 : minijail) (h : heap) :
  Z.of_nat (List.length body) <= USHRT_MAX -> plentiful h ->
  exists h1,
    malloc h = Returns true h1 /\ plentiful h1 /\
    minijail_from_fd (le_bytes 8 (Z.of_nat (List.length body)) ++ body) j0 h =
    (r <- minijail_unmarshal j0 body ;; ret (fst r, snd r, [])) h1.
Proof.
  intros Hsz Hp. unfold minijail_from_fd, read.
  change (Z.to_nat sizeof_size_t) with 8%nat.
  pose proof (length_le_bytes 8 (Z.of_nat (List.length body))) as Hl.
  rewrite firstn_app, skipn_app, Hl, Nat.sub_diag.
  rewrite (firstn_all2 (le_bytes 8 _)), (skipn_all2 (le_bytes 8 _))
    by (rewrite Hl; reflexivity).
  cbn [firstn skipn app].
  rewrite app_nil_r, Hl, le_value_bytes.
  change (negb (sizeof_size_t =? Z.of_nat 8)) with false. cbv iota.
  change (256 ^ Z.of_nat 8) with (2 ^ 64).
  unfold USHRT_MAX in *.
  rewrite Z.mod_small by lia.
  destruct (Z.gtb_spec (Z.of_nat (List.length body)) 65535) as [E|_]; [lia|].
  destruct (malloc_plentiful h Hp) as (h1 & E1 & Hp1).
  exists h1. split; [exact E1|]. split; [exact Hp1|].
  rewrite (bind_eq _ _ _ _ _ E1). cbn [negb].
  rewrite Nat2Z.id, firstn_all, skipn_all, Z.eqb_refl. reflexivity.
Qed.

Lemma to_fd_writes (j : minijail) (p : pointers) (h : heap) :
  filter_counted j -> plentiful h ->
  Z.of_nat (List.length (wire_format j p)) <= SIZE_MAX ->
  minijail_size j p = Z.of_nat (List.length (wire_format j p)) /\
  exists h1,
    minijail_to_fd j p sizeof_size_t (minijail_size j p) [] h =
    Returns (0, le_bytes 8 (minijail_size j p) ++ wire_format j p) h1.
Proof.
  intros Hf Hp Hfit.
  assert (Hsz : minijail_size j p = Z.of_nat (List.length (wire_format j p))).
  { rewrite (minijail_size_wire j p Hf). unfold wrap. apply Z.mod_small.
    unfold SIZE_MAX in Hfit. lia. }
  split; [exact Hsz|].
  pose proof (length_wire_format j p) as Hlen.
  unfold minijail_to_fd.
  rewrite (marshal_exact j p Hf Hfit).
  destruct (Z.eqb_spec (minijail_size j p) 0) as [E|_];
    [unfold sizeof_minijail in Hlen; lia|].
  destruct (malloc_plentiful h Hp) as (h1 & E1 & _).
  rewrite (bind_eq _ _ _ _ _ E1). cbn [negb Z.eqb].
  rewrite !Z.eqb_refl. cbn [negb].
  destruct (Z.ltb_spec (minijail_size j p) 0) as [E|_]; [lia|].
  cbn [orb]. exists h1. unfold ret, write. do 2 f_equal. cbn [app].
  change (Z.to_nat sizeof_size_t) with 8%nat.
  rewrite firstn_all2 by (rewrite length_le_bytes; reflexivity).
  f_equal. apply firstn_all2. lia.
Qed.

(** A policy issued by the builder whose image is at most [USHRT_MAX]
    bytes long, written to the pipe by [minijail_to_fd] (both writes
    complete) and read by [minijail_from_fd], arrives: both calls return
    0, the pipe is left empty and the receiver holds the policy, with the
    filter program when it is switched on and no open stream. *)
Theorem pipe_round_trip
    (hst : host) (cs : list call) (h0 : heap) (j : minijail) (p : pointers)
    (j0 : minijail) (h1 h2 : heap) :
  host_ok hst -> Forall call_ok cs -> built_by hst cs h0 j ->
  represents p j -> plentiful h1 -> plentiful h2 ->
  Z.of_nat (List.length (wire_format j p)) <= SIZE_MAX ->
  minijail_size j p <= USHRT_MAX ->
  exists pipe h1' h2',
    minijail_to_fd j p sizeof_size_t (minijail_size j p) [] h1 =
    Returns (0, pipe) h1' /\
    minijail_from_fd pipe j0 h2 = Returns (0, received j, []) h2'.
Proof.
  intros Hh Hcs Hb Hrep Hp1 Hp2 Hfit Hsmall.
  pose proof (built_well_formed hst cs h0 j Hh Hcs Hb) as Hwf.
  pose proof (well_formed_filter_counted j Hwf) as Hf.
  destruct (to_fd_writes j p h1 Hf Hp1 Hfit) as (Hsz & h1' & E1).
  pose proof (length_wire_format j p) as Hlen.
  assert (Hint : int_range (binding_count j)).
  { rewrite (wf_binding_count j Hwf).
    unfold int_range, INT_MIN, INT_MAX, USHRT_MAX, sizeof_minijail in *. lia. }
  exists (le_bytes 8 (minijail_size j p) ++ wire_format j p), h1'.
  rewrite Hsz in Hsmall.
  destruct (from_fd_body (wire_format j p) j0 h2 Hsmall Hp2)
    as (h3 & _ & Hp3 & E2).
  destruct (unmarshal_wire j j0 p h3 Hwf Hint Hrep Hp3) as (h2' & E3 & _).
  exists h2'. split; [exact E1|].
  rewrite Hsz, E2. rewrite (bind_eq _ _ _ _ _ E3). reflexivity.
Qed.

Lemma pipe_round_trip_witness :
  exists pipe h1' h2',
    minijail_to_fd full_policy full_pointers sizeof_size_t
      (minijail_size full_policy full_pointers) [] [] =
    Returns (0, pipe) h1' /\
    minijail_from_fd pipe zeroed [] =
    Returns (0, received full_policy, []) h2'.
Proof.
  apply (pipe_round_trip small_host full_calls [] full_policy full_pointers
           zeroed [] []).
  - exact small_host_ok.
  - exact full_calls_ok.
  - exact full_policy_built.
  - exact represents_full.
  - constructor.
  - constructor.
  - vm_compute. discriminate.
  - vm_compute. discriminate.
Defined.

(** A pipe that does not hold a whole frame (fewer than the eight bytes
    of the size, or fewer bytes after them than the size announces) makes
    [minijail_from_fd] return [-EINVAL], [-E2BIG] or [-ENOMEM] and leave
    the object as it was. *)
Theorem from_fd_incomplete (pipe : list byte) (j0 : minijail) (h : heap) :
  Z.of_nat (List.length pipe) < 8 \/
  Z.of_nat (List.length pipe) - 8 < le_value (firstn 8 pipe) ->
  exists r pipe' h',
    minijail_from_fd pipe j0 h = Returns (r, j0, pipe') h' /\
    (r = - EINVAL \/ r = - E2BIG \/ r = - ENOMEM).
Proof.
  intros H. unfold minijail_from_fd, read.
  change (Z.to_nat sizeof_size_t) with 8%nat.
  rewrite length_firstn.
  destruct (Z.eqb_spec sizeof_size_t
              (Z.of_nat (Nat.min 8 (List.length pipe)))) as [E|E];
    cbn [negb]; [|unfold ret; eauto 8].
  unfold sizeof_size_t in E.
  destruct H as [H|H]; [lia|].
  destruct (le_value (firstn 8 pipe) >? USHRT_MAX); [unfold ret; eauto 8|].
  unfold bind, malloc.
  destruct h as [|[|] h]; cbn [negb]; unfold ret; try solve [eauto 8].
  - rewrite length_firstn, length_skipn.
    destruct (Z.eqb_spec
                (Z.of_nat (Nat.min (Z.to_nat (le_value (firstn 8 pipe)))
                                   (List.length pipe - 8)))
                (le_value (firstn 8 pipe))) as [E'|_]; [lia|].
    cbn [negb]. eauto 8.
  - rewrite length_firstn, length_skipn.
    destruct (Z.eqb_spec
                (Z.of_nat (Nat.min (Z.to_nat (le_value (firstn 8 pipe)))
                                   (List.length pipe - 8)))
                (le_value (firstn 8 pipe))) as [E'|_]; [lia|].
    cbn [negb]. eauto 8.
Qed.

Lemma from_fd_incomplete_witness :
  exists r pipe' h',
    minijail_from_fd (le_bytes 8 200 ++ struct_bytes full_policy full_pointers)
      zeroed [] =
    Returns (r, zeroed, pipe') h' /\
    (r = - EINVAL \/ r = - E2BIG \/ r = - ENOMEM).
Proof.
  apply from_fd_incomplete. right. vm_compute. reflexivity.
Defined.

(** * What [minijail_unmarshal] makes of any bytes *)

Lemma byte_eqb_true (a b : byte) : Byte.eqb a b = true -> a = b.
Proof. intros H. now apply Byte.byte_dec_bl. Qed.

Lemma bind_keeps (j j' : minijail) (src dest : cstr) (w r : Z)
    (h h' : heap) :
  minijail_bind j src dest w h = Returns (r, j') h' ->
  (binding_invariant j -> binding_invariant j') /\
  user j' = user j /\ chrootdir j' = chrootdir j /\ chdir j' = chdir j /\
  meta_file j' = meta_file j.
Proof.
  intros H. unfold minijail_bind in H.
  destruct (Byte.eqb (first_byte dest) SLASH) eqn:Ed; cbn [negb] in H;
    invert_returns H; (split; [|now repeat split]);
    try exact (fun H => H).
  all: intros (Hc & Ha & Hv); unfold binding_invariant;
    cbn [binding_count bindings set_binding_count set_bindings
           minijail_namespace_vfs].
  all: split; [|split].
  all: try (intros _; apply flag_on_sets).
  all: try (rewrite length_app; cbn [List.length];
            change (binding_count (flag_on Flag.vfs j)) with (binding_count j);
            lia).
  all: apply Forall_app; split; [exact Ha|].
  all: constructor; [|constructor].
  all: cbn. 
  all: repeat match goal with
              | H : (if ?a then _ else _) = Some _ |- _ =>
                  destruct a; [|discriminate H]
              end.
  all: apply byte_eqb_true; congruence.
Qed.

Ltac keeps_done :=
  cbn [fst snd]; split; [exact (fun H => H)|];
  repeat (split; [reflexivity|]);
  intros ? E; inversion E; reflexivity.

Lemma unmarshal_bindings_keeps (count : nat) :
  forall (j : minijail) (cur : list byte) (h h' : heap)
         (r : option minijail * minijail),
  unmarshal_bindings count j cur h = Returns r h' ->
  (binding_invariant j -> binding_invariant (snd r)) /\
  user (snd r) = user j /\ chrootdir (snd r) = chrootdir j /\
  chdir (snd r) = chdir j /\ meta_file (snd r) = meta_file j /\
  (forall j', fst r = Some j' -> j' = snd r).
Proof.
  induction count as [|count IH]; intros j cur h h' r H;
    cbn [unmarshal_bindings] in H.
  - inversion H; subst. keeps_done.
  - destruct (consumestr cur) as [[src cur1]|];
      [|inversion H; subst; keeps_done].
    destruct (consumestr cur1) as [[dest cur2]|];
      [|inversion H; subst; keeps_done].
    destruct (consumebytes sizeof_int cur2) as [[w cur3]|];
      [|inversion H; subst; keeps_done].
    unfold bind in H.
    destruct (minijail_bind j src dest (signed 32 (le_value w)) h)
      as [[rb jb] hb|] eqn:Eb; [|discriminate H].
    destruct (bind_keeps _ _ _ _ _ _ _ _ Eb) as (Hi & Hu & Hc & Hd & Hm).
    cbn [fst snd] in H.
    destruct (rb =? 0).
    + destruct (IH _ _ _ _ _ H) as (Hi' & Hu' & Hc' & Hd' & Hm' & Hf).
      split; [auto|]. repeat (split; [congruence|]). exact Hf.
    + inversion H; subst. cbn [fst snd].
      split; [exact Hi|]. repeat (split; [assumption|]). discriminate.
Qed.

Lemma struct_of_bytes_empty (bs : list byte) :
  bindings (fst (struct_of_bytes bs)) = [] /\
  meta_file (fst (struct_of_bytes bs)) = None.
Proof. split; reflexivity. Qed.

(** Whatever the bytes and the receiving object, a call of
    [minijail_unmarshal] that returns gives 0 or [-EINVAL].  With 0 the
    binding list is counted, its destinations are absolute, the mount
    namespace is asked for when there is a binding, and no stream is
    open; with [-EINVAL] the object is untouched (the image is shorter
    than the object) or holds none of the three strings. *)
Theorem unmarshal_outcomes (j0 : minijail) (serialized : list byte)
    (h h' : heap) (r : Z) (j' : minijail) :
  minijail_unmarshal j0 serialized h = Returns (r, j') h' ->
  (r = 0 /\ binding_invariant j' /\ meta_file j' = None) \/
  (r = - EINVAL /\
   (j' = j0 \/ (user j' = None /\ chrootdir j' = None /\ chdir j' = None))).
Proof.
  intros H. unfold minijail_unmarshal in H.
  destruct (Z.of_nat (List.length serialized) <? sizeof_minijail).
  { inversion H; subst. right. split; [reflexivity|]. now left. }
  pose proof (struct_of_bytes_empty
                (firstn (Z.to_nat sizeof_minijail) serialized)) as [Hb Hm].
  destruct (struct_of_bytes (firstn (Z.to_nat sizeof_minijail) serialized))
    as [j1 p].
  cbn [fst] in Hb, Hm.
  unfold bind, unmarshal_fail, ret in H.
  repeat match goal with
         | H : Returns _ _ = Returns _ _ |- _ => inversion H; subst; clear H
         | H : Dies = Returns _ _ |- _ => discriminate H
         | H : die _ = Returns _ _ |- _ => discriminate H
         | H : ?lhs = Returns _ _ |- _ =>
             match lhs with
             | context [match ?x with _ => _ end] => destruct x eqn:?
             end
         end.
  all: try (right; split; [reflexivity|]; right; repeat split; reflexivity).
  all: left; split; [reflexivity|];
    match goal with
    | H : unmarshal_bindings _ _ _ _ = Returns ?a _, F : fst ?a = Some _ |- _ =>
        destruct (unmarshal_bindings_keeps _ _ _ _ _ _ H)
          as (Hi & _ & _ & _ & Hmf & Hf);
        rewrite (Hf _ F)
    end;
    (split; [apply Hi|rewrite Hmf; exact Hm]);
    unfold binding_invariant;
    cbn [binding_count bindings set_binding_count set_filter_prog set_chdir
           set_chrootdir set_user];
    rewrite Hb; (split; [reflexivity|]); split; [constructor|congruence].
Qed.

Lemma unmarshal_outcomes_witness :
  (0 = 0 /\ binding_invariant (received full_policy) /\
   meta_file (received full_policy) = None) \/
  (0 = - EINVAL /\
   (received full_policy = zeroed \/
    (user (received full_policy) = None /\
     chrootdir (received full_policy) = None /\
     chdir (received full_policy) = None))).
Proof.
  apply (unmarshal_outcomes zeroed (wire_format full_policy full_pointers)
           [] [] 0 (received full_policy)).
  vm_compute. reflexivity.
Defined.

(** * The cursor *)

Lemma strnlen_split (buf : list byte) :
  0 <= strnlen buf <= Z.of_nat (List.length buf) /\
  ~ In NUL (firstn (Z.to_nat (strnlen buf)) buf) /\
  (strnlen buf < Z.of_nat (List.length buf) ->
   nth_error buf (Z.to_nat (strnlen buf)) = Some NUL) /\
  (strnlen buf = Z.of_nat (List.length buf) -> ~ In NUL buf).
Proof.
  induction buf as [|b buf (Hr & Hn & Hz & He)].
  - cbn. repeat split; try lia; auto.
  - cbn [strnlen List.length].
    destruct (Byte.eqb b NUL) eqn:E.
    + apply byte_eqb_true in E. subst b. cbn.
      repeat split; try lia; auto.
    + assert (b <> NUL).
      { intros ->. cbv in E. discriminate. }
      replace (Z.to_nat (1 + strnlen buf)) with (S (Z.to_nat (strnlen buf)))
        by lia.
      cbn [firstn nth_error]. repeat split; try lia.
      * intros [F|F]; [congruence|contradiction].
      * intros Hlt. apply Hz. lia.
      * intros Heq [F|F]; [congruence|]. apply He; [lia|exact F].
Qed.

Lemma split_at_nth {A} (l : list A) :
  forall (n : nat) (x : A),
  nth_error l n = Some x -> l = firstn n l ++ x :: skipn (S n) l.
Proof.
  induction l as [|a l IH]; intros [|n] x H; cbn in H; try discriminate.
  - inversion H. reflexivity.
  - cbn [firstn skipn app]. f_equal. now apply IH.
Qed.

(** [consumestr] takes the bytes in front of the first terminator of the
    buffer together with that terminator and fails exactly when the
    buffer holds no terminator; [consumebytes] of a size takes that many
    bytes and fails exactly when the buffer is shorter. *)
Theorem cursor_splits (buf : list byte) (length : Z) :
  match consumestr buf with
  | Some (s, rest) => buf = s ++ NUL :: rest /\ ~ In NUL s
  | None => ~ In NUL buf
  end /\
  match consumebytes length buf with
  | Some (bytes, rest) =>
      buf = bytes ++ rest /\ List.length bytes = Z.to_nat length
  | None => Z.of_nat (List.length buf) < length
  end.
Proof.
  split.
  - unfold consumestr, consumebytes.
    destruct (strnlen_split buf) as (Hr & Hn & Hz & He).
    destruct (Z.eqb_spec (strnlen buf) (Z.of_nat (List.length buf)))
      as [E|E]; [now apply He|].
    destruct (Z.gtb_spec (strnlen buf + 1) (Z.of_nat (List.length buf)));
      [lia|].
    replace (Z.to_nat (strnlen buf + 1)) with (S (Z.to_nat (strnlen buf)))
      by lia.
    set (n := Z.to_nat (strnlen buf)) in *.
    assert (Hnth : nth_error buf n = Some NUL) by (apply Hz; lia).
    split.
    + rewrite firstn_firstn, Nat.min_l by lia. now apply split_at_nth.
    + rewrite firstn_firstn, Nat.min_l by lia. exact Hn.
  - unfold consumebytes.
    destruct (Z.gtb_spec length (Z.of_nat (List.length buf))); [lia|].
    split; [now rewrite firstn_skipn|].
    rewrite length_firstn. lia.
Qed.

(** * Identity and root directory of a built policy *)

Lemma jail_invariant_zeroed : jail_invariant zeroed.
Proof.
  unfold jail_invariant. cbn.
  repeat split; try discriminate; try congruence.
Qed.

Ltac fields :=
  cbn [uid gid user chrootdir chdir usergid caps bindings binding_count
       flag_on set_flags set_uid set_gid set_usergid set_user set_caps
       set_filter_len set_binding_count set_chrootdir set_chdir
       set_filter_prog set_bindings set_meta_file set_stack_limit
       set_time_limit set_memory_limit set_output_limit].

Ltac through_setters :=
  repeat match goal with
         | |- context [flag (?s ?v ?x) ?f] =>
             progress change (flag (s v x) f) with (flag x f)
         end.

Ltac settle :=
  repeat split; intros;
  repeat match goal with
         | H : Some _ = Some _ |- _ => inversion H; subst; clear H
         | H : (_ =? 0) = false |- _ => apply Z.eqb_neq in H
         | H : Byte.eqb _ _ = true |- _ => apply byte_eqb_true in H
         end;
  try discriminate; try congruence; try tauto;
  try (cbn [first_byte hd]; congruence);
  try solve [ match goal with
              | H : _ <-> _ |- _ => apply H; (discriminate || congruence)
              end ];
  try solve [ match goal with
              | H : forall d, _ -> first_byte d = SLASH |- _ =>
                  apply H; congruence
              end ];
  auto.

Lemma run_call_jail_invariant (hst : host) (c : call) (j j' : minijail)
    (h h' : heap) (r : Z) :
  run_call hst c j h = Returns (r, j') h' ->
  jail_invariant j -> jail_invariant j'.
Proof.
  intros H (Hu & Hg & Hn & Hc & Hd & Hdc & Ha).
  destruct c; unfold_calls H; invert_returns H; unfold_setters;
    unfold jail_invariant;
    repeat (through_setters; rewrite ?flag_flag_on);
    cbn [Flag.bit Z.eqb Pos.eqb orb]; fields;
    repeat match goal with
           | |- context [if ?a then _ else _] => destruct a
           end;
    settle.
Qed.

Lemma built_jail_invariant (hst : host) (cs : list call) (h : heap)
    (j : minijail) :
  built_by hst cs h j -> jail_invariant j.
Proof.
  intros [h' H].
  eapply (run_calls_invariant jail_invariant hst); [|exact H|].
  - intros c j1 j2 h1 h2 r. apply run_call_jail_invariant.
  - exact jail_invariant_zeroed.
Qed.

(** After any sequence of builder calls on a fresh policy: an id that is
    to be changed is not 0; a user name is held only with the uid flag
    set; the chroot flag is set exactly when a root directory is held and
    the chdir flag exactly when a working directory is held; a working
    directory is held only along with a root directory and is an absolute
    path. *)
Theorem builder_jail_invariant (hst : host) (cs : list call) (h : heap)
    (j : minijail) :
  built_by hst cs h j ->
  (flag j Flag.uid = true -> uid j <> 0) /\
  (flag j Flag.gid = true -> gid j <> 0) /\
  (user j <> None -> flag j Flag.uid = true) /\
  (flag j Flag.chroot = true <-> chrootdir j <> None) /\
  (flag j Flag.chdir = true <-> chdir j <> None) /\
  (chdir j <> None -> chrootdir j <> None) /\
  (forall d, chdir j = Some d -> first_byte d = SLASH).
Proof. intros H. exact (built_jail_invariant hst cs h j H). Qed.

Lemma builder_jail_invariant_witness :
  (flag full_policy Flag.uid = true -> uid full_policy <> 0) /\
  (flag full_policy Flag.gid = true -> gid full_policy <> 0) /\
  (user full_policy <> None -> flag full_policy Flag.uid = true) /\
  (flag full_policy Flag.chroot = true <-> chrootdir full_policy <> None) /\
  (flag full_policy Flag.chdir = true <-> chdir full_policy <> None) /\
  (chdir full_policy <> None -> chrootdir full_policy <> None) /\
  (forall d, chdir full_policy = Some d -> first_byte d = SLASH).
Proof.
  apply (builder_jail_invariant small_host full_calls [] full_policy).
  exact full_policy_built.
Defined.

(** * Mounts happen in the jail's own mount namespace *)

Lemma mount_invariant_zeroed : mount_invariant zeroed.
Proof. split; [discriminate|]. intros H. now elim H. Qed.

Lemma run_call_mount_invariant (hst : host) (c : call) (j j' : minijail)
    (h h' : heap) (r : Z) :
  run_call hst c j h = Returns (r, j') h' ->
  mount_invariant j -> mount_invariant j'.
Proof.
  intros H [Hr Hb].
  assert (Hvfs : flag j Flag.vfs = true -> flag j' Flag.vfs = true)
    by (eapply run_call_keeps_flag; eassumption).
  assert (Hcases :
            (flag j' Flag.readonly = flag j Flag.readonly \/
             flag j' Flag.vfs = true) /\
            (bindings j' = bindings j \/ flag j' Flag.vfs = true)).
  { clear Hr Hb Hvfs.
    destruct c; unfold_calls H; invert_returns H; unfold_setters;
      cbn [bindings set_uid set_gid set_usergid set_user
             set_caps set_filter_len set_binding_count set_chrootdir set_chdir
             set_filter_prog set_bindings set_meta_file set_stack_limit
             set_time_limit set_memory_limit set_output_limit];
      repeat (repeat match goal with
                     | |- context [flag (?s ?v ?x) ?f] =>
                         progress change (flag (s v x) f) with (flag x f)
                     end;
              rewrite ?flag_flag_on);
      cbn [Flag.bit Z.eqb Pos.eqb orb];
      try (split; [left; reflexivity | left; reflexivity]);
      try (split; [right; reflexivity | left; reflexivity]);
      try (split; [left; reflexivity | right; reflexivity]). }
  destruct Hcases as [[Ep|V] [Eb|V']]; split; intros;
    try rewrite Ep in *; try rewrite Eb in *; tauto.
Qed.

Lemma built_mount_invariant (hst : host) (cs : list call) (h : heap)
    (j : minijail) :
  built_by hst cs h j -> mount_invariant j.
Proof.
  intros [h' H].
  eapply (run_calls_invariant mount_invariant hst); [|exact H|].
  - intros c j1 j2 h1 h2 r. apply run_call_mount_invariant.
  - exact mount_invariant_zeroed.
Qed.

Ltac emit_plain := emit; try exact I; try reflexivity.

Section Quiet.

(** A property that the calls of the identity, capability and filter
    steps have. *)
Variable P : syscall -> Prop.
Hypothesis P_other : forall c, protected_mount c = false -> P c.

Lemma quiet_drop_ugid (j : minijail) : emits P (drop_ugid j).
Proof. unfold drop_ugid. emit; apply P_other; reflexivity. Qed.

Lemma quiet_drop_bounding (j : minijail) (idx : list Z) :
  emits P (drop_bounding j idx).
Proof.
  induction idx as [|i idx IH]; cbn [drop_bounding]; emit;
    try (apply P_other; reflexivity). exact IH.
Qed.

Lemma quiet_drop_caps (j : minijail) : emits P (drop_caps j).
Proof.
  unfold drop_caps, cap_set_proc. emit;
    try (apply P_other; reflexivity). apply quiet_drop_bounding.
Qed.

Lemma quiet_set_seccomp_filter (j : minijail) :
  emits P (set_seccomp_filter j).
Proof. unfold set_seccomp_filter. emit; apply P_other; reflexivity. Qed.

Lemma quiet_privileges (j : minijail) :
  emits P
    ((if flag j Flag.no_new_privs then
        drop_ugid j ;;
        when (flag j Flag.caps) (drop_caps j) ;;
        set_seccomp_filter j
      else
        set_seccomp_filter j ;;
        drop_ugid j ;;
        when (flag j Flag.caps) (drop_caps j)) ;;
     when (flag j Flag.seccomp) (must (prctl PR_SET_SECCOMP 1)))%sys.
Proof.
  emit; try (apply P_other; reflexivity);
    first [ apply quiet_drop_ugid | apply quiet_drop_caps
          | apply quiet_set_seccomp_filter ].
Qed.

End Quiet.

Lemma must_first {A} (u : syscall) (rest : Sys A) (kn : kernel)
    (t : list syscall) :
  (must u ;; rest)%sys kn t =
  if answer kn t u =? 0 then rest kn (t ++ [u]) else (None, t ++ [u]).
Proof.
  unfold must, sys_bind, sys, sys_ret, sys_die.
  now destruct (answer kn t u =? 0).
Qed.

Lemma skip_first {A} (rest : Sys A) (kn : kernel) (t : list syscall) :
  (sys_ret tt ;; rest)%sys kn t = rest kn t.
Proof. reflexivity. Qed.

Lemma emits_enter_chroot_unbound (P : syscall -> Prop) (j : minijail) :
  (forall c, protected_mount c = false -> P c) ->
  bindings j = [] -> emits P (enter_chroot j).
Proof.
  intros HP E. unfold enter_chroot. rewrite E.
  emit; apply HP; reflexivity.
Qed.

Lemma enter_rest_emits (P : syscall -> Prop) (j : minijail) :
  (forall c, P c) ->
  emits P
    (when (flag j Flag.net) (must (unshare CLONE_NEWNET)) ;;
     when (flag j Flag.chroot) (must_succeed (enter_chroot j)) ;;
     when (flag j Flag.chroot && flag j Flag.mount_tmp)
       (must_succeed mount_tmp) ;;
     when (flag j Flag.readonly) (must_succeed (remount_readonly j)) ;;
     when (flag j Flag.caps)
       (must (prctl PR_SET_KEEPCAPS 1) ;;
        must (prctl PR_SET_SECUREBITS
                (Z.lor SECURE_ALL_BITS SECURE_ALL_LOCKS))) ;;
     (if flag j Flag.no_new_privs then
        drop_ugid j ;;
        when (flag j Flag.caps) (drop_caps j) ;;
        set_seccomp_filter j
      else
        set_seccomp_filter j ;;
        drop_ugid j ;;
        when (flag j Flag.caps) (drop_caps j)) ;;
     when (flag j Flag.seccomp) (must (prctl PR_SET_SECCOMP 1)))%sys.
Proof.
  intros HP.
  repeat (apply emits_bind;
          [solve [emit; first [ apply HP
                              | apply emits_enter_chroot; intros; apply HP
                              | apply emits_remount_readonly; intros;
                                apply HP ]]
          |intros _]).
  apply quiet_privileges. intros; apply HP.
Qed.

Lemma enter_unshared_emits (j : minijail) :
  bindings j = [] ->
  emits (fun c => protected_mount c = false)
    (when (flag j Flag.net) (must (unshare CLONE_NEWNET)) ;;
     when (flag j Flag.chroot) (must_succeed (enter_chroot j)) ;;
     when (flag j Flag.chroot && flag j Flag.mount_tmp)
       (must_succeed mount_tmp) ;;
     sys_ret tt ;;
     when (flag j Flag.caps)
       (must (prctl PR_SET_KEEPCAPS 1) ;;
        must (prctl PR_SET_SECUREBITS
                (Z.lor SECURE_ALL_BITS SECURE_ALL_LOCKS))) ;;
     (if flag j Flag.no_new_privs then
        drop_ugid j ;;
        when (flag j Flag.caps) (drop_caps j) ;;
        set_seccomp_filter j
      else
        set_seccomp_filter j ;;
        drop_ugid j ;;
        when (flag j Flag.caps) (drop_caps j)) ;;
     when (flag j Flag.seccomp) (must (prctl PR_SET_SECCOMP 1)))%sys.
Proof.
  intros E.
  repeat (apply emits_bind;
          [solve [emit;
                  first [ reflexivity
                        | apply emits_enter_chroot_unbound; auto ]]
          |intros _]).
  apply quiet_privileges. auto.
Qed.

(** For a policy issued by the builder, whatever the kernel answers: when
    [minijail_enter] makes a bind mount, an unmount or the mount of
    [/proc], its first call was [unshare(CLONE_NEWNS)] and the kernel
    granted it. *)
Theorem mounts_after_unshare (hst : host) (cs : list call) (h : heap)
    (j : minijail) (kn : kernel) (i : nat) (x : syscall) :
  built_by hst cs h j ->
  nth_error (enter_trace j kn) i = Some x -> protected_mount x = true ->
  hd_error (enter_trace j kn) = Some (unshare CLONE_NEWNS) /\
  answer kn [] (unshare CLONE_NEWNS) = 0 /\ (0 < i)%nat.
Proof.
  intros Hb Hx Hm.
  destruct (built_mount_invariant hst cs h j Hb) as [Hr Hbd].
  unfold enter_trace, minijail_enter in *.
  destruct (flag j Flag.pids); [now destruct i|].
  destruct (_ && _); [now destruct i|].
  destruct (flag j Flag.vfs) eqn:V; cbn [when] in *.
  - rewrite must_first in *.
    destruct (Z.eqb_spec (answer kn [] (unshare CLONE_NEWNS)) 0) as [E|E].
    + match type of Hx with
      | context [snd (?c kn _)] =>
          destruct (enter_rest_emits (fun _ => True) j (fun _ => I) kn
                      ([] ++ [unshare CLONE_NEWNS])) as (tr & Et & _)
      end.
      rewrite Et in *. cbn [app hd_error] in *.
      repeat split; auto.
      destruct i; [|lia]. cbn in Hx. inversion Hx; subst. discriminate Hm.
    + cbn [snd app] in Hx. destruct i as [|[|i]]; cbn in Hx; try discriminate.
      inversion Hx; subst. discriminate Hm.
  - assert (R : flag j Flag.readonly = false).
    { destruct (flag j Flag.readonly); [|reflexivity].
      now specialize (Hr eq_refl). }
    assert (B : bindings j = []).
    { destruct (bindings j); [reflexivity|].
      assert (F : false = true) by (apply Hbd; discriminate).
      discriminate F. }
    rewrite R in *. cbn [when] in *.
    rewrite skip_first in Hx.
    destruct (enter_unshared_emits j B kn []) as (tr & Et & F).
    rewrite Et in Hx. cbn [app] in Hx.
    apply nth_error_In in Hx. rewrite Forall_forall in F.
    rewrite (F x Hx) in Hm. discriminate.
Qed.

Lemma mounting_policy_built :
  built_by small_host mounting_calls [] mounting_policy.
Proof. exists []. vm_compute. reflexivity. Qed.

Lemma mounts_after_unshare_witness :
  hd_error (enter_trace mounting_policy willing_kernel) =
  Some (unshare CLONE_NEWNS) /\
  answer willing_kernel [] (unshare CLONE_NEWNS) = 0 /\ (0 < 2)%nat.
Proof.
  apply (mounts_after_unshare small_host mounting_calls [] mounting_policy
           willing_kernel 2
           (mount (cs "/bin") (cs "/tmp/jail/bin") None MS_BIND None)).
  - exact mounting_policy_built.
  - vm_compute. reflexivity.
  - reflexivity.
Defined.

(** * The capability sets that [drop_caps] leaves *)

Lemma valid_caps_spec (bound : nat) :
  forall (i last x : Z),
  In x (valid_caps bound i last) <->
  i <= x <= last /\ x < i + Z.of_nat bound.
Proof.
  induction bound as [|bound IH]; intros i last x; cbn [valid_caps].
  - cbn. lia.
  - destruct (Z.leb_spec i last) as [L|L].
    + cbn [In]. rewrite IH. lia.
    + cbn. lia.
Qed.

Lemma valid_caps_nonneg (bound : nat) (i last : Z) :
  0 <= i -> Forall (fun x => 0 <= x) (valid_caps bound i last).
Proof.
  intros Hi. apply Forall_forall. intros x Hx.
  apply valid_caps_spec in Hx. lia.
Qed.

Lemma kept_bits (mask : Z) (idx : list Z) :
  Forall (fun x => 0 <= x) idx ->
  forall (c : cap_t) (x : Z),
  let kept :=
    fold_left
      (fun c i =>
         if negb (i =? CAP_SETPCAP) && negb (Z.testbit mask i) then c
         else cap_set_all i c)
      idx c in
  (Z.testbit (effective kept) x =
   Z.testbit (effective c) x ||
   (existsb (Z.eqb x) idx && ((x =? CAP_SETPCAP) || Z.testbit mask x))) /\
  (effective c = permitted c -> effective kept = permitted kept) /\
  (effective c = inheritable c -> effective kept = inheritable kept).
Proof.
  induction 1 as [|i idx Hi _ IH]; intros c x; cbn [fold_left existsb].
  - cbn. rewrite orb_false_r. auto.
  - destruct (IH (if negb (i =? CAP_SETPCAP) && negb (Z.testbit mask i)
                  then c else cap_set_all i c) x) as (Hb & Hp & Hq).
    cbv zeta. split; [|split].
    + rewrite Hb.
      destruct (Z.eqb_spec x i) as [->|N].
      * destruct (negb (i =? CAP_SETPCAP) && negb (Z.testbit mask i)) eqn:E.
        -- apply andb_true_iff in E. destruct E as [E1 E2].
           apply negb_true_iff in E1, E2. rewrite E1, E2. cbn.
           now rewrite andb_false_r, !orb_false_r.
        -- cbn [cap_set_all effective]. rewrite Z.setbit_eq by exact Hi.
           apply andb_false_iff in E.
           destruct E as [E|E]; apply negb_false_iff in E; rewrite E; cbn;
             now rewrite ?orb_true_r.
      * cbn [orb].
        destruct (negb (i =? CAP_SETPCAP) && negb (Z.testbit mask i));
          [reflexivity|].
        cbn [cap_set_all effective]. rewrite Z.setbit_neq by lia.
        reflexivity.
    + intros E. apply Hp.
      destruct (negb (i =? CAP_SETPCAP) && negb (Z.testbit mask i));
        [exact E|]. cbn. now rewrite E.
    + intros E. apply Hq.
      destruct (negb (i =? CAP_SETPCAP) && negb (Z.testbit mask i));
        [exact E|]. cbn. now rewrite E.
Qed.

Lemma increasing_valid_caps (bound : nat) :
  forall (lo i last : Z), lo < i ->
  increasing_above lo (valid_caps bound i last).
Proof.
  induction bound as [|bound IH]; intros lo i last H; cbn [valid_caps].
  - exact I.
  - destruct (i <=? last); [|exact I].
    split; [exact H|]. apply IH. lia.
Qed.

Lemma increasing_lower (l : list Z) (lo lo' : Z) :
  lo' <= lo -> increasing_above lo l -> increasing_above lo' l.
Proof. destruct l; cbn; [auto|]. intros H [A B]. split; [lia|exact B]. Qed.

Lemma increasing_filter (f : Z -> bool) (l : list Z) :
  forall lo, increasing_above lo l -> increasing_above lo (List.filter f l).
Proof.
  induction l as [|x l IH]; intros lo H; cbn [List.filter]; [exact I|].
  destruct H as [A B]. destruct (f x).
  - split; [exact A|]. now apply IH.
  - apply IH. apply (increasing_lower l x lo); [lia|exact B].
Qed.

Lemma drop_bounding_trace (j : minijail) (kn : kernel) (idx : list Z) :
  forall t,
  fst (drop_bounding j idx kn t) = Some tt ->
  snd (drop_bounding j idx kn t) =
  t ++ map (prctl PR_CAPBSET_DROP)
         (List.filter (fun i => negb (Z.testbit (caps j) i)) idx).
Proof.
  induction idx as [|i idx IH]; intros t H; cbn [drop_bounding] in *.
  - cbn. now rewrite app_nil_r.
  - cbn [List.filter].
    destruct (negb (Z.testbit (caps j) i)); cbn [when] in *.
    + rewrite must_first in *.
      destruct (answer kn t (prctl PR_CAPBSET_DROP i) =? 0);
        [|discriminate H].
      rewrite (IH _ H). cbn [map]. now rewrite <- app_assoc.
    + rewrite skip_first in *. now apply IH.
Qed.

(** When [drop_caps] returns, it has made these calls: [capget]; a
    [capset] that keeps the valid capabilities of the mask and
    [CAP_SETPCAP]; one [prctl(PR_CAPBSET_DROP)], in increasing order, for
    each valid capability that is not in the mask; and a last [capset]
    whose three sets are the mask cut down to the valid capabilities.
    The valid capabilities are those up to [cap_last_cap] and below 64. *)
Theorem drop_caps_leaves (j : minijail) (kn : kernel) (t : list syscall)
    (last : Z) :
  cap_last_cap kn = Some last ->
  fst (drop_caps j kn t) = Some tt ->
  exists first final dropped,
    snd (drop_caps j kn t) =
    t ++ [capget; capset first first first] ++
    map (prctl PR_CAPBSET_DROP) dropped ++ [capset final final final] /\
    (forall i, 0 <= i ->
       Z.testbit final i =
       Z.testbit (caps j) i && (i <=? last) && (i <? 64)) /\
    (forall i, 0 <= i ->
       Z.testbit first i =
       (Z.testbit (caps j) i || (i =? CAP_SETPCAP)) && (i <=? last)
       && (i <? 64)) /\
    (forall i, In i dropped <->
       0 <= i <= last /\ i < 64 /\ Z.testbit (caps j) i = false) /\
    increasing_above (-1) dropped.
Proof.
  intros Hl H. unfold drop_caps, cap_set_proc in *.
  rewrite must_first in *.
  destruct (answer kn t capget =? 0); [|discriminate H].
  unfold sys_bind at 1 in H. unfold sys_bind at 1.
  unfold last_cap at 1 in H. unfold last_cap at 1.
  rewrite Hl in *.
  set (idx := valid_caps 64 0 last) in *.
  set (kept := fold_left _ idx _) in *.
  rewrite must_first in *.
  destruct (answer kn _ (capset _ _ _) =? 0); [|discriminate H].
  unfold sys_bind at 1 in H. unfold sys_bind at 1.
  destruct (drop_bounding j idx kn _) as [[[]|] t1] eqn:Eb;
    [|discriminate H].
  pose proof (drop_bounding_trace j kn idx _
                ltac:(rewrite Eb; reflexivity)) as Et.
  rewrite Eb in Et. cbn [snd] in Et. subst t1.
  unfold must, sys_bind, sys in *.
  destruct (answer kn _ (capset _ _ _) =? 0); [|discriminate H].
  cbn [fst snd sys_ret].
  pose proof (valid_caps_nonneg 64 0 last (Z.le_refl 0)) as Hnn.
  fold idx in Hnn.
  destruct (kept_bits (caps j) idx Hnn (Build_cap_t 0 0 0) 0)
    as (_ & Hp & Hq).
  specialize (Hp eq_refl). specialize (Hq eq_refl).
  cbv zeta in Hp, Hq. fold kept in Hp, Hq.
  assert (Hbits : forall i, 0 <= i ->
            Z.testbit (effective kept) i =
            (Z.testbit (caps j) i || (i =? CAP_SETPCAP)) && (i <=? last)
            && (i <? 64)).
  { intros i Hi.
    destruct (kept_bits (caps j) idx Hnn (Build_cap_t 0 0 0) i)
      as (Hb & _ & _).
    cbv zeta in Hb. fold kept in Hb. rewrite Hb.
    cbn [effective]. rewrite Z.testbit_0_l. cbn [orb].
    assert (Hin : existsb (Z.eqb i) idx = (i <=? last) && (i <? 64)).
    { apply eq_true_iff_eq. rewrite existsb_exists, andb_true_iff.
      rewrite Z.leb_le, Z.ltb_lt. split.
      - intros (y & Hy & E). apply Z.eqb_eq in E. subst y.
        apply valid_caps_spec in Hy. lia.
      - intros [A B]. exists i. split; [|apply Z.eqb_refl].
        apply valid_caps_spec. lia. }
    rewrite Hin.
    destruct (Z.testbit (caps j) i), (i =? CAP_SETPCAP), (i <=? last),
      (i <? 64); reflexivity. }
  exists (effective kept).
  exists (effective
            (if negb (Z.testbit (caps j) CAP_SETPCAP)
             then cap_clear_all CAP_SETPCAP kept else kept)).
  exists (List.filter (fun i => negb (Z.testbit (caps j) i)) idx).
  split; [|split; [|split; [|split]]].
  - set (final := if negb (Z.testbit (caps j) CAP_SETPCAP)
                  then cap_clear_all CAP_SETPCAP kept else kept).
    assert (Fp : permitted final = effective final)
      by (unfold final; destruct (negb _); unfold cap_clear_all;
          cbn [permitted effective inheritable];
          rewrite <- ?Hp, <- ?Hq; reflexivity).
    assert (Fq : inheritable final = effective final)
      by (unfold final; destruct (negb _); unfold cap_clear_all;
          cbn [permitted effective inheritable];
          rewrite <- ?Hp, <- ?Hq; reflexivity).
    rewrite <- Hp, <- Hq, Fp, Fq, <- !app_assoc. reflexivity.
  - intros i Hi.
    destruct (Z.testbit (caps j) CAP_SETPCAP) eqn:E; cbn [negb].
    + rewrite Hbits by exact Hi.
      destruct (Z.eqb_spec i CAP_SETPCAP) as [->|N];
        [rewrite E|]; now rewrite ?orb_false_r.
    + cbn [cap_clear_all effective].
      destruct (Z.eqb_spec i CAP_SETPCAP) as [->|N].
      * rewrite Z.clearbit_eq, E. reflexivity.
      * rewrite Z.clearbit_neq by lia. rewrite Hbits by exact Hi.
        replace (i =? CAP_SETPCAP) with false
          by (symmetry; now apply Z.eqb_neq).
        now rewrite orb_false_r.
  - exact Hbits.
  - intros i. rewrite filter_In. unfold idx. rewrite valid_caps_spec.
    rewrite negb_true_iff. change (0 + Z.of_nat 64) with 64. tauto.
  - apply increasing_filter. unfold idx. apply increasing_valid_caps. lia.
Qed.

Lemma drop_caps_leaves_witness :
  exists first final dropped,
    snd (drop_caps dropping_policy willing_kernel []) =
    [] ++ [capget; capset first first first] ++
    map (prctl PR_CAPBSET_DROP) dropped ++ [capset final final final] /\
    (forall i, 0 <= i ->
       Z.testbit final i =
       Z.testbit (caps dropping_policy) i && (i <=? 37) && (i <? 64)) /\
    (forall i, 0 <= i ->
       Z.testbit first i =
       (Z.testbit (caps dropping_policy) i || (i =? CAP_SETPCAP))
       && (i <=? 37) && (i <? 64)) /\
    (forall i, In i dropped <->
       0 <= i <= 37 /\ i < 64 /\
       Z.testbit (caps dropping_policy) i = false) /\
    increasing_above (-1) dropped.
Proof.
  apply (drop_caps_leaves dropping_policy willing_kernel [] 37).
  - reflexivity.
  - vm_compute. reflexivity.
Defined.

(** * Supplementary groups go first *)

(** For a policy issued by the builder that changes the uid or the gid,
    a call of [drop_ugid] that returns has first reset the supplementary
    groups, with [initgroups] or [setgroups(0, NULL)], the kernel has
    granted that, and only then has it changed gid and uid. *)
Theorem groups_reset_before_ids (hst : host) (cs : list call) (h : heap)
    (j : minijail) (kn : kernel) (t : list syscall) :
  built_by hst cs h j ->
  flag j Flag.uid = true \/ flag j Flag.gid = true ->
  fst (drop_ugid j kn t) = Some tt ->
  exists g rest,
    snd (drop_ugid j kn t) = t ++ g :: rest /\
    group_call g = true /\ answer kn t g = 0 /\
    Forall (fun c => group_call c = false) rest.
Proof.
  intros Hb Hf H.
  destruct (built_jail_invariant hst cs h j Hb) as (Hu & Hg & _).
  assert (Hid : negb (uid j =? 0) || negb (gid j =? 0) = true).
  { destruct Hf as [F|F]; [apply Hu in F|apply Hg in F];
      apply Z.eqb_neq in F; rewrite F; cbn; now rewrite ?orb_true_r. }
  unfold drop_ugid in *. rewrite Hid in *. cbn [when] in *.
  assert (Hrest : forall t',
            exists rest,
              snd ((when (flag j Flag.gid)
                      (must (setresgid (gid j) (gid j) (gid j))) ;;
                    when (flag j Flag.uid)
                      (must (setresuid (uid j) (uid j) (uid j))))%sys kn t')
              = t' ++ rest /\
              Forall (fun c => group_call c = false) rest).
  { intros t'.
    assert (E : emits (fun c => group_call c = false)
                  (when (flag j Flag.gid)
                     (must (setresgid (gid j) (gid j) (gid j))) ;;
                   when (flag j Flag.uid)
                     (must (setresuid (uid j) (uid j) (uid j))))%sys)
      by emit.
    exact (E kn t'). }
  destruct (flag j Flag.usergroups).
  - rewrite must_first in *.
    destruct (Z.eqb_spec (answer kn t (initgroups (user j) (usergid j))) 0)
      as [E|E]; [|discriminate H].
    destruct (Hrest (t ++ [initgroups (user j) (usergid j)]))
      as (rest & Er & Fr).
    exists (initgroups (user j) (usergid j)), rest.
    rewrite Er, <- app_assoc. repeat split; auto.
  - rewrite must_first in *.
    destruct (Z.eqb_spec (answer kn t (setgroups 0)) 0)
      as [E|E]; [|discriminate H].
    destruct (Hrest (t ++ [setgroups 0])) as (rest & Er & Fr).
    exists (setgroups 0), rest.
    rewrite Er, <- app_assoc. repeat split; auto.
Qed.

Lemma dropping_policy_built :
  built_by small_host dropping_calls [] dropping_policy.
Proof. exists []. vm_compute. reflexivity. Qed.

Lemma groups_reset_before_ids_witness :
  exists g rest,
    snd (drop_ugid dropping_policy willing_kernel []) = [] ++ g :: rest /\
    group_call g = true /\ answer willing_kernel [] g = 0 /\
    Forall (fun c => group_call c = false) rest.
Proof.
  apply (groups_reset_before_ids small_host dropping_calls [] dropping_policy
           willing_kernel []).
  - exact dropping_policy_built.
  - left. reflexivity.
  - reflexivity.
Defined.

(** * The supervisor's exit status, as the parent reads it *)

Lemma land_255_range (n : Z) : 0 <= Z.land n 255 < 256.
Proof.
  change 255 with (Z.ones 8). rewrite Z.land_ones by lia.
  apply Z.mod_pos_bound. reflexivity.
Qed.

Lemma WEXITSTATUS_range (st : Z) : 0 <= WEXITSTATUS st < 256.
Proof.
  unfold WEXITSTATUS. rewrite Z.shiftr_land.
  change (Z.shiftr 65280 8) with 255. apply land_255_range.
Qed.

Lemma wait_exited (MINIJAIL_ERR_JAIL n : Z) :
  minijail_wait MINIJAIL_ERR_JAIL (inr (status_exited n)) = Z.land n 255.
Proof.
  assert (E : status_exited n = status_exited (Z.land n 255)).
  { unfold status_exited. now rewrite <- Z.land_assoc, Z.land_diag. }
  rewrite E. apply Z.eqb_eq.
  apply (forall_range
           (fun n => minijail_wait MINIJAIL_ERR_JAIL (inr (status_exited n))
                     =? n) 0 256); [vm_compute; reflexivity|].
  pose proof (land_255_range n). lia.
Qed.

(** With a pid namespace the parent waits for [init], which exits with a
    status of its own: [minijail_wait] then returns the exit status of
    the jailed program when that program exited and the alarm did not
    fire, and the low byte of [MINIJAIL_ERR_INIT] otherwise.  A program
    ended by a signal, [SIGSYS] included, is thus reported as
    [MINIJAIL_ERR_INIT], not as [128 + signal] or [MINIJAIL_ERR_JAIL]. *)
Theorem init_exit_seen_by_wait
    (MINIJAIL_ERR_JAIL MINIJAIL_ERR_INIT rootpid signal_override : Z)
    (children : list reaped) (usage : rusage) :
  minijail_wait MINIJAIL_ERR_JAIL
    (inr (status_exited
            (snd (init_exit MINIJAIL_ERR_INIT signal_override
                    (fst (init_reap rootpid children 0 usage)))))) =
  (if (signal_override =? 0)
      && WIFEXITED (fst (init_reap rootpid children 0 usage))
   then WEXITSTATUS (fst (init_reap rootpid children 0 usage))
   else Z.land MINIJAIL_ERR_INIT 255) /\
  (forall (s : Z) (core : bool) (u : rusage),
     1 <= s <= 126 ->
     minijail_wait MINIJAIL_ERR_JAIL
       (inr (status_exited
               (snd (init_exit MINIJAIL_ERR_INIT signal_override
                       (fst (init_reap rootpid
                               [Build_reaped rootpid (status_signaled s core)
                                  u] 0 usage)))))) =
     Z.land MINIJAIL_ERR_INIT 255).
Proof.
  split.
  - rewrite wait_exited. unfold init_exit.
    destruct (signal_override =? 0); cbn [negb andb]; [|reflexivity].
    destruct (WIFEXITED _); cbn [negb snd]; [|reflexivity].
    pose proof (WEXITSTATUS_range (fst (init_reap rootpid children 0 usage))).
    change 255 with (Z.ones 8). rewrite Z.land_ones by lia.
    apply Z.mod_small. change (2 ^ 8) with 256. lia.
  - intros s core u Hs. rewrite wait_exited. unfold init_exit, init_reap.
    cbn [fold_left reaped_pid reaped_status fst]. rewrite Z.eqb_refl.
    destruct (signal_override =? 0); cbn [negb snd]; [|reflexivity].
    assert (E : WIFEXITED (status_signaled s core) = false).
    { apply negb_true_iff.
      apply (forall_range
               (fun s => negb (WIFEXITED (status_signaled s core))) 1 126);
        [destruct core; vm_compute; reflexivity|lia]. }
    rewrite E. reflexivity.
Qed.

(** * The elapsed wall time *)

Lemma long_small (x : Z) : - 2 ^ 63 <= x < 2 ^ 63 -> long x = x.
Proof.
  intros H. unfold long, signed, wrap.
  change (2 ^ (64 - 1)) with (2 ^ 63) in *.
  destruct (Z_lt_le_dec x 0) as [N|N].
  - replace (x mod 2 ^ 64) with (x + 2 ^ 64).
    + destruct (Z.ltb_spec (x + 2 ^ 64) (2 ^ 63)); lia.
    + apply Z.mod_unique with (q := -1); lia.
  - rewrite Z.mod_small by lia.
    destruct (Z.ltb_spec x (2 ^ 63)); lia.
Qed.

(** With a meta file and two normalised samples of the clock, the second
    not before the first, the [time-wall] line that [init] prints holds
    the elapsed time in microseconds, rounded down; the difference that
    [init] forms in place is normalised and exact. *)
Theorem init_reports_elapsed (MINIJAIL_ERR_INIT : Z) (j : minijail)
    (t0 t1 : timespec) (signal_override init_exitstatus : Z)
    (usage : rusage) (w : Z) :
  flag j Flag.meta_file = true ->
  timespec_ok t0 -> timespec_ok t1 -> nanoseconds t0 <= nanoseconds t1 ->
  In (meta_time_wall w)
    (fst (init_epilogue MINIJAIL_ERR_INIT j t0 t1 signal_override
            init_exitstatus usage)) ->
  w = (nanoseconds t1 - nanoseconds t0) / 1000 /\
  nanoseconds (init_elapsed t0 t1) = nanoseconds t1 - nanoseconds t0 /\
  0 <= tv_nsec (init_elapsed t0 t1) < 1000000000.
Proof.
  intros Hm (Hs0 & Hn0) (Hs1 & Hn1) Hle Hin.
  unfold nanoseconds in *.
  change (2 ^ 33) with 8589934592 in *.
  assert (Hel : nanoseconds (init_elapsed t0 t1) =
                1000000000 * tv_sec t1 + tv_nsec t1
                - (1000000000 * tv_sec t0 + tv_nsec t0) /\
                0 <= tv_nsec (init_elapsed t0 t1) < 1000000000).
  { unfold nanoseconds, init_elapsed.
    rewrite (long_small (tv_sec t1 - tv_sec t0))
      by (change (2 ^ 63) with 9223372036854775808; lia).
    destruct (Z.ltb_spec (tv_nsec t1) (tv_nsec t0)); cbn [tv_sec tv_nsec];
      rewrite !long_small
        by (rewrite ?long_small;
            change (2 ^ 63) with 9223372036854775808; lia);
      lia. }
  destruct Hel as [Hex Hrange]. split; [|split; [exact Hex|exact Hrange]].
  unfold init_epilogue in Hin. rewrite Hm in Hin.
  destruct (init_exit _ _ _) as [sig status]. cbn [fst] in Hin.
  assert (Hw : w = c_div (long (long (1000000000
                                        * tv_sec (init_elapsed t0 t1))
                                  + tv_nsec (init_elapsed t0 t1))) 1000).
  { cbn [app In] in Hin.
    destruct Hin as [F|[F|[F|F]]]; try discriminate F.
    - now inversion F.
    - destruct (negb (sig =? 0)); destruct F as [F|F];
        try discriminate F; contradiction. }
  rewrite Hw. unfold nanoseconds in Hex.
  assert (Hsec : 0 <= tv_sec (init_elapsed t0 t1) < 8589934592) by lia.
  rewrite !long_small
    by (rewrite ?long_small;
        change (2 ^ 63) with 9223372036854775808; lia).
  rewrite Hex. unfold c_div. apply Z.quot_div_nonneg; lia.
Qed.

Lemma init_reports_elapsed_witness :
  2500000 = (nanoseconds (Build_timespec 12 100000000)
             - nanoseconds (Build_timespec 9 600000000)) / 1000 /\
  nanoseconds (init_elapsed (Build_timespec 9 600000000)
                 (Build_timespec 12 100000000)) =
  nanoseconds (Build_timespec 12 100000000)
  - nanoseconds (Build_timespec 9 600000000) /\
  0 <= tv_nsec (init_elapsed (Build_timespec 9 600000000)
                  (Build_timespec 12 100000000)) < 1000000000.
Proof.
  apply (init_reports_elapsed 252 meta_policy (Build_timespec 9 600000000)
           (Build_timespec 12 100000000) 0 0 (Build_rusage 1 0 2048)).
  - reflexivity.
  - unfold timespec_ok. cbn. lia.
  - unfold timespec_ok. cbn. lia.
  - vm_compute. discriminate.
  - vm_compute. right. left. reflexivity.
Defined.

(** * Joining two paths in an array *)

Lemma write_at_end (s x bs : list byte) :
  write_at (s ++ x) (List.length s) bs = s ++ write_at x 0 bs.
Proof.
  induction s as [|c s IH]; [reflexivity|].
  cbn [app List.length write_at]. now rewrite IH.
Qed.

Lemma write_at_front (x bs : list byte) :
  (List.length bs <= List.length x)%nat ->
  write_at x 0 bs = bs ++ skipn (List.length bs) x.
Proof.
  revert bs. induction x as [|c x IH]; intros [|b bs] H; cbn in H;
    try reflexivity; try lia.
  cbn [write_at List.length skipn app]. f_equal. apply IH. lia.
Qed.

Lemma nth_last_byte (s rest : list byte) :
  s <> [] ->
  nth (List.length s - 1) (s ++ rest) NUL = last_byte s.
Proof.
  intros H. unfold last_byte.
  induction s as [|c s IH]; [contradiction|].
  destruct s as [|d s]; [reflexivity|].
  cbn [List.length] in *. replace (S (S (List.length s)) - 1)%nat
    with (S (List.length s)) by lia.
  change (nth (S (List.length s)) ((c :: d :: s) ++ rest) NUL)
    with (nth (List.length s) ((d :: s) ++ rest) NUL).
  replace (List.length s) with (S (List.length s) - 1)%nat at 1 by lia.
  rewrite IH by discriminate. reflexivity.
Qed.

Lemma cstr_ok_app (a b : cstr) : cstr_ok a -> cstr_ok b -> cstr_ok (a ++ b).
Proof.
  unfold cstr_ok. intros Ha Hb Hin. apply in_app_or in Hin. tauto.
Qed.

Lemma cstr_ok_firstn (n : nat) (a : cstr) : cstr_ok a -> cstr_ok (firstn n a).
Proof.
  unfold cstr_ok. intros Ha Hin. apply Ha.
  rewrite <- (firstn_skipn n a). apply in_or_app. now left.
Qed.

Lemma cstr_ok_tl (a : cstr) : cstr_ok a -> cstr_ok (tl a).
Proof.
  unfold cstr_ok. intros Ha Hin. apply Ha. destruct a; [exact Hin|].
  now right.
Qed.

Lemma cstr_ok_slash (p : cstr) : cstr_ok p -> cstr_ok (SLASH :: p).
Proof.
  unfold cstr_ok. intros Hp [F|F]; [discriminate F|contradiction].
Qed.

Lemma write_string (s rest body pad : list byte) :
  cstr_ok s -> cstr_ok body ->
  (List.length (body ++ NUL :: pad) <= List.length (NUL :: rest))%nat ->
  let b' := write_at (s ++ NUL :: rest) (List.length s) (body ++ NUL :: pad) in
  List.length b' = List.length (s ++ NUL :: rest) /\
  c_string b' = s ++ body.
Proof.
  intros Hs Hb Hfit. cbv zeta.
  rewrite write_at_end, write_at_front by exact Hfit.
  split.
  - rewrite !length_app, length_skipn. rewrite length_app in Hfit. lia.
  - rewrite <- (app_assoc body), <- app_comm_cons, app_assoc.
    apply c_string_padded. now apply cstr_ok_app.
Qed.

Lemma strncpy_whole (src : cstr) (n : nat) :
  (List.length src < n)%nat ->
  strncpy_bytes src n = src ++ NUL :: repeat NUL (n - List.length src - 1).
Proof.
  intros H. unfold strncpy_bytes. rewrite firstn_all2 by lia.
  destruct (n - List.length src)%nat as [|k] eqn:E; [lia|].
  replace (S k - 1)%nat with k by lia. reflexivity.
Qed.

Lemma length_strncpy (src : cstr) (n : nat) :
  (List.length src <= n)%nat -> List.length (strncpy_bytes src n) = n.
Proof.
  intros H. unfold strncpy_bytes.
  rewrite length_app, repeat_length, length_firstn. lia.
Qed.

Ltac last_join :=
  match goal with
  | Hjoin : _ -> _ /\ _ |- _ =>
      first [ exact Hjoin
            | cbn [negb andb] in Hjoin; exact Hjoin
            | let Hx := fresh in intros Hx; cbn in Hx; discriminate Hx ]
  end.

Ltac failed_join :=
  match goal with
  | Hc : c_string _ = _ |- _ =>
      split; [reflexivity|split; [reflexivity|split; [exact Hc|last_join]]]
  end.

Ltac done_join A B := split; [exact A|split; [exact B|last_join]].

(** [concat_path] on an array that holds the string [s], given a size
    [buffer_len] that the array has: it returns 0 exactly when the two
    strings, the separator it has to add and one more byte fit in
    [buffer_len], and -1 otherwise, leaving [s] in place; the array keeps
    its length.  With 0 the array holds [s] and [path] with exactly one
    separator at the seam when either side brings one, and the whole of
    both when a separator is added and there are two bytes to spare; with
    only one byte to spare the added separator costs the last byte of
    [path]. *)
Theorem concat_path_joins (s rest : list byte) (p : cstr) (buffer_len : Z) :
  cstr_ok s -> cstr_ok p ->
  0 <= buffer_len <= Z.of_nat (List.length (s ++ NUL :: rest)) ->
  buffer_len < 2 ^ 64 -> strlen s + strlen p + 1 < 2 ^ 64 ->
  exists b',
    concat_path (s ++ NUL :: rest) buffer_len (Some p) =
    (if strlen s + strlen p + (if needs_separator s p then 1 else 0)
        <? buffer_len then 0 else -1, b') /\
    List.length b' = List.length (s ++ NUL :: rest) /\
    c_string b' =
    (if strlen s + strlen p + (if needs_separator s p then 1 else 0)
        <? buffer_len then joined s p buffer_len else s) /\
    (needs_separator s p = true ->
     (strlen s + strlen p + 3 <= buffer_len ->
      joined s p buffer_len = s ++ SLASH :: p) /\
     (strlen s + strlen p + 2 = buffer_len ->
      joined s p buffer_len = s ++ removelast (SLASH :: p))).
Proof.
  intros Hs Hp Hlen Hmax Hsum.
  assert (Hjoin : needs_separator s p = true ->
     (strlen s + strlen p + 3 <= buffer_len ->
      joined s p buffer_len = s ++ SLASH :: p) /\
     (strlen s + strlen p + 2 = buffer_len ->
      joined s p buffer_len = s ++ removelast (SLASH :: p))).
  { intros Hn. unfold joined. rewrite Hn. unfold strlen in *. split; intros H.
    - rewrite firstn_all2; [reflexivity|]. cbn [List.length]. lia.
    - f_equal. rewrite removelast_firstn_len. f_equal.
      cbn [List.length]. lia. }
  unfold concat_path.
  rewrite (array_strlen_padded s rest Hs).
  fold (strlen s).
  assert (Hlast : strlen s <> 0 ->
            byte_at (s ++ NUL :: rest) (strlen s - 1) = last_byte s).
  { intros Hne. unfold byte_at, strlen in *.
    replace (Z.to_nat (Z.of_nat (List.length s) - 1))
      with (List.length s - 1)%nat by lia.
    apply nth_last_byte. destruct s; [cbn in Hne; lia|discriminate]. }
  assert (Hc : c_string (s ++ NUL :: rest) = s) by now apply c_string_padded.
  assert (Hn : 0 <= strlen s /\ 0 <= strlen p) by (unfold strlen; lia).
  assert (HN : Z.of_nat (List.length (s ++ NUL :: rest)) =
               strlen s + 1 + Z.of_nat (List.length rest)).
  { unfold strlen. rewrite length_app. cbn [List.length]. lia. }
  unfold needs_separator, joined, needs_separator, doubled_separator in *.
  destruct (Z.eqb_spec (strlen s) 0) as [E0|E0]; cbn [negb andb].
  - rewrite wrap_small_64 by lia.
    destruct (Z.ltb_spec (strlen s + strlen p + 0) buffer_len) as [F|F];
      (destruct (Z.geb_spec (strlen s + strlen p) buffer_len); [|]);
      try lia; [|eexists; failed_join].
    eexists. split; [reflexivity|].
    rewrite wrap_small_64 by lia.
    unfold strlen in *. replace (Z.to_nat (Z.of_nat (List.length s)))
      with (List.length s) by lia.
    rewrite strncpy_whole by lia.
    destruct (write_string s rest p
                (repeat NUL (Z.to_nat (buffer_len - Z.of_nat (List.length s))
                             - List.length p - 1)) Hs Hp) as [A B].
    { rewrite length_app. cbn [List.length]. rewrite repeat_length. lia. }
    done_join A B.
  - rewrite (Hlast E0).
    destruct (Byte.eqb (last_byte s) SLASH) eqn:El;
      destruct (Byte.eqb (first_byte p) SLASH) eqn:Ef; cbn [negb andb].
    + (* both bring a separator *)
      rewrite wrap_small_64 by lia.
      destruct (Z.ltb_spec (strlen s + strlen p + 0) buffer_len) as [F|F];
        (destruct (Z.geb_spec (strlen s + strlen p) buffer_len); [|]);
        try lia; [|eexists; failed_join].
      eexists. split; [reflexivity|].
      rewrite wrap_small_64 by lia.
      unfold strlen in *. replace (Z.to_nat (Z.of_nat (List.length s)))
        with (List.length s) by lia.
      assert (Ht : (List.length (tl p) <= List.length p)%nat)
        by (destruct p; cbn; lia).
      rewrite strncpy_whole by lia.
      destruct (write_string s rest (tl p)
                  (repeat NUL
                     (Z.to_nat (buffer_len - Z.of_nat (List.length s))
                      - List.length (tl p) - 1)) Hs (cstr_ok_tl p Hp))
        as [A B].
      { rewrite length_app. cbn [List.length]. rewrite repeat_length. lia. }
      done_join A B.
    + rewrite wrap_small_64 by lia.
      destruct (Z.ltb_spec (strlen s + strlen p + 0) buffer_len) as [F|F];
        (destruct (Z.geb_spec (strlen s + strlen p) buffer_len); [|]);
        try lia; [|eexists; failed_join].
      eexists. split; [reflexivity|].
      rewrite wrap_small_64 by lia.
      unfold strlen in *. replace (Z.to_nat (Z.of_nat (List.length s)))
        with (List.length s) by lia.
      rewrite strncpy_whole by lia.
      destruct (write_string s rest p
                  (repeat NUL
                     (Z.to_nat (buffer_len - Z.of_nat (List.length s))
                      - List.length p - 1)) Hs Hp) as [A B].
      { rewrite length_app. cbn [List.length]. rewrite repeat_length. lia. }
      done_join A B.
    + rewrite wrap_small_64 by lia.
      destruct (Z.ltb_spec (strlen s + strlen p + 0) buffer_len) as [F|F];
        (destruct (Z.geb_spec (strlen s + strlen p) buffer_len); [|]);
        try lia; [|eexists; failed_join].
      eexists. split; [reflexivity|].
      rewrite wrap_small_64 by lia.
      unfold strlen in *. replace (Z.to_nat (Z.of_nat (List.length s)))
        with (List.length s) by lia.
      rewrite strncpy_whole by lia.
      destruct (write_string s rest p
                  (repeat NUL
                     (Z.to_nat (buffer_len - Z.of_nat (List.length s))
                      - List.length p - 1)) Hs Hp) as [A B].
      { rewrite length_app. cbn [List.length]. rewrite repeat_length. lia. }
      done_join A B.
    + (* a separator is added *)
      rewrite wrap_small_64 by lia.
      destruct (Z.ltb_spec (strlen s + strlen p + 1) buffer_len) as [F|F];
        (destruct (Z.geb_spec (strlen s + strlen p + 1) buffer_len); [|]);
        try lia; [|eexists; failed_join].
      eexists. split; [reflexivity|].
      rewrite wrap_small_64 by lia.
      unfold strlen in *. replace (Z.to_nat (Z.of_nat (List.length s)))
        with (List.length s) by lia.
      unfold snprintf_bytes.
      destruct (Z.to_nat (buffer_len - Z.of_nat (List.length s) - 1))
        as [|room] eqn:Er; [lia|].
      assert (Eroom : Z.to_nat (buffer_len - Z.of_nat (List.length s) - 2)
                      = room) by lia.
      rewrite Eroom in *.
      destruct (write_string s rest (firstn room (SLASH :: p)) [] Hs
                  (cstr_ok_firstn room _ (cstr_ok_slash p Hp))) as [A B].
      { rewrite length_app, length_firstn. cbn [List.length]. lia. }
      done_join A B.
Qed.

Lemma concat_path_joins_witness :
  exists b',
    concat_path (cs "a" ++ NUL :: [NUL; NUL; NUL]) 5 (Some (cs "bc")) =
    (if strlen (cs "a") + strlen (cs "bc")
        + (if needs_separator (cs "a") (cs "bc") then 1 else 0) <? 5
     then 0 else -1, b') /\
    List.length b' = List.length (cs "a" ++ NUL :: [NUL; NUL; NUL]) /\
    c_string b' =
    (if strlen (cs "a") + strlen (cs "bc")
        + (if needs_separator (cs "a") (cs "bc") then 1 else 0) <? 5
     then joined (cs "a") (cs "bc") 5 else cs "a") /\
    (needs_separator (cs "a") (cs "bc") = true ->
     (strlen (cs "a") + strlen (cs "bc") + 3 <= 5 ->
      joined (cs "a") (cs "bc") 5 = cs "a" ++ SLASH :: cs "bc") /\
     (strlen (cs "a") + strlen (cs "bc") + 2 = 5 ->
      joined (cs "a") (cs "bc") 5 =
      cs "a" ++ removelast (SLASH :: cs "bc"))).
Proof.
  apply (concat_path_joins (cs "a") [NUL; NUL; NUL] (cs "bc") 5).
  - apply cstr_ok_dec. reflexivity.
  - apply cstr_ok_dec. reflexivity.
  - cbn. lia.
  - reflexivity.
  - reflexivity.
Defined.

(** * Rules for the calls of a process *)

Section Rules.

Variable kn : kernel.

Lemma hoare_ret {A} (P : list syscall -> Prop) (a : A)
    (Q : A -> list syscall -> Prop) :
  (forall t, P t -> Q a t) -> hoare kn P (sys_ret a) Q.
Proof. intros H t Ht a' E. cbn in *. inversion E; subst. now apply H. Qed.

Lemma hoare_die {A} (P : list syscall -> Prop)
    (Q : A -> list syscall -> Prop) :
  hoare kn P sys_die Q.
Proof. intros t Ht a E. discriminate E. Qed.

Lemma hoare_bind {A B} (P : list syscall -> Prop) (c : Sys A)
    (R : A -> list syscall -> Prop) (f : A -> Sys B)
    (Q : B -> list syscall -> Prop) :
  hoare kn P c R -> (forall a, hoare kn (R a) (f a) Q) ->
  hoare kn P (sys_bind c f) Q.
Proof.
  intros Hc Hf t Ht b E. unfold sys_bind in *.
  specialize (Hc t Ht).
  destruct (c kn t) as [[a|] t1]; [|discriminate E].
  cbn [fst snd] in Hc. apply (Hf a t1); [now apply Hc|exact E].
Qed.

Lemma hoare_pre {A} (P P' : list syscall -> Prop) (c : Sys A)
    (Q : A -> list syscall -> Prop) :
  (forall t, P t -> P' t) -> hoare kn P' c Q -> hoare kn P c Q.
Proof. intros HP H t Ht. apply H. now apply HP. Qed.

Lemma hoare_post {A} (P : list syscall -> Prop) (c : Sys A)
    (Q Q' : A -> list syscall -> Prop) :
  (forall a t, Q' a t -> Q a t) -> hoare kn P c Q' -> hoare kn P c Q.
Proof. intros HQ H t Ht a E. apply HQ. now apply H. Qed.

Lemma hoare_sys (P : list syscall -> Prop) (c : syscall)
    (Q : Z -> list syscall -> Prop) :
  (forall t, P t -> Q (answer kn t c) (t ++ [c])) -> hoare kn P (sys c) Q.
Proof. intros H t Ht a E. cbn in *. inversion E; subst. now apply H. Qed.

Lemma hoare_must (P : list syscall -> Prop) (c : syscall)
    (Q : unit -> list syscall -> Prop) :
  (forall t, P t -> answer kn t c = 0 -> Q tt (t ++ [c])) ->
  hoare kn P (must c) Q.
Proof.
  intros H t Ht a E. unfold must, sys_bind, sys in *.
  destruct (Z.eqb_spec (answer kn t c) 0) as [E0|E0]; [|discriminate E].
  cbn in *. destruct a. now apply H.
Qed.

Lemma hoare_when (P : list syscall -> Prop) (b : bool) (c : Sys unit)
    (Q : unit -> list syscall -> Prop) :
  hoare kn P c Q -> (forall t, P t -> Q tt t) -> hoare kn P (when b c) Q.
Proof. intros Hc Hs. destruct b; [exact Hc|now apply hoare_ret]. Qed.

Lemma hoare_must_succeed (P : list syscall -> Prop) (c : Sys Z)
    (Q : unit -> list syscall -> Prop) :
  hoare kn P c (fun r t => r = 0 -> Q tt t) ->
  hoare kn P (must_succeed c) Q.
Proof.
  intros Hc. unfold must_succeed. eapply hoare_bind; [exact Hc|].
  intros r. destruct (Z.eqb_spec r 0) as [E|E]; [|apply hoare_die].
  apply hoare_ret. auto.
Qed.

Lemma hoare_last_cap {B} (P : list syscall -> Prop) (f : Z -> Sys B)
    (Q : B -> list syscall -> Prop) :
  (forall x, hoare kn P (f x) Q) -> hoare kn P (sys_bind last_cap f) Q.
Proof.
  intros H t Ht b E. unfold sys_bind, last_cap in *.
  destruct (cap_last_cap kn) as [x|]; [|discriminate E].
  now apply (H x t).
Qed.

(** ** Calls that were granted *)

Lemma all_granted_nil : all_granted kn [].
Proof. intros [|i] x H; discriminate H. Qed.

Lemma all_granted_snoc (t : list syscall) (c : syscall) :
  all_granted kn t -> (ignorable c = false -> answer kn t c = 0) ->
  all_granted kn (t ++ [c]).
Proof.
  intros Ht Hc i x Hx Hv.
  destruct (Nat.lt_ge_cases i (List.length t)) as [L|L].
  - rewrite nth_error_app1 in Hx by exact L.
    rewrite firstn_app. replace (i - List.length t)%nat with O by lia.
    cbn [firstn]. rewrite app_nil_r. now apply Ht.
  - rewrite nth_error_app2 in Hx by exact L.
    destruct (i - List.length t)%nat as [|k] eqn:E; cbn in Hx;
      [|now destruct k].
    inversion Hx; subst x.
    replace i with (List.length t) by lia.
    rewrite firstn_app, Nat.sub_diag, firstn_all. cbn [firstn].
    rewrite app_nil_r. now apply Hc.
Qed.

(** A call whose failure ends the process. *)
Lemma granted_must (c : syscall) : hoare kn (all_granted kn) (must c) (fun _ => (all_granted kn)).
Proof.
  apply hoare_must. intros t Ht E. apply all_granted_snoc; auto.
Qed.

(** A call whose answer decides what follows: what follows starts from
    a granted trace if the answer was 0. *)
Lemma granted_sys {B} (c : syscall) (f : Z -> Sys B)
    (Q : B -> list syscall -> Prop) :
  ignorable c = false ->
  (forall r, hoare kn (fun t => r = 0 -> all_granted kn t) (f r) Q) ->
  hoare kn (all_granted kn) (sys_bind (sys c) f) Q.
Proof.
  intros Hi Hf t Ht b E. unfold sys_bind, sys in *. cbn [fst snd] in *.
  apply (Hf (answer kn t c) (t ++ [c])); [|exact E].
  intros E0. apply all_granted_snoc; auto.
Qed.

(** A call whose answer the library does not look at. *)
Lemma granted_ignored {B} (c : syscall) (f : Z -> Sys B)
    (Q : B -> list syscall -> Prop) :
  ignorable c = true ->
  (forall r, hoare kn (all_granted kn) (f r) Q) ->
  hoare kn (all_granted kn) (sys_bind (sys c) f) Q.
Proof.
  intros Hi Hf t Ht b E. unfold sys_bind, sys in *. cbn [fst snd] in *.
  apply (Hf (answer kn t c) (t ++ [c])); [|exact E].
  apply all_granted_snoc; [exact Ht|]. intros F. rewrite Hi in F.
  discriminate F.
Qed.

Lemma granted_checked {B} (r : Z) (x : B) (k : Sys B)
    (Q : B -> list syscall -> Prop) :
  (r <> 0 -> forall t, Q x t) -> hoare kn (all_granted kn) k Q ->
  hoare kn (fun t => r = 0 -> all_granted kn t)
    (if negb (r =? 0) then sys_ret x else k) Q.
Proof.
  intros Hx Hk. destruct (Z.eqb_spec r 0) as [E|E]; cbn [negb].
  - eapply hoare_pre; [|exact Hk]. intros t H. now apply H.
  - apply hoare_ret. intros t _. now apply Hx.
Qed.

Lemma granted_sys_last (c : syscall) :
  ignorable c = false ->
  hoare kn (all_granted kn) (sys c) (fun r t => r = 0 -> all_granted kn t).
Proof.
  intros Hi. apply hoare_sys. intros t Ht E. apply all_granted_snoc; auto.
Qed.

Lemma granted_seq {B} (c : Sys unit) (f : unit -> Sys B)
    (Q : B -> list syscall -> Prop) :
  hoare kn (all_granted kn) c (fun _ => (all_granted kn)) -> hoare kn (all_granted kn) (f tt) Q ->
  hoare kn (all_granted kn) (sys_bind c f) Q.
Proof.
  intros Hc Hf. eapply hoare_bind; [exact Hc|]. intros []. exact Hf.
Qed.

End Rules.

(** * The calls of the library are granted or the process ends *)

Ltac grant_step :=
  match goal with
  | |- hoare _ _ (sys_ret _) _ =>
      apply hoare_ret; intros; first [assumption|discriminate|contradiction]
  | |- hoare _ _ sys_die _ => apply hoare_die
  | |- hoare _ _ mount_tmp _ => unfold mount_tmp
  | |- hoare _ (all_granted _) (must _) _ => apply granted_must
  | |- hoare _ (all_granted _) (when _ _) _ =>
      apply hoare_when; [|intros; assumption]
  | |- hoare _ (all_granted _) (must_succeed _) _ =>
      apply hoare_must_succeed
  | |- hoare _ (all_granted _) (sys_bind (sys _) _) _ =>
      first [ apply granted_sys; [reflexivity|intros ?r]
            | apply granted_ignored; [reflexivity|intros ?r] ]
  | |- hoare _ (all_granted _) (sys _) _ =>
      apply granted_sys_last; reflexivity
  | |- hoare _ (all_granted _) (sys_bind last_cap _) _ =>
      apply hoare_last_cap; intros
  | |- hoare _ (all_granted _) (sys_bind _ _) _ => apply granted_seq
  | |- hoare _ (fun t => ?r = 0 -> all_granted _ t)
         (if negb (?r =? 0) then _ else _) _ =>
      apply granted_checked;
      [intros; first [contradiction|discriminate]|]
  | |- hoare _ _ (if ?b then _ else _) _ => destruct b
  end.

Ltac grant := repeat grant_step.

Lemma granted_bind_one (kn : kernel) (j : minijail) (next : list binding) :
  forall b,
  hoare kn (all_granted kn) (bind_one j b next)
    (fun r t => r = 0 -> all_granted kn t).
Proof.
  induction next as [|b' next IH]; intros b; cbn [bind_one]; grant.
  apply IH.
Qed.

Lemma granted_enter_chroot (kn : kernel) (j : minijail) :
  hoare kn (all_granted kn) (enter_chroot j)
    (fun r t => r = 0 -> all_granted kn t).
Proof.
  unfold enter_chroot.
  apply hoare_bind with (R := fun r t => r = 0 -> all_granted kn t).
  - destruct (bindings j); [grant|apply granted_bind_one].
  - intros r. grant.
Qed.

Lemma granted_remount_readonly (kn : kernel) (j : minijail) :
  hoare kn (all_granted kn) (remount_readonly j)
    (fun r t => r = 0 -> all_granted kn t).
Proof. unfold remount_readonly. grant. Qed.

Lemma granted_setup_limits (kn : kernel) (j : minijail) :
  hoare kn (all_granted kn) (setup_limits j)
    (fun r t => r = 0 -> all_granted kn t).
Proof. unfold setup_limits. grant. Qed.

Lemma granted_drop_ugid (kn : kernel) (j : minijail) :
  hoare kn (all_granted kn) (drop_ugid j) (fun _ => all_granted kn).
Proof. unfold drop_ugid. grant. Qed.

Lemma granted_drop_bounding (kn : kernel) (j : minijail) (idx : list Z) :
  hoare kn (all_granted kn) (drop_bounding j idx) (fun _ => all_granted kn).
Proof.
  induction idx as [|i idx IH]; cbn [drop_bounding]; grant. exact IH.
Qed.

Lemma granted_drop_caps (kn : kernel) (j : minijail) :
  hoare kn (all_granted kn) (drop_caps j) (fun _ => all_granted kn).
Proof.
  unfold drop_caps, cap_set_proc. grant. apply granted_drop_bounding.
Qed.

Lemma granted_set_seccomp_filter (kn : kernel) (j : minijail) :
  hoare kn (all_granted kn) (set_seccomp_filter j) (fun _ => all_granted kn).
Proof. unfold set_seccomp_filter. grant. Qed.

Lemma granted_enter (kn : kernel) (j : minijail) :
  hoare kn (all_granted kn) (minijail_enter j) (fun _ => all_granted kn).
Proof.
  unfold minijail_enter.
  destruct (flag j Flag.pids); [grant|].
  destruct (_ && _); [grant|].
  grant;
    first [ apply granted_enter_chroot | apply granted_remount_readonly
          | apply granted_drop_ugid | apply granted_drop_caps
          | apply granted_set_seccomp_filter ].
Qed.

Lemma granted_run_static (kn : kernel) (j : minijail) (filename : cstr)
    (argv : list cstr) (child_pid child_pid' : Z) :
  hoare kn (all_granted kn)
    (minijail_run_static j filename argv child_pid child_pid')
    (fun e t =>
       forall f a, e = Executes f a ->
       all_granted kn t /\ f = filename /\ a = argv /\ child_pid = 0 /\
       flag j Flag.caps = false).
Proof.
  unfold minijail_run_static.
  destruct (flag j Flag.caps); [apply hoare_die|].
  destruct (child_pid <? 0) eqn:E1; [apply hoare_die|].
  destruct (child_pid >? 0) eqn:E2;
    [apply hoare_ret; intros; discriminate|].
  assert (child_pid = 0) by lia.
  apply granted_seq; [apply granted_enter|].
  destruct (_ && _); [apply hoare_ret; intros; discriminate|].
  destruct (_ && _); [apply hoare_ret; intros; discriminate|].
  apply granted_seq.
  { apply hoare_when; [|intros; assumption].
    apply hoare_must_succeed, granted_enter_chroot. }
  apply granted_seq.
  { apply hoare_must_succeed, granted_setup_limits. }
  apply hoare_ret. intros t Ht f a E. inversion E; subst. auto.
Qed.

(** A process in which [minijail_run_static] reaches [execve] is the
    child (its [fork] returned 0) of a policy without the capability
    flag, and the kernel has granted every call the process made before:
    each unshare, mount, chroot and chdir, each change of groups, gid and
    uid, each step of the filter installation and each resource limit.
    Only the unmount of [binfmt_misc] and [ualarm] may have failed. *)
Theorem static_target_runs_fully_jailed (kn : kernel) (j : minijail)
    (filename : cstr) (argv : list cstr) (child_pid child_pid' : Z)
    (f : cstr) (a : list cstr) :
  fst (minijail_run_static j filename argv child_pid child_pid' kn []) =
  Some (Executes f a) ->
  all_granted kn
    (snd (minijail_run_static j filename argv child_pid child_pid' kn [])) /\
  f = filename /\ a = argv /\ child_pid = 0 /\ flag j Flag.caps = false.
Proof.
  intros H.
  exact (granted_run_static kn j filename argv child_pid child_pid' []
           (all_granted_nil kn) (Executes f a) H f a eq_refl).
Qed.

Lemma static_target_runs_fully_jailed_witness :
  all_granted willing_kernel
    (snd (minijail_run_static static_policy (cs "/bin/true") [cs "true"]
            0 0 willing_kernel [])) /\
  cs "/bin/true" = cs "/bin/true" /\ [cs "true"] = [cs "true"] /\
  0 = 0 /\ flag static_policy Flag.caps = false.
Proof.
  apply (static_target_runs_fully_jailed willing_kernel static_policy
           (cs "/bin/true") [cs "true"] 0 0 (cs "/bin/true") [cs "true"]).
  vm_compute. reflexivity.
Defined.

(** * A static target changes root twice *)

Section Elsewhere.

(** A property of every call but [chroot]. *)
Variable P : syscall -> Prop.
Hypothesis P_other : forall c, is_chroot c = false -> P c.

Ltac other := emit; try (apply P_other; reflexivity).

Lemma other_bind_one (j : minijail) (next : list binding) :
  forall b, emits P (bind_one j b next).
Proof.
  induction next as [|b' next IH]; intros b; cbn [bind_one]; other.
  apply IH.
Qed.

Lemma other_remount_readonly (j : minijail) : emits P (remount_readonly j).
Proof. unfold remount_readonly. other. Qed.

Lemma other_setup_limits (j : minijail) : emits P (setup_limits j).
Proof. unfold setup_limits. other. Qed.

Lemma other_drop_ugid (j : minijail) : emits P (drop_ugid j).
Proof. unfold drop_ugid. other. Qed.

Lemma other_drop_bounding (j : minijail) (idx : list Z) :
  emits P (drop_bounding j idx).
Proof.
  induction idx as [|i idx IH]; cbn [drop_bounding]; other. exact IH.
Qed.

Lemma other_drop_caps (j : minijail) : emits P (drop_caps j).
Proof.
  unfold drop_caps, cap_set_proc. other. apply other_drop_bounding.
Qed.

Lemma other_set_seccomp_filter (j : minijail) :
  emits P (set_seccomp_filter j).
Proof. unfold set_seccomp_filter. other. Qed.

End Elsewhere.

Lemma emits_keeps_count {A} (kn : kernel) (c : Sys A)
    (l : list syscall) :
  emits (fun x => is_chroot x = false) c ->
  hoare kn (fun t => List.filter is_chroot t = l) c
    (fun _ t => List.filter is_chroot t = l).
Proof.
  intros He t Ht a _. destruct (He kn t) as (tr & E & F).
  rewrite E, filter_app, Ht.
  assert (Hz : List.filter is_chroot tr = []).
  { clear E. induction F as [|x tr Hx _ IH]; [reflexivity|].
    cbn [List.filter]. rewrite Hx. exact IH. }
  rewrite Hz. apply app_nil_r.
Qed.

Lemma count_enter_chroot (kn : kernel) (j : minijail) (l : list syscall) :
  hoare kn (fun t => List.filter is_chroot t = l) (enter_chroot j)
    (fun r t =>
       r = 0 -> List.filter is_chroot t = l ++ [sys_chroot (chrootdir j)]).
Proof.
  unfold enter_chroot.
  apply hoare_bind with (R := fun _ t => List.filter is_chroot t = l).
  - apply emits_keeps_count.
    destruct (bindings j); [apply emits_ret|apply other_bind_one; auto].
  - intros r. destruct (Z.eqb_spec r 0) as [E|E]; cbn [negb];
      [|apply hoare_ret; intros; contradiction].
    apply hoare_bind
      with (R := fun _ t =>
                   List.filter is_chroot t = l ++ [sys_chroot (chrootdir j)]).
    + apply hoare_sys. intros t Ht. rewrite filter_app, Ht. reflexivity.
    + intros r1. destruct (Z.eqb_spec r1 0) as [E1|E1]; cbn [negb];
        [|apply hoare_ret; intros; contradiction].
      apply hoare_bind
        with (R := fun _ t =>
                     List.filter is_chroot t =
                     l ++ [sys_chroot (chrootdir j)]).
      * apply hoare_sys. intros t Ht. rewrite filter_app, Ht. cbn.
        apply app_nil_r.
      * intros r2. destruct (Z.eqb_spec r2 0) as [E2|E2]; cbn [negb];
          apply hoare_ret; intros; (contradiction || assumption).
Qed.

Lemma count_seq {B} (kn : kernel) (c : Sys unit) (k : Sys B)
    (l : list syscall) (Q : B -> list syscall -> Prop) :
  emits (fun x => is_chroot x = false) c ->
  hoare kn (fun t => List.filter is_chroot t = l) k Q ->
  hoare kn (fun t => List.filter is_chroot t = l) (c ;; k)%sys Q.
Proof.
  intros Hc Hk. eapply hoare_bind; [apply emits_keeps_count, Hc|].
  intros u. exact Hk.
Qed.

Ltac elsewhere :=
  emit; try reflexivity;
  first [ apply other_drop_ugid | apply other_drop_caps
        | apply other_set_seccomp_filter | apply other_remount_readonly
        | apply other_setup_limits ];
  auto.

Lemma count_enter (kn : kernel) (j : minijail) (l : list syscall) :
  hoare kn (fun t => List.filter is_chroot t = l) (minijail_enter j)
    (fun _ t =>
       List.filter is_chroot t =
       if flag j Flag.chroot then l ++ [sys_chroot (chrootdir j)] else l).
Proof.
  unfold minijail_enter.
  destruct (flag j Flag.pids); [apply hoare_die|].
  destruct (_ && _); [apply hoare_die|].
  apply count_seq; [elsewhere|].
  apply count_seq; [elsewhere|].
  destruct (flag j Flag.chroot); cbn [when andb].
  - apply hoare_bind
      with (R := fun _ t =>
                   List.filter is_chroot t = l ++ [sys_chroot (chrootdir j)]).
    + apply hoare_must_succeed. apply count_enter_chroot.
    + intros u. cbv beta.
      apply count_seq; [elsewhere|].
      apply count_seq; [elsewhere|].
      apply count_seq; [elsewhere|].
      apply count_seq; [elsewhere|].
      apply emits_keeps_count. elsewhere.
  - apply count_seq; [elsewhere|].
    apply count_seq; [elsewhere|].
    apply count_seq; [elsewhere|].
    apply count_seq; [elsewhere|].
    apply count_seq; [elsewhere|].
    apply emits_keeps_count. elsewhere.
Qed.

Lemma count_run_static (kn : kernel) (j : minijail) (filename : cstr)
    (argv : list cstr) (child_pid child_pid' : Z) :
  flag j Flag.chroot = true ->
  hoare kn (fun t => List.filter is_chroot t = [])
    (minijail_run_static j filename argv child_pid child_pid')
    (fun e t =>
       forall f a, e = Executes f a ->
       List.filter is_chroot t =
       [sys_chroot (chrootdir j); sys_chroot (chrootdir j)]).
Proof.
  intros Hc. unfold minijail_run_static.
  destruct (flag j Flag.caps); [apply hoare_die|].
  destruct (child_pid <? 0); [apply hoare_die|].
  destruct (child_pid >? 0); [apply hoare_ret; intros; discriminate|].
  assert (Hc' : flag (flag_off Flag.pids j) Flag.chroot = true)
    by (rewrite flag_flag_off; cbn; exact Hc).
  apply hoare_bind
    with (R := fun _ t =>
                 List.filter is_chroot t = [sys_chroot (chrootdir j)]).
  { eapply hoare_post; [|apply count_enter].
    cbv beta. intros _ t E. rewrite Hc' in E. exact E. }
  intros u.
  destruct (_ && _); [apply hoare_ret; intros; discriminate|].
  destruct (_ && _); [apply hoare_ret; intros; discriminate|].
  rewrite Hc'. cbn [when].
  apply hoare_bind
    with (R := fun _ t =>
                 List.filter is_chroot t =
                 [sys_chroot (chrootdir j); sys_chroot (chrootdir j)]).
  { apply hoare_must_succeed.
    apply (count_enter_chroot kn (flag_off Flag.pids j)
             [sys_chroot (chrootdir j)]). }
  intros u'. apply count_seq.
  { apply emits_must_succeed, other_setup_limits. auto. }
  apply hoare_ret. intros t Ht f a _. exact Ht.
Qed.

(** With a chroot, a process in which [minijail_run_static] reaches
    [execve] has called [chroot] twice with the policy's root directory:
    once inside [minijail_enter], which still sees the chroot flag, and
    once more after it. *)
Theorem static_target_changes_root_twice (kn : kernel) (j : minijail)
    (filename : cstr) (argv : list cstr) (child_pid child_pid' : Z)
    (f : cstr) (a : list cstr) :
  flag j Flag.chroot = true ->
  fst (minijail_run_static j filename argv child_pid child_pid' kn []) =
  Some (Executes f a) ->
  List.filter is_chroot
    (snd (minijail_run_static j filename argv child_pid child_pid' kn [])) =
  [sys_chroot (chrootdir j); sys_chroot (chrootdir j)].
Proof.
  intros Hc H.
  exact (count_run_static kn j filename argv child_pid child_pid' Hc []
           eq_refl (Executes f a) H f a eq_refl).
Qed.

Lemma static_target_changes_root_twice_witness :
  List.filter is_chroot
    (snd (minijail_run_static static_policy (cs "/bin/true") [cs "true"]
            0 0 willing_kernel [])) =
  [sys_chroot (chrootdir static_policy);
   sys_chroot (chrootdir static_policy)].
Proof.
  apply (static_target_changes_root_twice willing_kernel static_policy
           (cs "/bin/true") [cs "true"] 0 0 (cs "/bin/true") [cs "true"]).
  - reflexivity.
  - vm_compute. reflexivity.
Defined.

(** * The policy that [minijail0] builds *)

Lemma run_calls_app (hst : host) (cs1 cs2 : list call) :
  forall (j j1 j2 : minijail) (h h1 h2 : heap),
  run_calls hst cs1 j h = Returns j1 h1 ->
  run_calls hst cs2 j1 h1 = Returns j2 h2 ->
  run_calls hst (cs1 ++ cs2) j h = Returns j2 h2.
Proof.
  induction cs1 as [|c cs1 IH]; intros j j1 j2 h h1 h2 H1 H2.
  - inversion H1; subst. exact H2.
  - cbn [app run_calls] in *. apply bind_returns in H1.
    destruct H1 as (r & h' & Hr & Hrest).
    rewrite (bind_eq _ _ _ _ _ Hr). eapply IH; eassumption.
Qed.

Ltac by_calls cs :=
  exists cs; cbn [run_calls run_call];
  unfold void, bind, ret in *;
  repeat match goal with
         | H : Returns _ _ = Returns _ _ |- _ => inversion H; subst; clear H
         | H : Dies = Returns _ _ |- _ => discriminate H
         | H : context [if ?x then _ else _] |- _ => destruct x eqn:?
         | H : context [match ?x with _ => _ end] |- _ => destruct x eqn:?
         end;
  cbn [fst snd] in *; subst;
  try reflexivity.

Section Cli.

Variable hst : host.
Variable atoi : cstr -> Z.
Variable reopen : Z -> cstr -> bool.

Lemma add_binding_is_call (j j' : minijail) (arg : cstr) (h h' : heap) :
  add_binding atoi j arg h = Returns (Some j') h' ->
  exists src dest w,
    minijail_bind j src dest w h = Returns (0, j') h'.
Proof.
  intros H. unfold add_binding in H.
  destruct (strtok COMMA arg) as [[src more]|]; [|discriminate H].
  destruct (strtok COMMA more) as [[dest more']|]; [|discriminate H].
  unfold bind, ret in H.
  match type of H with
  | context [minijail_bind j src dest ?w h] =>
      exists src, dest, w; destruct (minijail_bind j src dest w h)
        as [[r j1] h1|] eqn:E; [|discriminate H]
  end.
  cbn [fst snd] in H. destruct (Z.eqb_spec r 0) as [->|N]; cbn [negb] in H;
    [|discriminate H].
  now inversion H.
Qed.

Lemma case_is_calls (j j' : minijail) (opt : byte) (optarg : cstr)
    (h h' : heap) :
  parse_args_case hst atoi reopen j opt optarg h = Returns (Some j') h' ->
  exists cs, run_calls hst cs j h = Returns j' h'.
Proof.
  intros H.
  destruct opt; cbn [parse_args_case] in H; try discriminate H.
  - by_calls (@nil call).
  - by_calls (@nil call).
  - by_calls (@nil call).
  - by_calls [call_enter_chroot optarg].
  - by_calls [call_inherit_usergroups].
  - by_calls [call_log_seccomp_filter_failures].
  - by_calls [call_meta_file optarg].
  - by_calls [call_output_limit (atoi optarg)].
  - by_calls [call_parse_seccomp_filters optarg; call_use_seccomp_filter].
  - destruct (add_binding_is_call _ _ _ _ _ H) as (src & dest & w & E).
    exists [call_bind src dest w]. cbn [run_calls run_call].
    unfold bind. rewrite E. reflexivity.
  - by_calls [call_chroot_chdir (Some optarg)].
  - by_calls [call_memory_limit (atoi optarg)].
  - by_calls [call_use_seccomp].
  - by_calls [call_time_limit (atoi optarg)].
Qed.

Lemma options_are_calls (options : list (byte * cstr)) :
  forall (j j' : minijail) (h h' : heap),
  parse_args_options hst atoi reopen j options h = Returns (Some j') h' ->
  exists cs, run_calls hst cs j h = Returns j' h'.
Proof.
  induction options as [|[opt optarg] options IH]; intros j j' h h' H;
    cbn [parse_args_options] in H.
  - inversion H; subst. exists []. reflexivity.
  - apply bind_returns in H. destruct H as ([j1|] & h1 & H1 & H2);
      [|discriminate H2].
    destruct (case_is_calls _ _ _ _ _ _ H1) as (cs1 & E1).
    destruct (IH _ _ _ _ H2) as (cs2 & E2).
    exists (cs1 ++ cs2). eapply run_calls_app; eassumption.
Qed.

Ltac cli_done Hi :=
  unfold cli_invariant in *; unfold_setters; cbn [fst snd];
  repeat (repeat match goal with
                 | |- context [flag (?s ?v ?x) ?f] =>
                     progress change (flag (s v x) f) with (flag x f)
                 end;
          rewrite ?flag_flag_on);
  cbn [Flag.bit Z.eqb Pos.eqb orb uid gid caps filter_prog flag_on
         set_flags set_uid set_gid set_usergid set_user set_caps
         set_filter_len set_binding_count set_chrootdir set_chdir
         set_filter_prog set_bindings set_meta_file set_stack_limit
         set_time_limit set_memory_limit set_output_limit];
  tauto.

Lemma bind_keeps_cli (pw : passwd) (j j' : minijail) (src dest : cstr)
    (w r : Z) (h h' : heap) :
  minijail_bind j src dest w h = Returns (r, j') h' ->
  cli_invariant pw j -> cli_invariant pw j'.
Proof.
  intros H Hi. unfold minijail_bind in H.
  destruct (Byte.eqb (first_byte dest) SLASH); cbn [negb] in H;
    invert_returns H; try exact Hi.
  all: cli_done Hi.
Qed.

Lemma case_keeps_cli (pw : passwd) (j j' : minijail) (opt : byte)
    (optarg : cstr) (h h' : heap) :
  parse_args_case hst atoi reopen j opt optarg h = Returns (Some j') h' ->
  cli_invariant pw j -> cli_invariant pw j'.
Proof.
  intros H Hi.
  destruct opt; cbn [parse_args_case] in H; try discriminate H.
  all: try (destruct (add_binding_is_call _ _ _ _ _ H)
              as (src & dest & w & E);
            exact (bind_keeps_cli pw _ _ _ _ _ _ _ _ E Hi)).
  all: unfold minijail_enter_chroot, minijail_chroot_chdir,
         minijail_parse_seccomp_filters, minijail_meta_file in H;
    invert_returns H; try exact Hi.
  all: cli_done Hi.
Qed.

Lemma options_keep_cli (pw : passwd) (options : list (byte * cstr)) :
  forall (j j' : minijail) (h h' : heap),
  parse_args_options hst atoi reopen j options h = Returns (Some j') h' ->
  cli_invariant pw j -> cli_invariant pw j'.
Proof.
  induction options as [|[opt optarg] options IH]; intros j j' h h' H Hi;
    cbn [parse_args_options] in H.
  - inversion H; subst. exact Hi.
  - apply bind_returns in H. destruct H as ([j1|] & h1 & H1 & H2);
      [|discriminate H2].
    eapply IH; [exact H2|]. eapply case_keeps_cli; eassumption.
Qed.

Lemma main_policy_built (pw : passwd) (options : list (byte * cstr))
    (j : minijail) (h h' : heap) :
  main_policy hst atoi reopen pw options h = Returns (Some j) h' ->
  (exists cs h1, built_by hst (base_calls pw ++ cs) h1 j) /\
  cli_invariant pw j.
Proof.
  intros H. unfold main_policy in H.
  apply bind_returns in H. destruct H as ([j0|] & h0 & H0 & H);
    [|discriminate H].
  assert (j0 = zeroed).
  { unfold minijail_new, bind, ret, malloc in H0.
    destruct h as [|[|] ?]; inversion H0; reflexivity. }
  subst j0.
  apply bind_returns in H. destruct H as (j1 & h1 & H1 & H).
  apply bind_returns in H. destruct H as (j2 & h2 & H2 & H).
  unfold minijail_change_uid in H1. unfold minijail_change_gid in H2.
  destruct (Z.eqb_spec (pw_uid pw) 0) as [|Nu]; [discriminate H1|].
  destruct (Z.eqb_spec (pw_gid pw) 0) as [|Ng]; [discriminate H2|].
  inversion H1; subst j1 h1. inversion H2; subst j2 h2. clear H1 H2.
  split.
  - destruct (options_are_calls _ _ _ _ _ H) as (cs & E).
    exists cs, h0. exists h'.
    eapply run_calls_app; [|exact E].
    cbn [base_calls run_calls run_call].
    unfold bind, void, ret, minijail_change_uid, minijail_change_gid.
    apply Z.eqb_neq in Nu, Ng. rewrite Nu, Ng. reflexivity.
  - eapply options_keep_cli; [exact H|].
    unfold cli_invariant. unfold_setters.
    repeat split; auto; try discriminate.
Qed.

End Cli.

(** Whatever the options, the user database, the C library's [atoi] and
    the allocator: the policy that [minijail0] holds after its options is
    one that the builder issues (the eight calls of [main], then calls
    for the options), it changes uid and gid to those of the invoking
    user, neither of them 0, it has an empty capability mask with the
    capability flag set, the pid, mount and network namespaces, the
    read-only remount and [no_new_privs] switched on, and a filter
    program only together with the filter flag. *)
Theorem cli_policy_is_built (hst : host) (atoi : cstr -> Z)
    (reopen : Z -> cstr -> bool) (pw : passwd)
    (options : list (byte * cstr)) (j : minijail) (h h' : heap) :
  main_policy hst atoi reopen pw options h = Returns (Some j) h' ->
  (exists cs h1, built_by hst (base_calls pw ++ cs) h1 j) /\
  uid j = pw_uid pw /\ pw_uid pw <> 0 /\
  gid j = pw_gid pw /\ pw_gid pw <> 0 /\
  caps j = 0 /\
  flag j Flag.uid = true /\ flag j Flag.gid = true /\
  flag j Flag.caps = true /\ flag j Flag.pids = true /\
  flag j Flag.vfs = true /\ flag j Flag.readonly = true /\
  flag j Flag.no_new_privs = true /\ flag j Flag.net = true /\
  (filter_prog j <> None -> flag j Flag.seccomp_filter = true).
Proof.
  intros H.
  exact (main_policy_built hst atoi reopen pw options j h h' H).
Qed.

Lemma cli_policy_run :
  main_policy small_host digit_atoi (fun _ _ => true)
    (Build_passwd 1000 1000) cli_options [] =
  Returns (Some cli_policy) [].
Proof. vm_compute. reflexivity. Qed.

Lemma cli_policy_is_built_witness :
  (exists cs h1,
     built_by small_host (base_calls (Build_passwd 1000 1000) ++ cs) h1
       cli_policy) /\
  uid cli_policy = pw_uid (Build_passwd 1000 1000) /\
  pw_uid (Build_passwd 1000 1000) <> 0 /\
  gid cli_policy = pw_gid (Build_passwd 1000 1000) /\
  pw_gid (Build_passwd 1000 1000) <> 0 /\
  caps cli_policy = 0 /\
  flag cli_policy Flag.uid = true /\ flag cli_policy Flag.gid = true /\
  flag cli_policy Flag.caps = true /\ flag cli_policy Flag.pids = true /\
  flag cli_policy Flag.vfs = true /\ flag cli_policy Flag.readonly = true /\
  flag cli_policy Flag.no_new_privs = true /\
  flag cli_policy Flag.net = true /\
  (filter_prog cli_policy <> None ->
   flag cli_policy Flag.seccomp_filter = true).
Proof.
  apply (cli_policy_is_built small_host digit_atoi (fun _ _ => true)
           (Build_passwd 1000 1000) cli_options cli_policy [] []).
  exact cli_policy_run.
Defined.

(** [minijail0] cannot run a static target: [main] always sets the
    capability flag and no option clears it, so [minijail_run_static]
    ends the process before it forks or makes any call. *)
Theorem cli_static_target_dies (hst : host) (atoi : cstr -> Z)
    (reopen : Z -> cstr -> bool) (pw : passwd)
    (options : list (byte * cstr)) (j : minijail) (h h' : heap)
    (filename : cstr) (argv : list cstr) (child_pid child_pid' : Z)
    (kn : kernel) (t : list syscall) :
  main_policy hst atoi reopen pw options h = Returns (Some j) h' ->
  minijail_run_static j filename argv child_pid child_pid' kn t = (None, t).
Proof.
  intros H.
  destruct (main_policy_built hst atoi reopen pw options j h h' H)
    as (_ & Hi).
  unfold cli_invariant in Hi.
  destruct Hi as (_ & _ & _ & _ & _ & _ & _ & Hc & _).
  unfold minijail_run_static. rewrite Hc. reflexivity.
Qed.

Lemma cli_static_target_dies_witness :
  minijail_run_static cli_policy (cs "/bin/true") [cs "true"] 0 0
    willing_kernel [] = (None, []).
Proof.
  apply (cli_static_target_dies small_host digit_atoi (fun _ _ => true)
           (Build_passwd 1000 1000) cli_options cli_policy [] []).
  exact cli_policy_run.
Defined.

(** * The argument of [-b] *)

Lemma skip_delimiters_repeat (n : nat) (s : cstr) :
  skip_delimiters COMMA (repeat COMMA n ++ s) = skip_delimiters COMMA s.
Proof. induction n as [|n IH]; [reflexivity|]. cbn. exact IH. Qed.

Lemma skip_delimiters_token (s rest : cstr) :
  token s -> skip_delimiters COMMA (s ++ rest) = s ++ rest.
Proof.
  intros [Hne Hc]. destruct s as [|c s]; [contradiction|].
  cbn [app skip_delimiters].
  destruct (Byte.eqb c COMMA) eqn:E; [|reflexivity].
  apply byte_eqb_true in E. subst. elim Hc. now left.
Qed.

Lemma take_token_comma (s rest : cstr) :
  ~ In COMMA s -> take_token COMMA (s ++ COMMA :: rest) = (s, rest).
Proof.
  induction s as [|c s IH]; intros Hc.
  - reflexivity.
  - cbn [app take_token].
    destruct (Byte.eqb c COMMA) eqn:E.
    + apply byte_eqb_true in E. subst. elim Hc. now left.
    + rewrite IH; [reflexivity|]. intros F. apply Hc. now right.
Qed.

Lemma take_token_end (s : cstr) :
  ~ In COMMA s -> take_token COMMA s = (s, []).
Proof.
  induction s as [|c s IH]; intros Hc.
  - reflexivity.
  - cbn [take_token].
    destruct (Byte.eqb c COMMA) eqn:E.
    + apply byte_eqb_true in E. subst. elim Hc. now left.
    + rewrite IH; [reflexivity|]. intros F. apply Hc. now right.
Qed.

Lemma strtok_found (l : cstr) :
  l <> [] -> skip_delimiters COMMA l = l ->
  strtok COMMA l = Some (take_token COMMA l).
Proof.
  intros Hne E. unfold strtok. rewrite E.
  destruct l; [contradiction|reflexivity].
Qed.

Lemma strtok_skip (n : nat) (l : cstr) :
  strtok COMMA (repeat COMMA n ++ l) = strtok COMMA l.
Proof. unfold strtok. now rewrite skip_delimiters_repeat. Qed.

Lemma strtok_token (n : nat) (s rest : cstr) :
  token s ->
  strtok COMMA (repeat COMMA n ++ s ++ COMMA :: rest) = Some (s, rest).
Proof.
  intros Hs. rewrite strtok_skip, strtok_found.
  - rewrite take_token_comma; [reflexivity|apply Hs].
  - destruct Hs as [Hne _]. destruct s; [contradiction|discriminate].
  - now apply skip_delimiters_token.
Qed.

Lemma strtok_last (n : nat) (s : cstr) :
  token s -> strtok COMMA (repeat COMMA n ++ s) = Some (s, []).
Proof.
  intros Hs. rewrite strtok_skip, strtok_found.
  - rewrite take_token_end; [reflexivity|apply Hs].
  - apply Hs.
  - rewrite <- (app_nil_r s). now apply skip_delimiters_token.
Qed.

Lemma strtok_none (n : nat) : strtok COMMA (repeat COMMA n) = None.
Proof.
  unfold strtok. rewrite <- (app_nil_r (repeat COMMA n)).
  now rewrite skip_delimiters_repeat.
Qed.

(** The argument of [-b] is cut at commas, runs of commas counting as
    one and commas in front being skipped: with a source and a
    destination the binding is added read-only, with a third token it is
    added with [atoi] of that token as its writeable flag (what follows a
    further comma is dropped); with fewer than two tokens the program
    leaves with status 1, as it does when [minijail_bind] turns the
    binding down. *)
Theorem add_binding_tokens (atoi : cstr -> Z) (j : minijail)
    (src dest flags rest : cstr) (k n m : nat) (h : heap) :
  token src -> token dest -> token flags ->
  add_binding atoi j
    (repeat COMMA k ++ src ++ repeat COMMA (S n) ++ dest) h =
  bound_or_exit j src dest 0 h /\
  add_binding atoi j
    (repeat COMMA k ++ src ++ repeat COMMA (S n) ++ dest
     ++ repeat COMMA (S m) ++ flags) h =
  bound_or_exit j src dest (atoi flags) h /\
  add_binding atoi j
    (repeat COMMA k ++ src ++ repeat COMMA (S n) ++ dest
     ++ repeat COMMA (S m) ++ flags ++ COMMA :: rest) h =
  bound_or_exit j src dest (atoi flags) h /\
  add_binding atoi j (repeat COMMA k ++ src) h = Returns None h /\
  add_binding atoi j (repeat COMMA k) h = Returns None h.
Proof.
  intros Hs Hd Hf. unfold bound_or_exit, add_binding.
  repeat split.
  - cbn [repeat app]. rewrite strtok_token by exact Hs.
    rewrite strtok_last by exact Hd. reflexivity.
  - cbn [repeat app]. rewrite strtok_token by exact Hs.
    rewrite strtok_token by exact Hd.
    rewrite strtok_last by exact Hf. reflexivity.
  - cbn [repeat app]. rewrite strtok_token by exact Hs.
    rewrite strtok_token by exact Hd.
    rewrite strtok_token by exact Hf. reflexivity.
  - rewrite strtok_last by exact Hs. reflexivity.
  - rewrite strtok_none. reflexivity.
Qed.

Lemma token_dec (s : cstr) :
  negb (Nat.eqb (List.length s) 0)
  && forallb (fun b => negb (Byte.eqb b COMMA)) s = true ->
  token s.
Proof.
  intros H. apply andb_prop in H. destruct H as [Hn Hc]. split.
  - destruct s; [discriminate Hn|discriminate].
  - clear Hn. induction s as [|c s IH]; [easy|].
    cbn in Hc. apply andb_prop in Hc. destruct Hc as [H1 H2].
    intros [E|I]; [subst; discriminate H1|now apply IH].
Qed.

Lemma add_binding_tokens_witness :
  add_binding digit_atoi zeroed
    (repeat COMMA 0 ++ cs "/lib" ++ repeat COMMA 2 ++ cs "/usr/lib") [] =
  bound_or_exit zeroed (cs "/lib") (cs "/usr/lib") 0 [] /\
  add_binding digit_atoi zeroed
    (repeat COMMA 0 ++ cs "/lib" ++ repeat COMMA 2 ++ cs "/usr/lib"
     ++ repeat COMMA 1 ++ cs "1") [] =
  bound_or_exit zeroed (cs "/lib") (cs "/usr/lib") (digit_atoi (cs "1")) [] /\
  add_binding digit_atoi zeroed
    (repeat COMMA 0 ++ cs "/lib" ++ repeat COMMA 2 ++ cs "/usr/lib"
     ++ repeat COMMA 1 ++ cs "1" ++ COMMA :: cs "x") [] =
  bound_or_exit zeroed (cs "/lib") (cs "/usr/lib") (digit_atoi (cs "1")) [] /\
  add_binding digit_atoi zeroed (repeat COMMA 0 ++ cs "/lib") [] =
  Returns None [] /\
  add_binding digit_atoi zeroed (repeat COMMA 0) [] = Returns None [].
Proof.
  apply (add_binding_tokens digit_atoi zeroed (cs "/lib") (cs "/usr/lib")
           (cs "1") (cs "x") 0 1 0 []);
    apply token_dec; reflexivity.
Defined.

(** * What the resolver accepts *)

Lemma replace_prefix_codes (j : minijail) (buffer : list byte)
    (buffer_len : Z) :
  match replace_prefix j buffer buffer_len with
  | Resolved r _ => r = 0 \/ r = 1
  | Fault => True
  end.
Proof.
  unfold replace_prefix.
  destruct (longest_match (bindings j) buffer None 0) as [best best_len].
  destruct (match best with
            | Some b => Some (src b, best_len)
            | None => _
            end) as [[src_path bl]|]; [|exact I].
  destruct (strlen src_path =? 0); [exact I|].
  destruct (_ >=? _); [now right|].
  destruct (_ || _); [exact I|now left].
Qed.

Lemma get_path_step_stops (fsys : filesystem) (j : minijail)
    (buffer : list byte) (path : cstr) (r : Z) (b : list byte) :
  get_path_step fsys j buffer path = Stop (Resolved r b) ->
  r = 1 \/ (r = 0 /\ lstat fsys (c_string b) = Some S_IFREG).
Proof.
  unfold get_path_step.
  destruct (anchor fsys j _ _ path) as [buf|];
    [|intros H; inversion H; now left].
  destruct (concat_path buf _ (Some path)) as [rc buf'].
  destruct (negb (rc =? 0)); [intros H; inversion H; now left|].
  pose proof (replace_prefix_codes j buf' (Z.of_nat (List.length buffer)))
    as Hc.
  destruct (replace_prefix j buf' (Z.of_nat (List.length buffer)))
    as [rr buf''|]; [|discriminate].
  destruct Hc as [-> | ->].
  - unfold classify.
    destruct (lstat fsys (c_string buf'')) as [[| |]|] eqn:El;
      try (intros H; inversion H; subst; now left).
    + intros H; inversion H; subst. right. now split.
    + destruct (readlink fsys (c_string buf''));
        intros H; inversion H; now left.
  - intros H; inversion H; now left.
Qed.

(** Whatever the policy, the file system and the path: when
    [minijail_get_path] returns, it returns 0 or 1 (or has left its
    array), and it returns 0 only with the name of a regular file in the
    buffer, a name that [lstat] has seen as such. *)
Theorem get_path_accepts_regular_files (fuel : nat) (fsys : filesystem)
    (j : minijail) (buffer : list byte) (path : cstr) (r : Z)
    (b : list byte) :
  minijail_get_path fuel fsys j buffer path = Some (Resolved r b) ->
  r = 1 \/ (r = 0 /\ lstat fsys (c_string b) = Some S_IFREG).
Proof.
  revert buffer path.
  induction fuel as [|fuel IH]; intros buffer path H; [discriminate H|].
  cbn [minijail_get_path] in H.
  destruct (get_path_step fsys j buffer path) as [res|buf link] eqn:E.
  - inversion H; subst. now apply (get_path_step_stops fsys j buffer path).
  - now apply (IH buf link).
Qed.

Lemma get_path_accepts_regular_files_witness :
  0 = 1 \/ (0 = 0 /\ lstat two_links (c_string resolved_sh) = Some S_IFREG).
Proof.
  apply (get_path_accepts_regular_files 3 two_links zeroed path_buffer
           (cs "/bin/sh") 0 resolved_sh).
  vm_compute. reflexivity.
Defined.

(** * The size of the image *)

Lemma total_append_sum (st : marshal_state) (src : list byte) (l x : Z) :
  total st = wrap 64 x ->
  total (marshal_append st src l) = wrap 64 (x + l).
Proof.
  intros E. rewrite total_marshal_append, E. unfold wrap.
  apply Zplus_mod_idemp_l.
Qed.

Lemma total_bindings_sum (bs : list binding) :
  forall (st : marshal_state) (x : Z),
    total st = wrap 64 x ->
    total (fold_left marshal_binding bs st) =
    wrap 64 (x + fold_right (fun b acc => binding_size b + acc) 0 bs).
Proof.
  induction bs as [|b bs IH]; intros st x E; cbn [fold_left fold_right].
  - now rewrite Z.add_0_r.
  - rewrite (IH (marshal_binding st b) (x + binding_size b)).
    + f_equal. lia.
    + unfold marshal_binding, binding_size.
      rewrite (total_append_sum _ _ _
                 (x + (strlen (src b) + 1) + (strlen (dest b) + 1))).
      * f_equal. lia.
      * apply total_append_sum. now apply total_append_sum.
Qed.

(** [minijail_size] is, whatever the policy: the size of the struct (112
    bytes), plus the lengths with terminator of the strings that are
    held, plus [len] times eight bytes for a filter that is switched on,
    plus for each binding the lengths with terminator of its two strings
    and four bytes; all of this in [size_t].  The addresses in the struct
    do not matter, and neither do the instructions of the filter. *)
Theorem minijail_size_formula (j : minijail) (p : pointers) :
  minijail_size j p = wrap 64 (described_size j).
Proof.
  unfold minijail_size, minijail_marshal_helper, described_size. cbv zeta.
  rewrite (total_bindings_sum (bindings j) _
             (sizeof_minijail + opt_size (user j) + opt_size (chrootdir j)
              + opt_size (chdir j) + filter_size j)); [reflexivity|].
  assert (H0 : total (marshal_append (marshal_state_init 0)
                        (struct_bytes j p) sizeof_minijail)
               = wrap 64 sizeof_minijail).
  { now rewrite total_marshal_append. }
  unfold filter_size.
  destruct (filter_prog j) as [fp|]; [destruct (flag j Flag.seccomp_filter)|];
    destruct (chdir j); destruct (chrootdir j); destruct (user j);
    cbn [opt_size]; rewrite ?Z.add_0_r;
    repeat apply total_append_sum; exact H0.
Qed.

(** * Setting up before dropping *)

Section Privileges.

(** A property of every call that is not one of the setup. *)
Variable P : syscall -> Prop.
Hypothesis P_priv : forall c, setup_call c = false -> P c.

Ltac priv := emit; try (apply P_priv; reflexivity).

Lemma priv_drop_ugid (j : minijail) : emits P (drop_ugid j).
Proof. unfold drop_ugid. priv. Qed.

Lemma priv_drop_bounding (j : minijail) (idx : list Z) :
  emits P (drop_bounding j idx).
Proof.
  induction idx as [|i idx IH]; cbn [drop_bounding]; priv. exact IH.
Qed.

Lemma priv_drop_caps (j : minijail) : emits P (drop_caps j).
Proof.
  unfold drop_caps, cap_set_proc. priv. apply priv_drop_bounding.
Qed.

Lemma priv_set_seccomp_filter (j : minijail) :
  emits P (set_seccomp_filter j).
Proof. unfold set_seccomp_filter. priv. Qed.

Lemma priv_rest (j : minijail) :
  emits P
    (when (flag j Flag.caps)
       (must (prctl PR_SET_KEEPCAPS 1) ;;
        must (prctl PR_SET_SECUREBITS
                (Z.lor SECURE_ALL_BITS SECURE_ALL_LOCKS))) ;;
     (if flag j Flag.no_new_privs then
        drop_ugid j ;;
        when (flag j Flag.caps) (drop_caps j) ;;
        set_seccomp_filter j
      else
        set_seccomp_filter j ;;
        drop_ugid j ;;
        when (flag j Flag.caps) (drop_caps j)) ;;
     when (flag j Flag.seccomp) (must (prctl PR_SET_SECCOMP 1)))%sys.
Proof.
  priv;
    first [ apply priv_drop_ugid | apply priv_drop_caps
          | apply priv_set_seccomp_filter ].
Qed.

End Privileges.

Lemma setup_bind_one (j : minijail) (next : list binding) :
  forall b, emits (fun c => setup_call c = true) (bind_one j b next).
Proof.
  induction next as [|b' next IH]; intros b; cbn [bind_one]; emit.
  apply IH.
Qed.

Lemma setup_enter_chroot (j : minijail) :
  emits (fun c => setup_call c = true) (enter_chroot j).
Proof.
  unfold enter_chroot. apply emits_bind.
  - destruct (bindings j); [apply emits_ret|apply setup_bind_one].
  - intros r. emit.
Qed.

Lemma setup_remount_readonly (j : minijail) :
  emits (fun c => setup_call c = true) (remount_readonly j).
Proof. unfold remount_readonly. emit. Qed.

Lemma enter_splits_setup (j : minijail) :
  splits (fun c => setup_call c = true) (fun c => setup_call c = false)
    (minijail_enter j).
Proof.
  unfold minijail_enter.
  destruct (flag j Flag.pids); [apply splits_emits_l, emits_die|].
  destruct (_ && _); [apply splits_emits_l, emits_die|].
  apply splits_bind_l; [emit|intros _].
  apply splits_bind_l; [emit|intros _].
  apply splits_bind_l; [emit; apply setup_enter_chroot|intros _].
  apply splits_bind_l; [emit|intros _].
  apply splits_bind_l; [emit; apply setup_remount_readonly|intros _].
  apply splits_emits_r. apply priv_rest. auto.
Qed.

(** In [minijail_enter], whatever the policy and the kernel, the calls
    that arrange namespaces, mounts and the root directory ([unshare],
    [mount], [umount], [chroot], [chdir]) all come before every other
    call: before the [prctl] calls, the changes of groups, gid and uid,
    the capability calls and the installation of the filter. *)
Theorem enter_sets_up_first (j : minijail) (kn : kernel) (i k : nat)
    (x y : syscall) :
  nth_error (enter_trace j kn) i = Some x ->
  nth_error (enter_trace j kn) k = Some y ->
  setup_call x = true -> setup_call y = false -> (i < k)%nat.
Proof.
  intros Hi Hk Hx Hy. unfold enter_trace in *.
  destruct (enter_splits_setup j kn []) as (a & b & E & Fa & Fb).
  rewrite E in Hi, Hk. cbn [app] in Hi, Hk.
  apply (split_order _ _ a b x y i k Fa Fb Hi Hk).
  - rewrite Hx. discriminate.
  - rewrite Hy. discriminate.
Qed.

Lemma enter_sets_up_first_witness : (3 < 10)%nat.
Proof.
  apply (enter_sets_up_first mounting_policy willing_kernel 3 10
           (mount (cs "/bin") (cs "/tmp/jail/bin") None
              (Z.lor MS_BIND (Z.lor MS_REMOUNT MS_RDONLY)) None)
           (setgroups 0)); reflexivity.
Defined.

(** * Entering after [minijail_preexec] *)

Lemma flag_preexec (j : minijail) (f : Flag.t) :
  flag (minijail_preexec j) f = survives_exec f && flag j f.
Proof.
  unfold minijail_preexec. cbv zeta. rewrite !flag_flag_assign.
  destruct f; cbn [Flag.bit Z.eqb Pos.eqb survives_exec andb]; reflexivity.
Qed.

(** After [minijail_preexec], the way [minijail_run_pid_pipes] calls it,
    [minijail_enter] makes no other calls than [unshare(CLONE_NEWNS)],
    the unmounts and the mount of [/proc], and [setgroups]: it changes
    neither uid nor gid, touches no capability, installs no filter and
    neither changes root nor unshares the network.  [setgroups(0, NULL)]
    is still called when the policy's uid or gid is not 0, since
    [drop_ugid] tests the ids, not the flags. *)
Theorem enter_after_preexec (j : minijail) (kn : kernel) (x : syscall) :
  In x (enter_trace (minijail_preexec j) kn) -> inherited_call x = true.
Proof.
  intros Hin. unfold enter_trace in Hin.
  assert (E : emits (fun c => inherited_call c = true)
                (minijail_enter (minijail_preexec j))).
  { unfold minijail_enter, drop_ugid, set_seccomp_filter.
    rewrite !flag_preexec. cbn [survives_exec andb when].
    unfold remount_readonly. emit; reflexivity. }
  destruct (E kn []) as (tr & Et & F). rewrite Et in Hin. cbn [app] in Hin.
  rewrite Forall_forall in F. now apply F.
Qed.

Lemma enter_after_preexec_witness :
  inherited_call (unshare CLONE_NEWNS) = true.
Proof.
  apply (enter_after_preexec mounting_policy willing_kernel).
  vm_compute. left. reflexivity.
Defined.
